(** * Retrieval pipeline of the document question-answering backend

    A shallow embedding of [functions/src/index.ts] and of
    [functions/src/processUpload.ts], and the properties of the retrieval
    pipeline: chunking, lexical prefilter, cosine similarity, dynamic top-K
    and the [askQuestion] orchestrator; then of [deleteFile], of the upload
    handler [processUploadedDocument], and of the three together.

    Conventions.
    - A JavaScript string is the list of its UTF-16 code units ([jsstring]).
    - A JavaScript [number] that holds an index, a count or a size is a [Z];
      embedding components and similarity scores are IEEE 754 binary64
      values ([float], the primitive floats: [+ - * /] round as the
      JavaScript operators do, and [sqrt] is the correctly rounded square
      root that V8 returns for [Math.sqrt]).
    - [undefined]/[null] is [None]; a rejected promise or thrown exception
      is an explicit error result. *)

From Equations Require Import Equations.
From Stdlib Require Import String Ascii.
From Stdlib Require Import List ZArith NArith Bool Lia Floats.
From Stdlib Require Import Sorted Permutation DecimalString.
Import ListNotations.

Set Warnings "-inexact-float".
Open Scope Z_scope.

(* ===================================================================== *)
(** * The JavaScript built-ins the code relies on *)
(* ===================================================================== *)

Module JS.

(** ** Strings *)

Definition jsstring := list N.

(** A string literal of the source (ASCII only). *)
Definition lit (s : string) : jsstring :=
  map N_of_ascii (list_ascii_of_string s).

Definition isEmpty {A} (l : list A) : bool :=
  match l with [] => true | _ => false end.

(** [Boolean(s)] for a string: the empty string is falsy. *)
Definition truthy (s : jsstring) : bool := negb (isEmpty s).

(** The code units matched by [\s] and stripped by [trim()]: the
    ECMAScript WhiteSpace and LineTerminator productions. *)
Definition isWhiteSpace (c : N) : bool :=
  ((9 <=? c) && (c <=? 13) || (c =? 32) || (c =? 160) || (c =? 5760)
   || (8192 <=? c) && (c <=? 8202) || (c =? 8232) || (c =? 8233)
   || (c =? 8239) || (c =? 8287) || (c =? 12288) || (c =? 65279))%N.

(** The code units matched by [[^a-z0-9]]. *)
Definition isLowerAlnum (c : N) : bool :=
  ((97 <=? c) && (c <=? 122) || (48 <=? c) && (c <=? 57))%N.
Definition notLowerAlnum (c : N) : bool := negb (isLowerAlnum c).

(** [s.split(/[sep]+/)]: the pieces between the maximal runs of separator
    code units.  A leading or trailing run leaves an empty piece at that
    end, and the empty string splits into one empty piece. *)
Fixpoint splitRuns (sep : N -> bool) (inRun : bool) (cur s : jsstring)
  : list jsstring :=
  match s with
  | [] => [cur]
  | c :: s' =>
      if sep c then
        if inRun then splitRuns sep true cur s'
        else cur :: splitRuns sep true [] s'
      else splitRuns sep false (cur ++ [c]) s'
  end.

Definition split (sep : N -> bool) (s : jsstring) : list jsstring :=
  splitRuns sep false [] s.

(** [arr.join(sep)] *)
Fixpoint join (sep : jsstring) (l : list jsstring) : jsstring :=
  match l with
  | [] => []
  | [w] => w
  | w :: l' => w ++ sep ++ join sep l'
  end.

Fixpoint dropWhile {A} (p : A -> bool) (l : list A) : list A :=
  match l with
  | [] => []
  | c :: l' => if p c then dropWhile p l' else l
  end.

(** [s.trim()] *)
Definition trim (s : jsstring) : jsstring :=
  rev (dropWhile isWhiteSpace (rev (dropWhile isWhiteSpace s))).

(** [s.startsWith(p)] *)
Fixpoint startsWith (s p : jsstring) : bool :=
  match p, s with
  | [], _ => true
  | _ :: _, [] => false
  | a :: p', b :: s' => (a =? b)%N && startsWith s' p'
  end.

(** [s.includes(t)]: [t] occurs in [s] as a contiguous run of code units. *)
Fixpoint includes (s t : jsstring) : bool :=
  startsWith s t ||
  match s with
  | [] => false
  | _ :: s' => includes s' t
  end.

(** The decimal rendering of an index inside a template literal. *)
Definition decimal (n : nat) : jsstring :=
  lit (NilZero.string_of_uint (Nat.to_uint n)).

(** ** Arrays *)

Definition len {A} (l : list A) : Z := Z.of_nat (length l).

(** Relative index resolution of [slice]: a negative index counts from
    the end, and the result is clamped to [0 .. len]. *)
Definition relIndex (n i : Z) : Z :=
  if i <? 0 then Z.max (n + i) 0 else Z.min i n.

(** [arr.slice(start, end)], also [s.slice(start, end)] on code units. *)
Definition slice {A} (l : list A) (start end_ : Z) : list A :=
  let k := relIndex (len l) start in
  let final := relIndex (len l) end_ in
  firstn (Z.to_nat (final - k)) (skipn (Z.to_nat k) l).

(** [Array.from({ length: n }, (_, i) => i)]; a negative length gives the
    empty array. *)
Definition range (n : Z) : list Z :=
  map Z.of_nat (seq 0 (Z.to_nat n)).

(** [arr[i]] *)
Definition at_ {A} (l : list A) (i : Z) : option A :=
  if i <? 0 then None else nth_error l (Z.to_nat i).

(** [arr.map((x, i) => f x i)] *)
Fixpoint mapiFrom {A B} (f : A -> nat -> B) (i : nat) (l : list A) : list B :=
  match l with
  | [] => []
  | x :: l' => f x i :: mapiFrom f (S i) l'
  end.
Definition mapi {A B} (f : A -> nat -> B) (l : list A) : list B :=
  mapiFrom f 0 l.

(** [arr.sort(compareFn)], given as the test [after a b] that holds when
    [compareFn(a, b) > 0].  The sort is stable (ECMAScript 2019): an
    element moves behind a later one only when the comparison asks for it. *)
Fixpoint insertSorted {A} (after : A -> A -> bool) (x : A) (l : list A)
  : list A :=
  match l with
  | [] => [x]
  | y :: l' => if after x y then y :: insertSorted after x l' else x :: l
  end.

Fixpoint sort {A} (after : A -> A -> bool) (l : list A) : list A :=
  match l with
  | [] => []
  | x :: l' => insertSorted after x (sort after l')
  end.

(** [a === b] on strings. *)
Definition strictEquals (a b : jsstring) : bool :=
  if list_eq_dec N.eq_dec a b then true else false.

(** [s.replace(pattern, '')] for a string pattern: the first occurrence
    of the pattern is taken out (the empty pattern occurs in front). *)
Fixpoint removeFirst (s pattern : jsstring) : jsstring :=
  if startsWith s pattern then skipn (length pattern) s
  else match s with
       | [] => []
       | c :: s' => c :: removeFirst s' pattern
       end.

(** [a || b] on strings that may be missing: the first that is there and
    not empty. *)
Definition orElse (a : option jsstring) (b : option jsstring)
  : option jsstring :=
  match a with
  | Some ((_ :: _) as s) => Some s
  | _ => b
  end.

End JS.

(* ===================================================================== *)
(** * Firestore and Cloud Storage, as the functions use them *)
(* ===================================================================== *)

Module Cloud.
Import JS.

(** A document of the [documents] collection, by the fields that the
    functions write or read; a field may be missing.  The timestamps are
    left out. *)
Record Document := {
  status : option jsstring;
  filePath : option jsstring;
  userId : option jsstring;
  sessionId : option jsstring;
  fileName : option jsstring;
  extractedText : option jsstring;
  statusMessage : option jsstring;
  storagePath : option jsstring;
  bucket : option jsstring;
  contentType : option jsstring }.

(** A record of the [chunks] sub-collection of a document. *)
Record Chunk := {
  chunkId : jsstring;
  index : Z;
  text : jsstring;
  embedding : option (list float) }.

(** The documents by identifier, and the chunk records under each
    document identifier in the order they were written. *)
Record Firestore := {
  documents : jsstring -> option Document;
  chunks : jsstring -> list Chunk }.

Definition given {A} (new old : option A) : option A :=
  match new with Some _ => new | None => old end.

(** [docRef.set(data, { merge: true })]: the fields that are given
    replace the stored ones, the other fields stay; a document that does
    not exist is created. *)
Definition merge (old data : Document) : Document :=
  {| status := given (status data) (status old);
     filePath := given (filePath data) (filePath old);
     userId := given (userId data) (userId old);
     sessionId := given (sessionId data) (sessionId old);
     fileName := given (fileName data) (fileName old);
     extractedText := given (extractedText data) (extractedText old);
     statusMessage := given (statusMessage data) (statusMessage old);
     storagePath := given (storagePath data) (storagePath old);
     bucket := given (bucket data) (bucket old);
     contentType := given (contentType data) (contentType old) |}.

Definition setMerge (fs : Firestore) (docId : jsstring) (data : Document)
  : Firestore :=
  {| documents := fun d =>
       if strictEquals d docId
       then Some match documents fs docId with
                 | Some old => merge old data
                 | None => data
                 end
       else documents fs d;
     chunks := chunks fs |}.

(** [docRef.delete()]: the document goes, its sub-collections stay. *)
Definition deleteDocument (fs : Firestore) (docId : jsstring) : Firestore :=
  {| documents := fun d => if strictEquals d docId then None else documents fs d;
     chunks := chunks fs |}.

(** A committed batch of [set] on new chunk references of a document. *)
Definition addChunks (fs : Firestore) (docId : jsstring) (cs : list Chunk)
  : Firestore :=
  {| documents := documents fs;
     chunks := fun d =>
       if strictEquals d docId then chunks fs d ++ cs else chunks fs d |}.

(** A committed batch of [delete] on every chunk record of a document. *)
Definition deleteChunks (fs : Firestore) (docId : jsstring) : Firestore :=
  {| documents := documents fs;
     chunks := fun d => if strictEquals d docId then [] else chunks fs d |}.

(** The objects of the buckets, by bucket name and path. *)
Definition Storage (File : Type) : Type := jsstring -> jsstring -> option File.

(** [bucket.file(path).delete({ ignoreNotFound: true })] *)
Definition deleteObject {File} (objects : Storage File)
    (bucketName path : jsstring) : Storage File :=
  fun b p =>
    if strictEquals b bucketName && strictEquals p path then None
    else objects b p.

End Cloud.

(* ===================================================================== *)
(** * functions/src/processUpload.ts *)
(* ===================================================================== *)

Module ProcessUpload.
Import JS.

(** The loop of [chunkTextByWords]: one window per iteration, from
    [start], advancing by [step] until [start] leaves the word array or a
    window ends at its last word. *)
Equations? chunkLoop (words : list jsstring) (targetWords overlapWords : Z)
    (start : Z) : list jsstring
    by wf (Z.to_nat (len words - start)) lt :=
  chunkLoop words targetWords overlapWords start
    with Z_lt_dec start (len words) => {
    | left _ =>
        let step := Z.max 1 (targetWords - Z.max 0 overlapWords) in
        let end_ := Z.min (len words) (start + targetWords) in
        let slice := join (lit " ") (slice words start end_) in
        let pushed := if truthy (trim slice) then [slice] else [] in
        if end_ =? len words then pushed
        else pushed ++ chunkLoop words targetWords overlapWords (start + step)
    | right _ => [] }.
Proof. lia. Qed.

Definition chunkTextByWords (text : jsstring) (targetWords overlapWords : Z)
  : list jsstring :=
  if isEmpty text then []
  else
    let words := filter truthy (split isWhiteSpace text) in
    if len words =? 0 then []
    else chunkLoop words targetWords overlapWords 0.

(** The chunk documents that [processUploadedDocument] sets, in batches of
    400, by their fields [index] and [text] ([createdAt] and the optional
    [embedding] are left out). *)
Record ChunkWrite := { cw_index : Z; cw_text : jsstring }.

Equations? writeBatches (chunks : list jsstring) (i : Z)
    : list (list ChunkWrite) by wf (Z.to_nat (len chunks - i)) lt :=
  writeBatches chunks i with Z_lt_dec i (len chunks) => {
    | left _ =>
        let batchSize := 400 in
        let slice := slice chunks i (i + batchSize) in
        mapi (fun text idx => {| cw_index := i + Z.of_nat idx; cw_text := text |})
          slice
        :: writeBatches chunks (i + batchSize)
    | right _ => [] }.
Proof. lia. Qed.

(** All the chunk documents written for an extracted text, when every
    batch is committed; a blank text writes none. *)
Definition writtenChunks (extractedText : jsstring) : list ChunkWrite :=
  if truthy extractedText && (0 <? len (trim extractedText)) then
    let chunks := chunkTextByWords extractedText 900 120 in
    concat (writeBatches chunks 0)
  else [].

(** ** processUploadedDocument *)

(** The custom metadata of the uploaded object, by the keys that are
    read. *)
Record Metadata := {
  md_docId : option jsstring;
  md_docid : option jsstring;
  md_userId : option jsstring;
  md_sessionId : option jsstring }.

(** The object that was finalized ([event.data]). *)
Record StorageObject := {
  ob_bucket : jsstring;
  ob_name : option jsstring;
  ob_contentType : option jsstring;
  ob_metadata : option Metadata }.

(** Which of the awaited Firestore and Storage operations are rejected;
    a batch commit is named by the index of its first chunk.  The first
    [set] stands also for the document reference [doc(docId)], which the
    SDK refuses for an identifier that is not a document path. *)
Record Faults := {
  initialSetFails : bool;
  downloadFails : bool;
  resultSetFails : bool;
  commitFails : Z -> bool }.

(** How the handler ends: it returns, or it rethrows what it caught. *)
Inductive Outcome := Returned | Thrown.

Section ProcessUploadedDocument.

(** [path.basename], [path.extname] and the temporary path
    [path.join(os.tmpdir(), path.basename(filePath))] of Node, and
    [String.prototype.toLowerCase]. *)
Variable basename : jsstring -> jsstring.
Variable extname : jsstring -> jsstring.
Variable tmpFilePathOf : jsstring -> jsstring.
Variable toLowerCase : jsstring -> jsstring.

(** The content of an object, and the readers of the downloaded file:
    the text that [pdf-parse], [mammoth] and [fs.readFileSync(_, 'utf8')]
    give ([pdfData?.text || ''] and [result?.value || ''] for the first
    two), or [None] when the reader throws. *)
Variable File : Type.
Variable pdfParse : File -> option jsstring.
Variable extractRawText : File -> option jsstring.
Variable readFileSync : File -> option jsstring.

(** The embedding service ([None]: the call is rejected) and the
    identifiers that Firestore gives to new chunk references. *)
Variable AI : Type.
Variable batchEmbedContents :
  AI -> list jsstring -> AI * option (list (list float)).
Variable autoId : nat -> jsstring.

(** [apiKey] is the value of the secret, [None] when reading it throws;
    [nextId] counts the chunk references created so far. *)
Record World := {
  firestore : Cloud.Firestore;
  objects : Cloud.Storage File;
  apiKey : option jsstring;
  ai : AI;
  nextId : nat;
  faults : Faults }.

(** The text extraction by file extension: the extracted text and the
    status message. *)
Definition extractText (ext : jsstring) (file : File) : jsstring * jsstring :=
  let parsed (r : option jsstring) :=
    match r with
    | Some t => (t, [])
    | None =>
        ([], lit "Parsing failed. Please try a different file or format (PDF, DOCX, or TXT).")
    end in
  if strictEquals ext (lit ".pdf") then parsed (pdfParse file)
  else if strictEquals ext (lit ".docx") then parsed (extractRawText file)
  else if strictEquals ext (lit ".doc") then
    ([], lit "Unsupported file type .doc. Please upload PDF, DOCX, or TXT.")
  else if strictEquals ext (lit ".txt") then parsed (readFileSync file)
  else
    ([], lit "Unsupported file type "
           ++ (if truthy ext then ext else lit "(none)")
           ++ lit ". Please upload PDF, DOCX, or TXT.").

(** The embeddings of one slice of chunks, requested in sub-batches of
    100; any rejected request leaves the whole slice without embeddings. *)
Equations? embedSlice (slice : list jsstring) (j : Z) (a : AI)
    (sliceEmbeddings : list (list float))
    : AI * option (list (list float))
    by wf (Z.to_nat (len slice - j)) lt :=
  embedSlice slice j a sliceEmbeddings with Z_lt_dec j (len slice) => {
    | left _ =>
        let embedBatchSize := 100 in
        let sub := JS.slice slice j (j + embedBatchSize) in
        match batchEmbedContents a sub with
        | (a', Some embeddings) =>
            embedSlice slice (j + embedBatchSize) a'
              (sliceEmbeddings ++ embeddings)
        | (a', None) => (a', None)
        end
    | right _ => (a, Some sliceEmbeddings) }.
Proof. lia. Qed.

(** The embedding model is there when the secret can be read and is not
    empty. *)
Definition hasEmbeddingModel (w : World) : bool :=
  match apiKey w with
  | Some (_ :: _) => true
  | _ => false
  end.

(** The write loop: the chunks in batches of 400, each chunk with its
    index and, when the slice has them, its embedding; a rejected commit
    ends the handler. *)
Equations? writeLoop (docId : jsstring) (chunks : list jsstring) (i : Z)
    (w : World) : World * Outcome
    by wf (Z.to_nat (len chunks - i)) lt :=
  writeLoop docId chunks i w with Z_lt_dec i (len chunks) => {
    | left _ =>
        let batchSize := 400 in
        let slice := JS.slice chunks i (i + batchSize) in
        let embedded :=
          if hasEmbeddingModel w then embedSlice slice 0 (ai w) []
          else (ai w, None) in
        let sliceEmbeddings := snd embedded in
        let batch :=
          mapi (fun text idx =>
                  {| Cloud.chunkId := autoId (nextId w + idx);
                     Cloud.index := i + Z.of_nat idx;
                     Cloud.text := text;
                     Cloud.embedding :=
                       match sliceEmbeddings with
                       | Some embeddings => nth_error embeddings idx
                       | None => None
                       end |})
            slice in
        if commitFails (faults w) i then
          ({| firestore := firestore w; objects := objects w;
              apiKey := apiKey w; ai := fst embedded;
              nextId := nextId w + length slice; faults := faults w |},
           Thrown)
        else
          writeLoop docId chunks (i + batchSize)
            {| firestore := Cloud.addChunks (firestore w) docId batch;
               objects := objects w; apiKey := apiKey w; ai := fst embedded;
               nextId := nextId w + length slice; faults := faults w |}
    | right _ => (w, Returned) }.
Proof. lia. Qed.

Definition withFirestore (w : World) (fs : Cloud.Firestore) : World :=
  {| firestore := fs; objects := objects w; apiKey := apiKey w; ai := ai w;
     nextId := nextId w; faults := faults w |}.

(** The identifier of the document of an object: from the metadata, or
    the file name without its extension. *)
Definition docIdOf (object : StorageObject) : jsstring :=
  let filePath := match ob_name object with Some n => n | None => [] end in
  let fromMetadata :=
    match ob_metadata object with
    | Some metadata => orElse (md_docId metadata) (orElse (md_docid metadata) None)
    | None => None
    end in
  match fromMetadata with
  | Some docId => docId
  | None =>
      let fileName := basename filePath in
      removeFirst fileName (extname fileName)
  end.

Definition processUploadedDocument (object : StorageObject) (w : World)
  : World * Outcome :=
  let bucketName := ob_bucket object in
  let filePath := match ob_name object with Some n => n | None => [] end in
  let contentType :=
    match ob_contentType object with Some c => c | None => [] end in
  let docId := docIdOf object in
  (* [db.collection('documents').doc('')] throws *)
  if isEmpty docId then (w, Thrown)
  else
    let baseFileName := basename filePath in
    let initialData :=
      {| Cloud.status := Some (lit "processing");
         Cloud.filePath := Some filePath;
         Cloud.userId :=
           match ob_metadata object with
           | Some metadata => orElse (md_userId metadata) None
           | None => None
           end;
         Cloud.sessionId :=
           match ob_metadata object with
           | Some metadata => orElse (md_sessionId metadata) None
           | None => None
           end;
         Cloud.fileName := orElse (Some baseFileName) None;
         Cloud.extractedText := None; Cloud.statusMessage := None;
         Cloud.storagePath := None; Cloud.bucket := None;
         Cloud.contentType := None |} in
    if initialSetFails (faults w) then (w, Thrown)
    else
      let w1 := withFirestore w (Cloud.setMerge (firestore w) docId initialData) in
      match (if downloadFails (faults w) then None
             else objects w bucketName filePath) with
      | None => (w1, Thrown)
      | Some file =>
          let ext := toLowerCase (extname (tmpFilePathOf filePath)) in
          let extractedText := fst (extractText ext file) in
          let statusMessage := snd (extractText ext file) in
          let hasText :=
            truthy extractedText && (0 <? len (trim extractedText)) in
          if resultSetFails (faults w) then (w1, Thrown)
          else
            let w2 :=
              withFirestore w1
                (Cloud.setMerge (firestore w1) docId
                   {| Cloud.status :=
                        Some (if hasText then lit "ready" else lit "failed");
                      Cloud.filePath := Some filePath;
                      Cloud.userId := None; Cloud.sessionId := None;
                      Cloud.fileName := None;
                      Cloud.extractedText := Some extractedText;
                      Cloud.statusMessage := orElse (Some statusMessage) None;
                      Cloud.storagePath := Some filePath;
                      Cloud.bucket := Some bucketName;
                      Cloud.contentType := Some contentType |}) in
            if hasText then
              let chunks := chunkTextByWords extractedText 900 120 in
              writeLoop docId chunks 0 w2
            else (w2, Returned)
      end.

End ProcessUploadedDocument.

Arguments firestore {File AI} _.
Arguments objects {File AI} _.
Arguments apiKey {File AI} _.
Arguments ai {File AI} _.
Arguments nextId {File AI} _.
Arguments faults {File AI} _.
Arguments Build_World {File AI} _ _ _ _ _ _.
Arguments withFirestore {File AI} _ _.
Arguments hasEmbeddingModel {File AI} _.

End ProcessUpload.

(* ===================================================================== *)
(** * functions/src/index.ts *)
(* ===================================================================== *)

Module Index.
Import JS.

(** ** chunkTextByWords *)

(** The [for] loop; [step] is computed before the loop in the source and
    does not change. *)
Equations? chunkLoop (words : list jsstring) (targetWords overlapWords : Z)
    (start : Z) : list jsstring
    by wf (Z.to_nat (len words - start)) lt :=
  chunkLoop words targetWords overlapWords start
    with Z_lt_dec start (len words) => {
    | left _ =>
        let step := Z.max 1 (targetWords - Z.max 0 overlapWords) in
        let end_ := Z.min (len words) (start + targetWords) in
        let slice := join (lit " ") (slice words start end_) in
        let pushed := if truthy (trim slice) then [slice] else [] in
        if end_ =? len words then pushed
        else pushed ++ chunkLoop words targetWords overlapWords (start + step)
    | right _ => [] }.
Proof. lia. Qed.

Definition chunkTextByWords (text : jsstring) (targetWords overlapWords : Z)
  : list jsstring :=
  if isEmpty text then []
  else
    let words := filter truthy (split isWhiteSpace text) in
    if len words =? 0 then []
    else chunkLoop words targetWords overlapWords 0.

(** ** cosineSimilarity *)

(** The accumulators [(dotProduct, normA, normB)] of the loop. *)
Fixpoint accumulate (vecA vecB : list float) (acc : float * float * float)
  : float * float * float :=
  match vecA, vecB with
  | a :: vecA', b :: vecB' =>
      let '(dotProduct, normA, normB) := acc in
      accumulate vecA' vecB'
        (dotProduct + a * b, normA + a * a, normB + b * b)%float
  | _, _ => acc
  end.

(** [cosineSimilarity(vecA, vecB)]; an absent vector is [None].  The loop
    runs only on vectors of equal length. *)
Definition cosineSimilarity (vecA vecB : option (list float)) : float :=
  match vecA, vecB with
  | Some a, Some b =>
      if negb (len a =? len b) then 0%float
      else
        let '(dotProduct, normA, normB) :=
          accumulate a b (0, 0, 0)%float in
        if (normA =? 0)%float || (normB =? 0)%float then 0%float
        else (dotProduct / (sqrt normA * sqrt normB))%float
  | _, _ => 0%float
  end.

(** ** prefilterChunks *)

Record Scored := { sc_i : Z; sc_score : Z }.

Section Prefilter.
Variable toLowerCase : jsstring -> jsstring.

(** The [terms] of the question. *)
Definition queryTerms (question : jsstring) : list jsstring :=
  filter (fun t => 2 <? len t)
    (filter truthy (split notLowerAlnum (toLowerCase question))).

(** The [score] of chunk [c]: the loop over the terms. *)
Definition chunkScore (terms : list jsstring) (c : jsstring) : Z :=
  let lc := toLowerCase c in
  fold_left (fun score t => if includes lc t then score + 1 else score)
    terms 0.

(** [(a, b) => b.score - a.score] is positive. *)
Definition byScoreDesc (a b : Scored) : bool := 0 <? sc_score b - sc_score a.

(** [prefilterChunks(question, chunks, cap)].  On strings nothing in the
    [try] block throws, so its [catch] branch is left out. *)
Definition prefilterChunks (question : jsstring) (chunks : list jsstring)
    (cap : Z) : list Z :=
  let terms := queryTerms question in
  let take := Z.min cap (len chunks) in
  if len terms =? 0 then range take
  else
    let scored :=
      mapi (fun c i => {| sc_i := Z.of_nat i; sc_score := chunkScore terms c |})
        chunks in
    let scored := sort byScoreDesc scored in
    let topIdx := map sc_i (slice scored 0 take) in
    let hasSignal :=
      match at_ scored 0 with
      | Some s0 => 0 <? sc_score s0
      | None => false
      end in
    if hasSignal then topIdx else range take.

End Prefilter.

(** ** Dynamic top-K (askQuestion, step 4) *)

(** A number is NaN exactly when it is not [===] to itself. *)
Definition isNaN (x : float) : bool := negb (x =? x)%float.

(** [Math.max(...xs)]: [-Infinity] for no argument, [NaN] as soon as an
    argument is [NaN], and [+0] above [-0]. *)
Fixpoint maxFrom (highest : float) (xs : list float) : float :=
  match xs with
  | [] => highest
  | x :: xs' =>
      if isNaN x then nan
      else
        let highest :=
          match classify x, classify highest with
          | PZero, NZero => x
          | _, _ => highest
          end in
        maxFrom (if (highest <? x)%float then x else highest) xs'
  end.

Definition Math_max (xs : list float) : float := maxFrom neg_infinity xs.

(** [maxSim >= 0.8 ? 2 : (maxSim < 0.6 ? 6 : 4)] *)
Definition dynamicK (maxSim : float) : Z :=
  if (0.8 <=? maxSim)%float then 2
  else if (maxSim <? 0.6)%float then 6 else 4.

Record Sim := { sim_s : float; sim_i : Z }.

(** [(a, b) => b.s - a.s] is positive. *)
Definition bySimDesc (a b : Sim) : bool := (0 <? sim_s b - sim_s a)%float.

(** [sims.map((s, i) => ({ s, i })).sort((a, b) => b.s - a.s)] *)
Definition rankSims (sims : list float) : list Sim :=
  sort bySimDesc (mapi (fun s i => {| sim_s := s; sim_i := Z.of_nat i |}) sims).

(** [topIdx]: the indices of the [k] best candidates. *)
Definition selectTopIdx (sims : list float) : list Z :=
  let maxSim := Math_max sims in
  let k := dynamicK maxSim in
  map sim_i (slice (rankSims sims) 0 k).

(** ** detectRiskyClauses *)

Inductive Risk := HIGH | MEDIUM | LOW.

(** A flagged clause; the display symbol of the source is fixed by [risk]. *)
Record Flagged := { fl_chunkId : jsstring; fl_text : jsstring; fl_risk : Risk }.

Definition HIGH_keywords : list jsstring :=
  [lit "termination"; lit "liability"; lit "penalties"; lit "arbitration"].
Definition MED_keywords : list jsstring :=
  [lit "fees"; lit "renewal"; lit "data sharing"].
Definition LOW_keywords : list jsstring :=
  [lit "definitions"; lit "general information"; lit "general info"].

(** ** The callable's data *)

Inductive ErrorCode :=
  | unauthenticated | invalid_argument | failed_precondition | not_found
  | internal.

Record HttpsError := { code : ErrorCode; message : string }.

Record Request := {
  auth_uid : option jsstring;
  question : option jsstring;
  documentId : option jsstring;
  sessionId : option jsstring;
  remember : bool }.

(** A chunk as [askQuestion] holds it. *)
Record Chunk := {
  id : jsstring;
  index : Z;
  text : jsstring;
  embedding : option (list float) }.

Record Citation := { chunkId : jsstring; snippet : jsstring }.

(** The value returned to the caller ([meta.timeMs], a wall-clock
    difference, is left out). *)
Record Response := {
  answer : jsstring;
  citations : list Citation;
  flaggedClauses : list Flagged;
  followUps : list jsstring;
  topChunkIds : list jsstring }.

(** ** Firestore *)

(** A document of the [chunks] sub-collection, with the fields the code
    reads; a field may be missing. *)
Record ChunkDoc := {
  cd_id : jsstring;
  cd_index : option Z;
  cd_text : option jsstring;
  cd_embedding : option (list float) }.

Record DocumentData := { extractedText : option jsstring }.

Record Message := { sender : jsstring; msg_text : option jsstring }.

(** [documents] gives the data of an existing document; [chunksOf] is the
    result of the [chunks] query ordered by [index]; [messagesOf] the
    messages of a user's session ordered by [timestamp]. *)
Record Firestore := {
  documents : jsstring -> option DocumentData;
  chunksOf : jsstring -> list ChunkDoc;
  messagesOf : jsstring -> jsstring -> list Message }.

(** Which Firestore operations of this call are rejected. *)
Record Faults := {
  documentReadFails : bool;
  chunksReadFails : bool;
  messagesReadFails : bool;
  backfillCommitFails : bool }.

Record BackfillItem := { bf_id : jsstring; bf_values : list float }.

Definition eqbString (a b : jsstring) : bool :=
  if list_eq_dec N.eq_dec a b then true else false.

(** [batch.update(cref, { embedding: item.values })] *)
Definition updateEmbedding (item : BackfillItem) (d : ChunkDoc) : ChunkDoc :=
  if eqbString (cd_id d) (bf_id item)
  then {| cd_id := cd_id d; cd_index := cd_index d; cd_text := cd_text d;
          cd_embedding := Some (bf_values item) |}
  else d.

(** The store after a committed backfill batch on document [documentId]. *)
Definition applyBackfill (fs : Firestore) (documentId : jsstring)
    (toBackfill : list BackfillItem) : Firestore :=
  {| documents := documents fs;
     chunksOf := fun d =>
       if eqbString d documentId
       then fold_left (fun docs item => map (updateEmbedding item) docs)
              toBackfill (chunksOf fs d)
       else chunksOf fs d;
     messagesOf := messagesOf fs |}.

(** ** The generative-language service *)

Inductive TaskType := RETRIEVAL_QUERY | RETRIEVAL_DOCUMENT.

(** What a prompt is made of; the prompt text is a fixed template around
    these values. *)
Inductive Prompt :=
  | SummaryPrompt (historyToSummarize : jsstring)
  | AnswerPrompt (summaryText memoryContext question : jsstring)
      (topChunks : list (jsstring * jsstring))
  | FollowUpPrompt (question answer : jsstring).

Section Orchestrator.

(** [String.prototype.toLowerCase] of the runtime. *)
Variable toLowerCase : jsstring -> jsstring.

(** The service, with a state of its own; [None] is a rejected call. *)
Variable AI : Type.
Variable embedContent : AI -> TaskType -> jsstring -> AI * option (list float).
Variable batchEmbedContents :
  AI -> list jsstring -> AI * option (list (list float)).
Variable generateContent : AI -> Prompt -> AI * option jsstring.

Record World := {
  firestore : Firestore;
  faults : Faults;
  ai : AI;
  apiKey : jsstring }.

(** Computations of the callable: they read and change the world and end
    in a value or in the [HttpsError] thrown to the caller. *)
Definition M (X : Type) : Type := World -> World * (HttpsError + X).

Definition ret {X} (x : X) : M X := fun w => (w, inr x).
Definition throw {X} (c : ErrorCode) (msg : string) : M X :=
  fun w => (w, inl {| code := c; message := msg |}).
Definition bind {X Y} (m : M X) (k : X -> M Y) : M Y :=
  fun w => match m w with
           | (w', inl e) => (w', inl e)
           | (w', inr x) => k x w'
           end.

Notation "x <- m ;; k" := (bind m (fun x => k))
  (at level 61, m at next level, right associativity).
Notation "' p <- m ;; k" := (bind m (fun x => let p := x in k))
  (at level 61, p pattern, m at next level, right associativity).

(** What the outer [catch] makes of an exception that is not an
    [HttpsError]. *)
Definition unexpected {X} : M X :=
  throw internal "An unexpected error occurred while processing your question.".

Definition orUnexpected {X} (o : option X) : M X :=
  match o with Some x => ret x | None => unexpected end.

Definition withAI {X} (call : AI -> AI * X) : M X :=
  fun w =>
    let '(ai', r) := call (ai w) in
    ({| firestore := firestore w; faults := faults w; ai := ai';
        apiKey := apiKey w |}, inr r).

Definition embed (taskType : TaskType) (t : jsstring) : M (list float) :=
  r <- withAI (fun a => embedContent a taskType t) ;; orUnexpected r.

Definition detectRiskyClauses (chunks : list Chunk) : list Flagged :=
  let out :=
    flat_map (fun c =>
      let t := toLowerCase (text c) in
      let matched :=
        if existsb (includes t) HIGH_keywords then Some HIGH
        else if existsb (includes t) MED_keywords then Some MEDIUM
        else if existsb (includes t) LOW_keywords then Some LOW
        else None in
      match matched with
      | Some r => [{| fl_chunkId := id c; fl_text := slice (text c) 0 400;
                      fl_risk := r |}]
      | None => []
      end) chunks in
  slice out 0 8.

(** *** Step 2: precomputed chunks, or the extracted text split on the fly *)

Definition storedChunk (d : ChunkDoc) : Chunk :=
  {| id := cd_id d;
     index := match cd_index d with Some i => i | None => 0 end;
     text := match cd_text d with Some t => t | None => [] end;
     embedding := cd_embedding d |}.

Definition fallbackChunk (t : jsstring) (i : nat) : Chunk :=
  {| id := lit "fallback_" ++ decimal i; index := Z.of_nat i; text := t;
     embedding := None |}.

Definition loadChunks (documentId : jsstring) (documentData : DocumentData)
  : M (list Chunk) :=
  fun w =>
    if chunksReadFails (faults w) then unexpected w
    else
      let chunksSnap := chunksOf (firestore w) documentId in
      if negb (isEmpty chunksSnap) then ret (map storedChunk chunksSnap) w
      else
        let documentText :=
          match extractedText documentData with Some t => t | None => [] end in
        if negb (truthy documentText) || negb (truthy (trim documentText))
        then throw failed_precondition
               "Document has no extracted text yet. Please try again later." w
        else
          let fallback := chunkTextByWords documentText 900 120 in
          ret (mapi fallbackChunk fallback) w.

(** *** Step 3: conversation memory *)

(** One turn of the conversation, as [User: ...] or [Assistant: ...]. *)
Definition turnOf (m : Message) : jsstring :=
  (if eqbString (sender m) (lit "user") then lit "User" else lit "Assistant")
  ++ lit ": " ++ match msg_text m with Some t => t | None => [] end.

Definition conversationMemory (userId : jsstring) (request : Request)
  : M (jsstring * jsstring) :=
  match remember request, sessionId request with
  | true, Some ((_ :: _) as session) =>
      fun w =>
        if messagesReadFails (faults w) then unexpected w
        else
          let turns := map turnOf (messagesOf (firestore w) userId session) in
          let memoryContext :=
            if 0 <? len turns
            then join [10%N] (slice turns (-3) (len turns)) else [] in
          if 6 <? len turns then
            let historyToSummarize := join [10%N] (slice turns 0 (-3)) in
            (r <- withAI (fun a =>
                   generateContent a (SummaryPrompt historyToSummarize)) ;;
             ret (memoryContext, match r with Some t => t | None => [] end)) w
          else ret (memoryContext, []) w
  | _, _ => ret ([], [])
  end.

(** *** findRelevantChunks *)

(** [!known || !Array.isArray(known) || known.length !== dim] *)
Definition needsEmbedding (dim : Z) (known : option (list float)) : bool :=
  match known with
  | Some v => negb (len v =? dim)
  | None => true
  end.

Definition findRelevantChunks (question : jsstring) (chunks : list jsstring)
    (knownEmbeddings : list (option (list float))) : M (list jsstring) :=
  questionEmbedding <- embed RETRIEVAL_QUERY question ;;
  let known i := match at_ knownEmbeddings i with Some k => k | None => None end in
  let missingIndices :=
    filter (fun i => needsEmbedding (len questionEmbedding) (known i))
      (range (len chunks)) in
  computed <-
    (if 0 <? len missingIndices then
       r <- withAI (fun a =>
              batchEmbedContents a
                (map (fun i => match at_ chunks i with
                               | Some c => c | None => [] end)
                   missingIndices)) ;;
       orUnexpected r
     else ret []) ;;
  let computedMap := combine missingIndices computed in
  let lookup i :=
    fold_left (fun r kv => if fst kv =? i then Some (snd kv) else r)
      computedMap None in
  let embeddings :=
    map (fun i => match known i with Some k => Some k | None => lookup i end)
      (range (len chunks)) in
  let similarities :=
    map (fun e => cosineSimilarity (Some questionEmbedding) e) embeddings in
  let topIndices :=
    map sim_i (slice (rankSims similarities) 0 4) in
  ret (flat_map (fun i => match at_ chunks i with
                          | Some c => [c] | None => [] end) topIndices).

(** *** Step 4: embeddings of the prefiltered chunks and their backfill *)

Fixpoint embedFiltered (targetDim : Z) (filtered : list Chunk)
  : M (list (list float) * list BackfillItem) :=
  match filtered with
  | [] => ret ([], [])
  | c :: rest =>
      match embedding c with
      | Some known =>
          if len known =? targetDim then
            '(filteredComputed, toBackfill) <- embedFiltered targetDim rest ;;
            ret (known :: filteredComputed, toBackfill)
          else
            vals <- embed RETRIEVAL_DOCUMENT (text c) ;;
            '(filteredComputed, toBackfill) <- embedFiltered targetDim rest ;;
            ret (vals :: filteredComputed,
                 if negb (startsWith (id c) (lit "fallback_"))
                 then {| bf_id := id c; bf_values := vals |} :: toBackfill
                 else toBackfill)
      | None =>
          vals <- embed RETRIEVAL_DOCUMENT (text c) ;;
          '(filteredComputed, toBackfill) <- embedFiltered targetDim rest ;;
          ret (vals :: filteredComputed,
               if negb (startsWith (id c) (lit "fallback_"))
               then {| bf_id := id c; bf_values := vals |} :: toBackfill
               else toBackfill)
      end
  end.

(** The backfill batch: a rejected commit is logged and swallowed. *)
Definition backfill (documentId : jsstring) (toBackfill : list BackfillItem)
  : M unit :=
  fun w =>
    if 0 <? len toBackfill then
      if backfillCommitFails (faults w) then (w, inr tt)
      else ({| firestore := applyBackfill (firestore w) documentId toBackfill;
               faults := faults w; ai := ai w; apiKey := apiKey w |}, inr tt)
    else (w, inr tt).

(** [arr.map((i) => xs[i])] followed by a property access on each
    element: an index outside [xs] ends in a TypeError. *)
Fixpoint pick {X} (xs : list X) (idx : list Z) : M (list X) :=
  match idx with
  | [] => ret []
  | i :: idx' =>
      x <- orUnexpected (at_ xs i) ;;
      rest <- pick xs idx' ;;
      ret (x :: rest)
  end.

(** *** Step 6: follow-up questions *)

Definition isBullet (c : N) : bool :=
  ((c =? 45) || (c =? 42) || (c =? 46) || (48 <=? c) && (c <=? 57))%N
  || isWhiteSpace c.

Definition followUpsOf (question answer : jsstring) : M (list jsstring) :=
  r <- withAI (fun a => generateContent a (FollowUpPrompt question answer)) ;;
  ret match r with
      | Some fuText =>
          slice (filter truthy
                   (map (fun l => trim (dropWhile isBullet l))
                      (split (fun c => (c =? 10)%N) fuText))) 0 2
      | None => []
      end.

(** *** The body of the [try] block *)

Definition answerFromDocument (userId question documentId : jsstring)
    (request : Request) : M Response :=
  doc <- (fun w => if documentReadFails (faults w) then unexpected w
                   else ret (documents (firestore w) documentId) w) ;;
  match doc with
  | None => throw not_found "Document not found"
  | Some documentData =>
      chunks <- loadChunks documentId documentData ;;
      '(memoryContext, summaryText) <- conversationMemory userId request ;;
      let prefilteredIdx :=
        prefilterChunks toLowerCase question (map text chunks) 60 in
      filtered <- pick chunks prefilteredIdx ;;
      let filteredTexts := map text filtered in
      let filteredEmbeddings := map embedding filtered in
      _ <- findRelevantChunks question filteredTexts filteredEmbeddings ;;
      qEmbedding <- embed RETRIEVAL_QUERY question ;;
      let targetDim := len qEmbedding in
      '(filteredComputed, toBackfill) <- embedFiltered targetDim filtered ;;
      _ <- backfill documentId toBackfill ;;
      let sims :=
        map (fun e => cosineSimilarity (Some qEmbedding) (Some e))
          filteredComputed in
      let topIdx := selectTopIdx sims in
      topChunks <- pick filtered topIdx ;;
      r <- withAI (fun a =>
             generateContent a
               (AnswerPrompt summaryText memoryContext question
                  (map (fun c => (id c, text c)) topChunks))) ;;
      answer <- orUnexpected r ;;
      let citations :=
        map (fun c => {| chunkId := id c; snippet := slice (text c) 0 200 |})
          topChunks in
      let flaggedClauses := detectRiskyClauses topChunks in
      followUps <- followUpsOf question answer ;;
      ret {| answer := answer; citations := citations;
             flaggedClauses := flaggedClauses; followUps := followUps;
             topChunkIds := map id topChunks |}
  end.

(** [!s || !s.trim()] does not hold. *)
Definition nonBlank (s : option jsstring) : option jsstring :=
  match s with
  | Some s => if truthy s && truthy (trim s) then Some s else None
  | None => None
  end.

(** [askQuestion]: the checks before the [try] block, then its body. *)
Definition askQuestion (request : Request) : M Response :=
  match auth_uid request with
  | Some ((_ :: _) as userId) =>
      match nonBlank (question request) with
      | Some question =>
          match nonBlank (documentId request) with
          | Some documentId =>
              fun w =>
                if isEmpty (apiKey w) then
                  throw failed_precondition
                    "Gemini API key not configured. Run 'firebase functions:secrets:set GEMINI_API_KEY' and deploy."
                    w
                else answerFromDocument userId question documentId request w
          | None => throw invalid_argument "documentId is required."
          end
      | None => throw invalid_argument "Question is required."
      end
  | _ => throw unauthenticated "You must be signed in to ask a question."
  end.

End Orchestrator.

Arguments firestore {AI} _.
Arguments faults {AI} _.
Arguments ai {AI} _.
Arguments apiKey {AI} _.
Arguments Build_World {AI} _ _ _ _.
Arguments ret {AI X} _ _.
Arguments throw {AI X} _ _ _.
Arguments bind {AI X Y} _ _ _.
Arguments unexpected {AI X} _.
Arguments orUnexpected {AI X} _ _.
Arguments withAI {AI X} _ _.
Arguments pick {AI X} _ _ _.
Arguments embed {AI} _ _ _ _.
Arguments loadChunks {AI} _ _ _.
Arguments conversationMemory {AI} _ _ _ _.
Arguments findRelevantChunks {AI} _ _ _ _ _ _.
Arguments embedFiltered {AI} _ _ _ _.
Arguments backfill {AI} _ _ _.
Arguments followUpsOf {AI} _ _ _ _.
Arguments answerFromDocument _ {AI} _ _ _ _ _ _ _ _.
Arguments askQuestion _ {AI} _ _ _ _ _.

End Index.

(* ===================================================================== *)
(** * functions/src/index.ts: deleteFile *)
(* ===================================================================== *)

Module DeleteFile.
Import JS.

Inductive ErrorCode :=
  | unauthenticated | invalid_argument | not_found | permission_denied.

Record HttpsError := { code : ErrorCode; message : string }.

(** What the callable throws: an [HttpsError] of its own, or the
    rejection of a Firestore call that no [try] surrounds. *)
Inductive Thrown := Https (e : HttpsError) | Rejected.

Record Deleted := { success : bool }.

(** Which of the awaited operations are rejected.  The document read
    stands also for the document reference [doc(documentId)], which the
    SDK refuses for an identifier that is not a document path. *)
Record Faults := {
  documentReadFails : bool;
  objectDeleteFails : bool;
  chunksReadFails : bool;
  chunksCommitFails : bool;
  documentDeleteFails : bool }.

Section DeleteFile.
Variable File : Type.

(** [defaultBucket] is the name of the bucket that
    [admin.storage().bucket()] gives. *)
Record World := {
  firestore : Cloud.Firestore;
  objects : Cloud.Storage File;
  defaultBucket : jsstring;
  faults : Faults }.

Definition throw (c : ErrorCode) (msg : string) (w : World)
  : World * (Thrown + Deleted) :=
  (w, inl (Https {| code := c; message := msg |})).

Definition deleteFile (request : Index.Request) (w : World)
  : World * (Thrown + Deleted) :=
  match orElse (Index.auth_uid request) None with
  | None => throw unauthenticated "Sign in required" w
  | Some userId =>
      match orElse (Index.documentId request) None with
      | None => throw invalid_argument "documentId is required" w
      | Some documentId =>
          if documentReadFails (faults w) then (w, inl Rejected)
          else
            match Cloud.documents (firestore w) documentId with
            | None => throw not_found "Document not found" w
            | Some data =>
                let notOwner :=
                  match orElse (Cloud.userId data) None with
                  | Some owner => negb (strictEquals owner userId)
                  | None => false
                  end in
                if notOwner then throw permission_denied "Not your document" w
                else
                  let bucketName := orElse (Cloud.bucket data) None in
                  let storagePath :=
                    orElse (Cloud.storagePath data)
                      (orElse (Cloud.filePath data) None) in
                  (* the Storage file; a failure is logged *)
                  let objects1 :=
                    match storagePath with
                    | Some path =>
                        if objectDeleteFails (faults w) then objects w
                        else
                          Cloud.deleteObject (objects w)
                            match bucketName with
                            | Some b => b
                            | None => defaultBucket w
                            end
                            path
                    | None => objects w
                    end in
                  (* the chunks; a failure is logged *)
                  let firestore1 :=
                    if chunksReadFails (faults w) then firestore w
                    else if isEmpty (Cloud.chunks (firestore w) documentId)
                    then firestore w
                    else if chunksCommitFails (faults w) then firestore w
                    else Cloud.deleteChunks (firestore w) documentId in
                  (* the main document *)
                  if documentDeleteFails (faults w) then
                    ({| firestore := firestore1; objects := objects1;
                        defaultBucket := defaultBucket w; faults := faults w |},
                     inl Rejected)
                  else
                    ({| firestore := Cloud.deleteDocument firestore1 documentId;
                        objects := objects1;
                        defaultBucket := defaultBucket w; faults := faults w |},
                     inr {| success := true |})
            end
      end
  end.

End DeleteFile.

Arguments firestore {File} _.
Arguments objects {File} _.
Arguments defaultBucket {File} _.
Arguments faults {File} _.
Arguments Build_World {File} _ _ _ _.
Arguments throw {File} _ _ _.
Arguments deleteFile {File} _ _.

End DeleteFile.

(* ===================================================================== *)
(** * Vocabulary of the statements *)
(* ===================================================================== *)

Import JS.

(** The word sequence of a text: [text.split(/\s+/).filter(Boolean)]. *)
Definition wordsOf (text : jsstring) : list jsstring :=
  filter truthy (split isWhiteSpace text).

(** The iterations of the loop of [chunkTextByWords], as the windows
    [(start, end)] it visits over [n] words: the control flow of the
    loop, without the chunks. *)
Equations? windows (n targetWords overlapWords : Z) (start : Z)
    : list (Z * Z) by wf (Z.to_nat (n - start)) lt :=
  windows n targetWords overlapWords start with Z_lt_dec start n => {
    | left _ =>
        let step := Z.max 1 (targetWords - Z.max 0 overlapWords) in
        let end_ := Z.min n (start + targetWords) in
        if end_ =? n then [(start, end_)]
        else (start, end_) :: windows n targetWords overlapWords (start + step)
    | right _ => [] }.
Proof. lia. Qed.

(** A word: not empty, and free of whitespace. *)
Definition isWord (w : jsstring) : Prop :=
  w <> [] /\ forallb (fun c => negb (isWhiteSpace c)) w = true.

(** The words of a window joined by single spaces. *)
Definition windowText (words : list jsstring) (w : Z * Z) : jsstring :=
  join (lit " ") (slice words (fst w) (snd w)).

(** What one iteration of the chunking loop pushes. *)
Definition chunkOfWindow (words : list jsstring) (w : Z * Z) : list jsstring :=
  if truthy (trim (windowText words w)) then [windowText words w] else [].

(** [toLowerCase] on ASCII text: [A-Z] to [a-z], anything else kept. *)
Definition asciiLower (s : jsstring) : jsstring :=
  map (fun c => if ((65 <=? c) && (c <=? 90))%N then (c + 32)%N else c) s.

(** The score of a chunk in the words of the specification: how many
    distinct query terms occur in the lowercased chunk text. *)
Definition distinctTermScore (toLowerCase : jsstring -> jsstring)
    (terms : list jsstring) (c : jsstring) : Z :=
  len (filter (includes (toLowerCase c)) (nodup (list_eq_dec N.eq_dec) terms)).

(** Descending by lexical score. *)
Definition scoreDesc (a b : Index.Scored) : Prop :=
  Index.sc_score b <= Index.sc_score a.

(** The error of a document that has no usable text yet. *)
Definition documentNotReady : Index.HttpsError :=
  {| Index.code := Index.failed_precondition;
     Index.message :=
       "Document has no extracted text yet. Please try again later." |}.

(** Absent, or made of whitespace only. *)
Definition isBlank (t : option jsstring) : Prop :=
  match t with
  | Some t => forallb isWhiteSpace t = true
  | None => True
  end.

(** An identifier of an ephemeral fallback chunk. *)
Definition isFallbackId (i : jsstring) : bool := startsWith i (lit "fallback_").






(** A step that, when it throws, throws the [internal] error. *)
Definition ThrowsInternal {AI X} (m : Index.M AI X) : Prop :=
  forall w w' e, m w = (w', inl e) -> Index.code e = Index.internal.

(** *** A world for the examples *)

(** A service that counts its calls in its state and always answers. *)
Definition sampleEmbed (a : nat) (taskType : Index.TaskType) (t : jsstring)
  : nat * option (list float) :=
  (S a, Some match taskType with
             | Index.RETRIEVAL_QUERY => [1; 0]%float
             | Index.RETRIEVAL_DOCUMENT => [1; 1]%float
             end).

Definition sampleBatch (a : nat) (ts : list jsstring)
  : nat * option (list (list float)) :=
  (S a, Some (map (fun _ => [1; 1]%float) ts)).

Definition sampleGenerate (a : nat) (p : Index.Prompt)
  : nat * option jsstring :=
  (S a, Some (lit "1. Which fee?" ++ [10%N] ++ lit "- Since when?")).

(** One document, [doc1], with the given chunk records and extracted
    text; no fault. *)
Definition sampleWorld (stored : list Index.ChunkDoc) (text : option jsstring)
  : Index.World nat :=
  {| Index.firestore :=
       {| Index.documents := fun d =>
            if Index.eqbString d (lit "doc1")
            then Some {| Index.extractedText := text |} else None;
          Index.chunksOf := fun d =>
            if Index.eqbString d (lit "doc1") then stored else [];
          Index.messagesOf := fun _ _ => [] |};
     Index.faults :=
       {| Index.documentReadFails := false; Index.chunksReadFails := false;
          Index.messagesReadFails := false;
          Index.backfillCommitFails := false |};
     Index.ai := 0%nat;
     Index.apiKey := lit "key" |}.

Definition sampleStored : list Index.ChunkDoc :=
  [ {| Index.cd_id := lit "c1"; Index.cd_index := Some 0;
       Index.cd_text := Some (lit "A late penalty applies");
       Index.cd_embedding := None |};
    {| Index.cd_id := lit "c2"; Index.cd_index := Some 1;
       Index.cd_text := Some (lit "Fees are due monthly");
       Index.cd_embedding := Some [1; 0]%float |};
    {| Index.cd_id := lit "c3"; Index.cd_index := Some 2;
       Index.cd_text := Some (lit "General information");
       Index.cd_embedding := Some [0; 1]%float |} ].

Definition sampleRequest : Index.Request :=
  {| Index.auth_uid := Some (lit "u1");
     Index.question := Some (lit "What is the penalty?");
     Index.documentId := Some (lit "doc1");
     Index.sessionId := None;
     Index.remember := false |}.

Definition sampleAsk (w : Index.World nat)
  : Index.World nat * (Index.HttpsError + Index.Response) :=
  Index.askQuestion asciiLower sampleEmbed sampleBatch sampleGenerate
    sampleRequest w.

(** The order of the numbers that are not NaN, as a lexicographic order
    on integer triples: class, then exponent, then mantissa. *)
Definition sfKey (x : spec_float) : Z * Z * Z :=
  match x with
  | S754_nan => (0, 0, 0)
  | S754_zero _ => (0, 0, 0)
  | S754_infinity s => (if s then -2 else 2, 0, 0)
  | S754_finite false m e => (1, e, Zpos m)
  | S754_finite true m e => (-1, - e, Zneg m)
  end.

Definition lexCompare (a b : Z * Z * Z) : comparison :=
  match fst (fst a) ?= fst (fst b) with
  | Eq => match snd (fst a) ?= snd (fst b) with
          | Eq => snd a ?= snd b
          | c => c
          end
  | c => c
  end.

Definition lexLt (a b : Z * Z * Z) : Prop :=
  fst (fst a) < fst (fst b) \/
  fst (fst a) = fst (fst b) /\
  (snd (fst a) < snd (fst b) \/ snd (fst a) = snd (fst b) /\ snd a < snd b).

Definition notNaN (x : float) : Prop := Prim2SF x <> S754_nan.

(** Strictly above zero. *)
Definition isPositive (x : spec_float) : bool :=
  match x with
  | S754_finite false _ _ | S754_infinity false => true
  | _ => false
  end.

(** Descending by similarity. *)
Definition simDesc (a b : Index.Sim) : Prop :=
  (Index.sim_s b <=? Index.sim_s a)%float = true.


(** The dot product as [cosineSimilarity] accumulates it. *)
Definition dotProduct (a b : list float) : float :=
  fold_left (fun acc p => (acc + fst p * snd p)%float) (combine a b) 0%float.


(** [sel] is part of [xs]: its entries are entries of [xs], none of them
    used twice. *)
Definition partOf {A} (sel xs : list A) : Prop :=
  exists rest, Permutation (sel ++ rest) xs.

(** Some keyword of the list occurs in the lowercased text of the chunk. *)
Definition mentions (toLowerCase : jsstring -> jsstring)
    (keywords : list jsstring) (c : Index.Chunk) : bool :=
  existsb (includes (toLowerCase (Index.text c))) keywords.

Definition allKeywords : list jsstring :=
  Index.HIGH_keywords ++ Index.MED_keywords ++ Index.LOW_keywords.

(** [f] is the flag of chunk [c]: its identifier, the first 400 code
    units of its text, and the highest category it mentions. *)
Definition flagOf (toLowerCase : jsstring -> jsstring)
    (f : Index.Flagged) (c : Index.Chunk) : Prop :=
  Index.fl_chunkId f = Index.id c /\
  Index.fl_text f = firstn 400 (Index.text c) /\
  (Index.fl_risk f = Index.HIGH
   <-> mentions toLowerCase Index.HIGH_keywords c = true) /\
  (Index.fl_risk f = Index.MEDIUM
   <-> mentions toLowerCase Index.HIGH_keywords c = false /\
       mentions toLowerCase Index.MED_keywords c = true) /\
  (Index.fl_risk f = Index.LOW
   <-> mentions toLowerCase Index.HIGH_keywords c = false /\
       mentions toLowerCase Index.MED_keywords c = false).

(** A follow-up question as it is shown: not empty, no list marker or
    whitespace in front, no whitespace at the end. *)
Definition cleanLine (q : jsstring) : Prop :=
  match q with
  | [] => False
  | c :: _ => Index.isBullet c = false
  end /\ trim q = q.

(** The citation of a chunk. *)
Definition citationOf (c : Index.Chunk) : Index.Citation :=
  {| Index.chunkId := Index.id c;
     Index.snippet := firstn 200 (Index.text c) |}.


(** The caller is signed in: the request carries a user identifier. *)
Definition signedIn (request : Index.Request) : Prop :=
  exists u, Index.auth_uid request = Some u /\ u <> [].

Section Causes.
Context {AI : Type}.

(** Why a call is rejected. *)
Inductive Cause (request : Index.Request) (w : Index.World AI) : Index.ErrorCode -> Prop :=
  | NotSignedIn :
      ~ signedIn request -> Cause request w Index.unauthenticated
  | BlankArgument :
      signedIn request ->
      isBlank (Index.question request) \/ isBlank (Index.documentId request) ->
      Cause request w Index.invalid_argument
  | NoApiKey :
      signedIn request -> ~ isBlank (Index.question request) ->
      ~ isBlank (Index.documentId request) -> Index.apiKey w = [] ->
      Cause request w Index.failed_precondition
  | NoDocument d :
      signedIn request -> ~ isBlank (Index.question request) ->
      ~ isBlank (Index.documentId request) -> Index.apiKey w <> [] ->
      Index.documentReadFails (Index.faults w) = false ->
      Index.documentId request = Some d ->
      Index.documents (Index.firestore w) d = None ->
      Cause request w Index.not_found
  | NoText d documentData :
      signedIn request -> ~ isBlank (Index.question request) ->
      ~ isBlank (Index.documentId request) -> Index.apiKey w <> [] ->
      Index.documentReadFails (Index.faults w) = false ->
      Index.chunksReadFails (Index.faults w) = false ->
      Index.documentId request = Some d ->
      Index.documents (Index.firestore w) d = Some documentData ->
      Index.chunksOf (Index.firestore w) d = [] ->
      isBlank (Index.extractedText documentData) ->
      Cause request w Index.failed_precondition
  | Unexpected :
      signedIn request -> ~ isBlank (Index.question request) ->
      ~ isBlank (Index.documentId request) -> Index.apiKey w <> [] ->
      (Index.documentReadFails (Index.faults w) = true \/
       exists d documentData,
         Index.documentId request = Some d /\
         Index.documents (Index.firestore w) d = Some documentData /\
         (Index.chunksReadFails (Index.faults w) = true \/
          Index.chunksOf (Index.firestore w) d <> [] \/
          ~ isBlank (Index.extractedText documentData))) ->
      Cause request w Index.internal.

End Causes.

(** What a chunk record says, apart from its vector. *)
Definition chunkContent (d : Index.ChunkDoc)
  : jsstring * option Z * option jsstring :=
  (Index.cd_id d, Index.cd_index d, Index.cd_text d).

(** From [w] to [w'] nothing changed but the service and the vectors of
    the chunk records of document [documentId]. *)
Definition VectorsOnly {AI} (documentId : jsstring) (w w' : Index.World AI)
  : Prop :=
  Index.faults w' = Index.faults w /\
  Index.apiKey w' = Index.apiKey w /\
  Index.documents (Index.firestore w') = Index.documents (Index.firestore w) /\
  Index.messagesOf (Index.firestore w') = Index.messagesOf (Index.firestore w) /\
  (forall d, map chunkContent (Index.chunksOf (Index.firestore w') d)
             = map chunkContent (Index.chunksOf (Index.firestore w) d)) /\
  (forall d, d <> documentId ->
             Index.chunksOf (Index.firestore w') d
             = Index.chunksOf (Index.firestore w) d).

(** A step that keeps to that. *)
Definition Framed {AI X} (documentId : jsstring) (m : Index.M AI X) : Prop :=
  forall w, VectorsOnly documentId w (fst (m w)).

(** A step that leaves the store, the faults and the key as they are. *)
Definition StoreKept {AI X} (m : Index.M AI X) : Prop :=
  forall w,
    Index.firestore (fst (m w)) = Index.firestore w /\
    Index.faults (fst (m w)) = Index.faults w /\
    Index.apiKey (fst (m w)) = Index.apiKey w.

(** The request asks for conversation memory: [remember && sessionId]. *)
Definition wantsMemory (request : Index.Request) (session : jsstring) : Prop :=
  Index.remember request = true /\
  Index.sessionId request = Some session /\ session <> [].

(** The distance between the starts of two consecutive windows. *)
Definition stepOf (targetWords overlapWords : Z) : Z :=
  Z.max 1 (targetWords - Z.max 0 overlapWords).

(** The words of positions [s] to [e - 1]. *)
Definition wordsBetween (words : list jsstring) (s e : Z) : list jsstring :=
  firstn (Z.to_nat (e - s)) (skipn (Z.to_nat s) words).

(** The request names a document. *)
Definition namesDocument (request : Index.Request) : Prop :=
  exists d, Index.documentId request = Some d /\ d <> [].



(** No operation of [deleteFile] is rejected. *)
Definition noDeleteFault (f : DeleteFile.Faults) : Prop :=
  DeleteFile.documentReadFails f = false /\
  DeleteFile.objectDeleteFails f = false /\
  DeleteFile.chunksReadFails f = false /\
  DeleteFile.chunksCommitFails f = false /\
  DeleteFile.documentDeleteFails f = false.

(** The path of the object, [object.name || '']. *)
Definition objectPath (object : ProcessUpload.StorageObject) : jsstring :=
  match ProcessUpload.ob_name object with Some n => n | None => [] end.

(** The index and the text that a chunk record holds. *)
Definition asWrite (c : Cloud.Chunk) : ProcessUpload.ChunkWrite :=
  {| ProcessUpload.cw_index := Cloud.index c;
     ProcessUpload.cw_text := Cloud.text c |}.

(** The batch commit that starts at chunk [k] is one of the commits of
    the write loop over [n] chunks, and it is rejected. *)
Definition rejectedCommit (commitFails : Z -> bool) (n k : Z) : Prop :=
  0 <= k < n /\ k mod 400 = 0 /\ commitFails k = true.

Section UploadBatches.
Variable File : Type.
Variable AI : Type.
Variable batchEmbedContents :
  AI -> list jsstring -> AI * option (list (list float)).
Variable autoId : nat -> jsstring.

Local Abbreviation World := (ProcessUpload.World File AI).
Local Abbreviation embedSlice := (ProcessUpload.embedSlice AI batchEmbedContents).

(** The records of the batch that starts at chunk [i]. *)
Definition batchAt (chunks : list jsstring) (i : Z) (w : World)
  : list Cloud.Chunk :=
  let slice := slice chunks i (i + 400) in
  let sliceEmbeddings :=
    snd (if ProcessUpload.hasEmbeddingModel w then embedSlice slice 0 (ProcessUpload.ai w) []
         else (ProcessUpload.ai w, None)) in
  mapi (fun text idx =>
          {| Cloud.chunkId := autoId (ProcessUpload.nextId w + idx);
             Cloud.index := i + Z.of_nat idx;
             Cloud.text := text;
             Cloud.embedding :=
               match sliceEmbeddings with
               | Some embeddings => nth_error embeddings idx
               | None => None
               end |})
    slice.

(** The world after the batch that starts at chunk [i]. *)
Definition afterBatch (docId : jsstring) (chunks : list jsstring) (i : Z)
    (w : World) (committed : bool) : World :=
  let slice := slice chunks i (i + 400) in
  {| ProcessUpload.firestore :=
       if committed
       then Cloud.addChunks (ProcessUpload.firestore w) docId (batchAt chunks i w)
       else ProcessUpload.firestore w;
     ProcessUpload.objects := ProcessUpload.objects w;
     ProcessUpload.apiKey := ProcessUpload.apiKey w;
     ProcessUpload.ai :=
       fst (if ProcessUpload.hasEmbeddingModel w
            then embedSlice slice 0 (ProcessUpload.ai w) []
            else (ProcessUpload.ai w, None));
     ProcessUpload.nextId := (ProcessUpload.nextId w + length slice)%nat;
     ProcessUpload.faults := ProcessUpload.faults w |}.

End UploadBatches.


(** A chunk record and a document as [askQuestion] reads them. *)
Definition asChunkDoc (c : Cloud.Chunk) : Index.ChunkDoc :=
  {| Index.cd_id := Cloud.chunkId c;
     Index.cd_index := Some (Cloud.index c);
     Index.cd_text := Some (Cloud.text c);
     Index.cd_embedding := Cloud.embedding c |}.

Definition asDocumentData (doc : Cloud.Document) : Index.DocumentData :=
  {| Index.extractedText := Cloud.extractedText doc |}.

(** [view] is what [askQuestion] reads of the store [fs]: the documents
    of [fs], and under each document its chunk records in some order (the
    order of the [index] query). *)
Definition Serves (fs : Cloud.Firestore) (view : Index.Firestore) : Prop :=
  (forall d, Index.documents view d
             = option_map asDocumentData (Cloud.documents fs d)) /\
  (forall d, Permutation (Index.chunksOf view d)
               (map asChunkDoc (Cloud.chunks fs d))).

Definition documentNotFound : Index.HttpsError :=
  {| Index.code := Index.not_found; Index.message := "Document not found" |}.

(** ** Sample values of the worked examples *)

(** [askQuestion]'s view of a store: the documents by their extracted
    text, the chunk records in the order they were written, no message. *)
Definition viewOf (fs : Cloud.Firestore) : Index.Firestore :=
  {| Index.documents := fun d =>
       option_map asDocumentData (Cloud.documents fs d);
     Index.chunksOf := fun d => map asChunkDoc (Cloud.chunks fs d);
     Index.messagesOf := fun _ _ => [] |}.

(** A world of [askQuestion] over a store, with no fault. *)
Definition sampleViewWorld (fs : Cloud.Firestore) : Index.World nat :=
  {| Index.firestore := viewOf fs;
     Index.faults :=
       {| Index.documentReadFails := false; Index.chunksReadFails := false;
          Index.messagesReadFails := false;
          Index.backfillCommitFails := false |};
     Index.ai := 0%nat;
     Index.apiKey := lit "key" |}.

(** A session of [n] turns, and a request that asks to remember it. *)
Definition sampleChatWorld (n : nat) : Index.World nat :=
  {| Index.firestore :=
       {| Index.documents := fun _ => None;
          Index.chunksOf := fun _ => [];
          Index.messagesOf := fun _ _ =>
            repeat {| Index.sender := lit "user";
                      Index.msg_text := Some (lit "hi") |} n |};
     Index.faults :=
       {| Index.documentReadFails := false; Index.chunksReadFails := false;
          Index.messagesReadFails := false;
          Index.backfillCommitFails := false |};
     Index.ai := 0%nat;
     Index.apiKey := lit "key" |}.

Definition sampleChatRequest : Index.Request :=
  {| Index.auth_uid := Some (lit "u1");
     Index.question := Some (lit "What is the penalty?");
     Index.documentId := Some (lit "doc1");
     Index.sessionId := Some (lit "s1");
     Index.remember := true |}.

(** [path.basename], [path.extname] and the temporary path, for the
    paths of the examples: the part after the last slash, and its part
    from the last dot on. *)
Definition sampleBasename (p : jsstring) : jsstring :=
  last (split (fun c => (c =? 47)%N) p) [].

Definition sampleExtname (p : jsstring) : jsstring :=
  match split (fun c => (c =? 46)%N) (sampleBasename p) with
  | _ :: (_ :: _) as parts => lit "." ++ last parts []
  | _ => []
  end.

Definition sampleTmpPath (p : jsstring) : jsstring :=
  lit "/tmp/" ++ sampleBasename p.

(** The objects are their text; the PDF reader throws, the other two
    give the text. *)
Definition samplePdfParse (file : jsstring) : option jsstring := None.
Definition sampleRawText (file : jsstring) : option jsstring := Some file.
Definition sampleReadFile (file : jsstring) : option jsstring := Some file.

Definition sampleAutoId (n : nat) : jsstring := lit "chunk" ++ decimal n.

(** The object [documents/doc1/notes.txt] of [bucket1], uploaded by
    [u1] for the document [doc1]. *)
Definition sampleObject : ProcessUpload.StorageObject :=
  {| ProcessUpload.ob_bucket := lit "bucket1";
     ProcessUpload.ob_name := Some (lit "documents/doc1/notes.txt");
     ProcessUpload.ob_contentType := Some (lit "text/plain");
     ProcessUpload.ob_metadata :=
       Some {| ProcessUpload.md_docId := Some (lit "doc1");
               ProcessUpload.md_docid := None;
               ProcessUpload.md_userId := Some (lit "u1");
               ProcessUpload.md_sessionId := None |} |}.

(** An empty store, the object with the given text, the API key set and
    no fault. *)
Definition sampleUploadWorld (content : jsstring)
  : ProcessUpload.World jsstring nat :=
  {| ProcessUpload.firestore :=
       {| Cloud.documents := fun _ => None; Cloud.chunks := fun _ => [] |};
     ProcessUpload.objects := fun b p =>
       if strictEquals b (lit "bucket1")
          && strictEquals p (lit "documents/doc1/notes.txt")
       then Some content else None;
     ProcessUpload.apiKey := Some (lit "key");
     ProcessUpload.ai := 0%nat;
     ProcessUpload.nextId := 0%nat;
     ProcessUpload.faults :=
       {| ProcessUpload.initialSetFails := false;
          ProcessUpload.downloadFails := false;
          ProcessUpload.resultSetFails := false;
          ProcessUpload.commitFails := fun _ => false |} |}.

Definition sampleUpload (content : jsstring)
  : ProcessUpload.World jsstring nat * ProcessUpload.Outcome :=
  ProcessUpload.processUploadedDocument sampleBasename sampleExtname
    sampleTmpPath asciiLower jsstring samplePdfParse sampleRawText
    sampleReadFile nat sampleBatch sampleAutoId sampleObject
    (sampleUploadWorld content).

(** The store after an upload of [doc1] with one chunk record, owned by
    [owner]; no fault. *)
Definition sampleDeleteWorld (owner : option jsstring)
  : DeleteFile.World jsstring :=
  {| DeleteFile.firestore :=
       {| Cloud.documents := fun d =>
            if strictEquals d (lit "doc1")
            then Some {| Cloud.status := Some (lit "ready");
                         Cloud.filePath := Some (lit "documents/doc1/notes.txt");
                         Cloud.userId := owner;
                         Cloud.sessionId := None;
                         Cloud.fileName := Some (lit "notes.txt");
                         Cloud.extractedText := Some (lit "Late fees apply.");
                         Cloud.statusMessage := None;
                         Cloud.storagePath :=
                           Some (lit "documents/doc1/notes.txt");
                         Cloud.bucket := Some (lit "bucket1");
                         Cloud.contentType := Some (lit "text/plain") |}
            else None;
          Cloud.chunks := fun d =>
            if strictEquals d (lit "doc1")
            then [ {| Cloud.chunkId := lit "chunk0"; Cloud.index := 0;
                      Cloud.text := lit "Late fees apply.";
                      Cloud.embedding := None |} ]
            else [] |};
     DeleteFile.objects := fun b p =>
       if strictEquals b (lit "bucket1")
          && strictEquals p (lit "documents/doc1/notes.txt")
       then Some (lit "Late fees apply.") else None;
     DeleteFile.defaultBucket := lit "bucket1";
     DeleteFile.faults :=
       {| DeleteFile.documentReadFails := false;
          DeleteFile.objectDeleteFails := false;
          DeleteFile.chunksReadFails := false;
          DeleteFile.chunksCommitFails := false;
          DeleteFile.documentDeleteFails := false |} |}.

(** The world of [deleteFile] after an upload, with no fault. *)
Definition sampleAfterUpload (w : ProcessUpload.World jsstring nat)
  : DeleteFile.World jsstring :=
  {| DeleteFile.firestore := ProcessUpload.firestore w;
     DeleteFile.objects := ProcessUpload.objects w;
     DeleteFile.defaultBucket := lit "bucket1";
     DeleteFile.faults :=
       {| DeleteFile.documentReadFails := false;
          DeleteFile.objectDeleteFails := false;
          DeleteFile.chunksReadFails := false;
          DeleteFile.chunksCommitFails := false;
          DeleteFile.documentDeleteFails := false |} |}.

(* ===================================================================== *)
(** * Strings and arrays *)
(* ===================================================================== *)

Lemma len_nonneg {A} (l : list A) : 0 <= len l.
Proof. unfold len. lia. Qed.

Lemma len_nil_iff {A} (l : list A) : len l = 0 <-> l = [].
Proof.
  unfold len. destruct l; simpl; split; intro H; try reflexivity;
    try discriminate; lia.
Qed.

Lemma slice_prefix {A} (l : list A) (k : Z) :
  0 <= k -> slice l 0 k = firstn (Z.to_nat k) l.
Proof.
  intro Hk. unfold slice, relIndex.
  assert (Hl := len_nonneg l).
  replace (0 <? 0) with false by reflexivity.
  destruct (k <? 0) eqn:E; [apply Z.ltb_lt in E; lia|].
  rewrite (Z.min_l 0 (len l)) by lia. simpl skipn. rewrite Z.sub_0_r.
  destruct (Z.le_ge_cases k (len l)) as [H|H].
  - rewrite Z.min_l by lia. reflexivity.
  - rewrite Z.min_r by lia. unfold len in *.
    rewrite Nat2Z.id, firstn_all.
    symmetry. apply firstn_all2. lia.
Qed.

Lemma slice_window {A} (l : list A) (s e : Z) :
  0 <= s -> s <= e -> e <= len l ->
  slice l s e = firstn (Z.to_nat (e - s)) (skipn (Z.to_nat s) l).
Proof.
  intros Hs He Hl. unfold slice, relIndex.
  destruct (s <? 0) eqn:E1; [apply Z.ltb_lt in E1; lia|].
  destruct (e <? 0) eqn:E2; [apply Z.ltb_lt in E2; lia|].
  rewrite !Z.min_l by lia. reflexivity.
Qed.

Lemma slice_length {A} (l : list A) (k : Z) :
  0 <= k -> len (slice l 0 k) = Z.min k (len l).
Proof.
  intro Hk. rewrite slice_prefix by assumption. unfold len.
  rewrite length_firstn. lia.
Qed.

Lemma dropWhile_nil_iff {A} (p : A -> bool) (l : list A) :
  dropWhile p l = [] <-> forallb p l = true.
Proof.
  induction l as [|c l IH]; simpl.
  - tauto.
  - destruct (p c); simpl; [exact IH|]. split; discriminate.
Qed.

Lemma dropWhile_head {A} (p : A -> bool) (l : list A) c r :
  dropWhile p l = c :: r -> p c = false.
Proof.
  induction l as [|d l IH]; simpl; [discriminate|].
  destruct (p d) eqn:E; [exact IH|].
  intro H. injection H as -> _. exact E.
Qed.

Lemma forallb_rev {A} (p : A -> bool) (l : list A) :
  forallb p (rev l) = forallb p l.
Proof.
  induction l as [|c l IH]; simpl; [reflexivity|].
  rewrite forallb_app, IH. simpl. rewrite andb_true_r. apply andb_comm.
Qed.

(** [trim] leaves the empty string exactly when the string is all
    whitespace. *)
Lemma trim_nil_iff (s : jsstring) :
  trim s = [] <-> forallb isWhiteSpace s = true.
Proof.
  unfold trim. split.
  - intro H. apply (f_equal (@rev N)) in H. rewrite rev_involutive in H.
    simpl in H. apply dropWhile_nil_iff in H. rewrite forallb_rev in H.
    destruct (dropWhile isWhiteSpace s) as [|c r] eqn:E.
    + apply dropWhile_nil_iff. exact E.
    + apply dropWhile_head in E. simpl in H. rewrite E in H. discriminate.
  - intro H. apply dropWhile_nil_iff in H. rewrite H. reflexivity.
Qed.

Lemma truthy_trim (s : jsstring) :
  truthy (trim s) = existsb (fun c => negb (isWhiteSpace c)) s.
Proof.
  destruct (existsb (fun c => negb (isWhiteSpace c)) s) eqn:E.
  - destruct (trim s) as [|c r] eqn:T; [|reflexivity].
    apply trim_nil_iff in T. apply existsb_exists in E.
    destruct E as [c [Hin Hc]].
    rewrite forallb_forall in T. rewrite (T c Hin) in Hc. discriminate.
  - assert (T : trim s = []); [|rewrite T; reflexivity].
    apply trim_nil_iff. apply forallb_forall. intros c Hin.
    destruct (isWhiteSpace c) eqn:W; [reflexivity|].
    assert (X : existsb (fun c => negb (isWhiteSpace c)) s = true).
    { apply existsb_exists. exists c. rewrite W. auto. }
    rewrite X in E. discriminate.
Qed.

(** Every piece of a split is free of separators. *)
Lemma splitRuns_pieces (sep : N -> bool) (s : jsstring) :
  forall inRun cur,
    forallb (fun c => negb (sep c)) cur = true ->
    Forall (fun p => forallb (fun c => negb (sep c)) p = true)
      (splitRuns sep inRun cur s).
Proof.
  induction s as [|c s IH]; intros inRun cur Hcur; simpl.
  - constructor; [exact Hcur|constructor].
  - destruct (sep c) eqn:E.
    + destruct inRun.
      * apply IH. exact Hcur.
      * constructor; [exact Hcur|]. apply IH. reflexivity.
    + apply IH. rewrite forallb_app, Hcur. simpl. rewrite E. reflexivity.
Qed.

Lemma wordsOf_words (text : jsstring) : Forall isWord (wordsOf text).
Proof.
  unfold wordsOf. apply Forall_forall. intros w Hin.
  apply filter_In in Hin. destruct Hin as [Hin Ht]. split.
  - destruct w; [discriminate|discriminate].
  - pose proof (splitRuns_pieces isWhiteSpace text false [] eq_refl) as H.
    rewrite Forall_forall in H. apply H. exact Hin.
Qed.

Lemma join_cons (sep w : jsstring) (l : list jsstring) :
  l <> [] -> join sep (w :: l) = w ++ sep ++ join sep l.
Proof. destruct l; [congruence|reflexivity]. Qed.

(** A window that holds a word has text that survives [trim]. *)
Lemma join_words_truthy (l : list jsstring) :
  l <> [] -> Forall isWord l -> truthy (trim (join (lit " ") l)) = true.
Proof.
  intros Hne Hw. rewrite truthy_trim.
  destruct l as [|w l]; [congruence|].
  inversion Hw as [|? ? [Hw1 Hw2] _]; subst.
  destruct w as [|c w]; [congruence|].
  simpl in Hw2. apply andb_prop in Hw2. destruct Hw2 as [Hc _].
  destruct l; simpl; rewrite Hc; reflexivity.
Qed.

(* ===================================================================== *)
(** * The chunker *)
(* ===================================================================== *)

Lemma chunkLoop_unfold_step words t o start :
  Index.chunkLoop words t o start =
  if start <? len words then
    let end_ := Z.min (len words) (start + t) in
    chunkOfWindow words (start, end_) ++
    (if end_ =? len words then []
     else Index.chunkLoop words t o (start + Z.max 1 (t - Z.max 0 o)))
  else [].
Proof.
  rewrite Index.chunkLoop_equation_1.
  destruct (Z_lt_dec start (len words)) as [H|H].
  - rewrite Index.chunkLoop_clause_1_equation_1.
    apply Z.ltb_lt in H. rewrite H. cbv zeta.
    unfold chunkOfWindow, windowText. simpl fst. simpl snd.
    destruct (Z.min (len words) (start + t) =? len words).
    + rewrite app_nil_r. reflexivity.
    + reflexivity.
  - rewrite Index.chunkLoop_clause_1_equation_2.
    apply Z.ltb_nlt in H. rewrite H. reflexivity.
Qed.

Lemma windows_unfold_step n t o start :
  windows n t o start =
  if start <? n then
    let end_ := Z.min n (start + t) in
    (start, end_) ::
    (if end_ =? n then []
     else windows n t o (start + Z.max 1 (t - Z.max 0 o)))
  else [].
Proof.
  rewrite windows_equation_1.
  destruct (Z_lt_dec start n) as [H|H].
  - rewrite windows_clause_1_equation_1.
    apply Z.ltb_lt in H. rewrite H. cbv zeta.
    destruct (Z.min n (start + t) =? n); reflexivity.
  - rewrite windows_clause_1_equation_2.
    apply Z.ltb_nlt in H. rewrite H. reflexivity.
Qed.

(** The loop pushes, window after window, what each window yields. *)
Lemma chunkLoop_windows words t o :
  forall start,
    Index.chunkLoop words t o start =
    flat_map (chunkOfWindow words) (windows (len words) t o start).
Proof.
  intro start.
  remember (Z.to_nat (len words - start)) as k eqn:Hk.
  revert start Hk. induction k as [k IH] using lt_wf_ind. intros start Hk.
  rewrite chunkLoop_unfold_step, windows_unfold_step.
  destruct (start <? len words) eqn:E; [|reflexivity].
  apply Z.ltb_lt in E. cbv zeta. simpl flat_map. f_equal.
  destruct (Z.min (len words) (start + t) =? len words); [reflexivity|].
  apply (IH (Z.to_nat (len words - (start + Z.max 1 (t - Z.max 0 o)))));
    [lia|reflexivity].
Qed.

(** With a positive window size the loop leaves through its [break]: the
    last window, and only the last, ends at the word count. *)
Lemma windows_shape n t o :
  1 <= t ->
  forall start, 0 <= start < n ->
    exists W s,
      windows n t o start = W ++ [(s, n)] /\
      start <= s < n /\ n <= s + t /\
      Forall (fun w => start <= fst w /\ snd w = fst w + t /\ snd w < n) W.
Proof.
  intros Ht start.
  remember (Z.to_nat (n - start)) as k eqn:Hk.
  revert start Hk. induction k as [k IH] using lt_wf_ind. intros start Hk Hs.
  rewrite windows_unfold_step.
  destruct (start <? n) eqn:E; [|apply Z.ltb_nlt in E; lia].
  cbv zeta.
  destruct (Z.min n (start + t) =? n) eqn:E2.
  - apply Z.eqb_eq in E2. exists [], start. rewrite E2. simpl.
    repeat split; try lia. constructor.
  - apply Z.eqb_neq in E2.
    assert (Hend : Z.min n (start + t) = start + t) by lia.
    rewrite Hend.
    destruct (IH (Z.to_nat (n - (start + Z.max 1 (t - Z.max 0 o)))))
      with (start := start + Z.max 1 (t - Z.max 0 o))
      as [W [s [HW [Hs1 [Hs2 HF]]]]]; [lia|reflexivity|lia|].
    exists ((start, start + t) :: W), s. rewrite HW. simpl.
    repeat split; try lia.
    constructor; [simpl; lia|].
    eapply Forall_impl; [|exact HF]. simpl. intros w Hw. lia.
Qed.

Lemma Forall_firstn {A} (P : A -> Prop) (l : list A) k :
  Forall P l -> Forall P (firstn k l).
Proof.
  intro H. revert k. induction H as [|x l Hx Hl IH]; intros [|k]; simpl;
    constructor; auto.
Qed.

Lemma Forall_skipn {A} (P : A -> Prop) (l : list A) k :
  Forall P l -> Forall P (skipn k l).
Proof.
  intro H. revert k. induction H as [|x l Hx Hl IH]; intros [|k]; simpl;
    try constructor; auto.
Qed.

(** A window inside the word array that holds a word is never skipped. *)
Lemma chunkOfWindow_words words s e :
  Forall isWord words -> 0 <= s -> s < e -> e <= len words ->
  chunkOfWindow words (s, e) = [windowText words (s, e)].
Proof.
  intros Hw Hs He Hl. unfold chunkOfWindow, windowText. simpl fst. simpl snd.
  rewrite join_words_truthy; [reflexivity| |].
  - rewrite slice_window by lia. intro H.
    apply (f_equal (@length _)) in H. rewrite length_firstn, length_skipn in H.
    unfold len in Hl. simpl in H. lia.
  - rewrite slice_window by lia. apply Forall_firstn, Forall_skipn. exact Hw.
Qed.

Lemma upload_chunkLoop_unfold_step words t o start :
  ProcessUpload.chunkLoop words t o start =
  if start <? len words then
    let end_ := Z.min (len words) (start + t) in
    chunkOfWindow words (start, end_) ++
    (if end_ =? len words then []
     else ProcessUpload.chunkLoop words t o (start + Z.max 1 (t - Z.max 0 o)))
  else [].
Proof.
  rewrite ProcessUpload.chunkLoop_equation_1.
  destruct (Z_lt_dec start (len words)) as [H|H].
  - rewrite ProcessUpload.chunkLoop_clause_1_equation_1.
    apply Z.ltb_lt in H. rewrite H. cbv zeta.
    unfold chunkOfWindow, windowText. simpl fst. simpl snd.
    destruct (Z.min (len words) (start + t) =? len words).
    + rewrite app_nil_r. reflexivity.
    + reflexivity.
  - rewrite ProcessUpload.chunkLoop_clause_1_equation_2.
    apply Z.ltb_nlt in H. rewrite H. reflexivity.
Qed.

Lemma chunkLoop_agree words t o :
  forall start,
    Index.chunkLoop words t o start = ProcessUpload.chunkLoop words t o start.
Proof.
  intro start.
  remember (Z.to_nat (len words - start)) as k eqn:Hk.
  revert start Hk. induction k as [k IH] using lt_wf_ind. intros start Hk.
  rewrite chunkLoop_unfold_step, upload_chunkLoop_unfold_step.
  destruct (start <? len words) eqn:E; [|reflexivity].
  apply Z.ltb_lt in E. cbv zeta. f_equal.
  destruct (Z.min (len words) (start + t) =? len words); [reflexivity|].
  apply (IH (Z.to_nat (len words - (start + Z.max 1 (t - Z.max 0 o)))));
    [lia|reflexivity].
Qed.

Lemma chunkTextByWords_words text t o :
  Index.chunkTextByWords text t o =
  flat_map (chunkOfWindow (wordsOf text))
    (windows (len (wordsOf text)) t o 0).
Proof.
  unfold Index.chunkTextByWords. fold (wordsOf text).
  destruct text as [|c text].
  - reflexivity.
  - cbv beta iota delta [isEmpty].
    destruct (len (wordsOf (c :: text)) =? 0) eqn:E.
    + apply Z.eqb_eq in E. rewrite E.
      rewrite windows_unfold_step. reflexivity.
    + apply chunkLoop_windows.
Qed.

Lemma flat_map_singletons {A B} (f : A -> list B) (g : A -> B) (l : list A) :
  Forall (fun a => f a = [g a]) l -> flat_map f l = map g l.
Proof.
  induction 1 as [|a l Ha _ IH]; simpl; [reflexivity|].
  rewrite Ha, IH. reflexivity.
Qed.

Lemma wordsOf_len_pos (text : jsstring) :
  wordsOf text <> [] -> 0 < len (wordsOf text).
Proof.
  intro Hne. pose proof (len_nonneg (wordsOf text)).
  pose proof (len_nil_iff (wordsOf text)).
  assert (len (wordsOf text) <> 0) by tauto. lia.
Qed.

(** The chunks of a text with at least one word, for a positive window
    size: one chunk per window, the last window ending at the last word. *)
Lemma chunkTextByWords_shape (text : jsstring) (t o : Z) :
  wordsOf text <> [] -> 1 <= t ->
  exists W s,
    windows (len (wordsOf text)) t o 0 = W ++ [(s, len (wordsOf text))] /\
    Forall (fun w => snd w < len (wordsOf text)) W /\
    0 <= s < len (wordsOf text) /\
    Index.chunkTextByWords text t o =
      map (windowText (wordsOf text)) W
        ++ [join (lit " ") (skipn (Z.to_nat s) (wordsOf text))].
Proof.
  intros Hne Ht.
  assert (Hw : Forall isWord (wordsOf text)) by apply wordsOf_words.
  pose proof (wordsOf_len_pos text Hne) as Hn.
  destruct (windows_shape (len (wordsOf text)) t o Ht 0)
    as [W [s [HW [Hs [Hst HF]]]]]; [lia|].
  exists W, s. split; [exact HW|]. split.
  { eapply Forall_impl; [|exact HF]. simpl. intros w H. lia. }
  split; [lia|].
  rewrite chunkTextByWords_words. rewrite HW.
  rewrite flat_map_app. simpl. rewrite app_nil_r. f_equal.
  - apply flat_map_singletons. eapply Forall_impl; [|exact HF].
    intros [a b]. simpl. intros [H1 [H2 H3]].
    apply chunkOfWindow_words; auto; lia.
  - rewrite chunkOfWindow_words by (auto; lia). unfold windowText.
    simpl fst. simpl snd. rewrite slice_window by lia.
    rewrite firstn_all2; [reflexivity|].
    rewrite length_skipn. unfold len. lia.
Qed.

(** C3. A text of exactly 1000 words, chunked with targetWords = 900 and
    overlapWords = 120, yields exactly two chunks: words 0..899 and words
    780..999.  In general, for a text with at least one word and a positive
    targetWords, the loop visits windows that all end before the word count
    except the last one, which ends exactly at the word count and stops the
    iteration; no window is skipped, so the final chunk is the words from
    the last window's start to the last word of the sequence. *)
Theorem chunk_windows_reach_last_word (text : jsstring) (t o : Z) :
  wordsOf text <> [] -> 1 <= t ->
  let words := wordsOf text in
  (exists W s,
      windows (len words) t o 0 = W ++ [(s, len words)] /\
      Forall (fun w => snd w < len words) W /\
      0 <= s < len words /\
      Index.chunkTextByWords text t o =
        map (windowText words) W
          ++ [join (lit " ") (skipn (Z.to_nat s) words)]) /\
  (len words = 1000 -> t = 900 -> o = 120 ->
   Index.chunkTextByWords text t o =
     [join (lit " ") (firstn 900 words);
      join (lit " ") (skipn 780 words)]).
Proof.
  intros Hne Ht words.
  assert (Hw : Forall isWord words) by apply wordsOf_words.
  split; [apply chunkTextByWords_shape; assumption|].
  intros Hlen -> ->. rewrite chunkTextByWords_words. fold words.
  rewrite Hlen.
  replace (windows 1000 900 120 0) with [(0, 900); (780, 1000)]
    by (vm_compute; reflexivity).
  cbn [flat_map].
  rewrite !chunkOfWindow_words by (auto; lia).
  unfold windowText. cbn [fst snd app].
  rewrite !slice_window by lia.
  rewrite (firstn_all2 (n := Z.to_nat (1000 - 780)))
    by (rewrite length_skipn; unfold len in Hlen; lia).
  reflexivity.
Qed.

Lemma chunk_windows_reach_last_word_witness :
  let text := concat (repeat (lit "word ") 1000) in
  wordsOf text <> [] /\ 1 <= 900 /\ len (wordsOf text) = 1000 /\
  Index.chunkTextByWords text 900 120 =
    [join (lit " ") (repeat (lit "word") 900);
     join (lit " ") (repeat (lit "word") 220)].
Proof.
  cbv zeta.
  assert (H1 : wordsOf (concat (repeat (lit "word ") 1000)) <> []).
  { intro H. vm_compute in H. discriminate H. }
  assert (H2 : 1 <= 900) by lia.
  assert (H3 : len (wordsOf (concat (repeat (lit "word ") 1000))) = 1000).
  { vm_compute. reflexivity. }
  split; [exact H1|]. split; [exact H2|]. split; [exact H3|].
  destruct (chunk_windows_reach_last_word
              (concat (repeat (lit "word ") 1000)) 900 120 H1 H2) as [_ H].
  rewrite (H H3 eq_refl eq_refl). vm_compute. reflexivity.
Defined.

Lemma splitRuns_word (sep : N -> bool) (w : jsstring) :
  forallb (fun c => negb (sep c)) w = true ->
  forall inRun cur s,
    splitRuns sep inRun cur (w ++ s) =
    splitRuns sep (if isEmpty w then inRun else false) (cur ++ w) s.
Proof.
  induction w as [|c w IH]; intros Hw inRun cur s; simpl.
  - rewrite app_nil_r. reflexivity.
  - simpl in Hw. apply andb_prop in Hw. destruct Hw as [Hc Hw].
    apply negb_true_iff in Hc. rewrite Hc.
    rewrite (IH Hw). rewrite <- app_assoc. simpl.
    destruct (isEmpty w); reflexivity.
Qed.

(** Splitting single-space separated words gives the words back. *)
Lemma split_join_words (ws : list jsstring) :
  ws <> [] -> Forall isWord ws ->
  forall inRun, splitRuns isWhiteSpace inRun [] (join (lit " ") ws) = ws.
Proof.
  induction ws as [|w ws IH]; [congruence|].
  intros _ Hw inRun. inversion Hw as [|? ? [Hne Hfree] Hrest]; subst.
  destruct ws as [|w' ws].
  - simpl. rewrite <- (app_nil_r w) at 1.
    rewrite (splitRuns_word _ _ Hfree). reflexivity.
  - rewrite join_cons by discriminate.
    rewrite (splitRuns_word _ _ Hfree). simpl app at 1.
    change (lit " " ++ join (lit " ") (w' :: ws))
      with (32%N :: join (lit " ") (w' :: ws)).
    destruct w as [|c w]; [congruence|].
    cbn [isEmpty splitRuns]. replace (isWhiteSpace 32) with true by reflexivity.
    f_equal. apply IH; [discriminate|exact Hrest].
Qed.

Lemma wordsOf_join (ws : list jsstring) :
  ws <> [] -> Forall isWord ws -> wordsOf (join (lit " ") ws) = ws.
Proof.
  intros Hne Hw. unfold wordsOf, split.
  rewrite split_join_words by assumption.
  clear Hne. induction Hw as [|w ws [Hw _] _ IH]; simpl; [reflexivity|].
  destruct w; [congruence|]. simpl. rewrite IH. reflexivity.
Qed.

Lemma filter_nil_inv {A} (p : A -> bool) (l : list A) :
  filter p l = [] -> forall x, In x l -> p x = false.
Proof.
  induction l as [|y l IH]; simpl; [tauto|].
  destruct (p y) eqn:E; [discriminate|].
  intros H x [<-|Hx]; auto.
Qed.

(** The pieces of a split hold, in order, every code unit that is not a
    separator. *)
Lemma splitRuns_concat (sep : N -> bool) (s : jsstring) :
  forall inRun cur,
    concat (splitRuns sep inRun cur s)
    = cur ++ filter (fun c => negb (sep c)) s.
Proof.
  induction s as [|c s IH]; intros inRun cur; simpl.
  - rewrite !app_nil_r. reflexivity.
  - destruct (sep c); simpl.
    + destruct inRun; simpl; rewrite IH; reflexivity.
    + rewrite IH, <- app_assoc. reflexivity.
Qed.

(** A text that is not blank has a word. *)
Lemma wordsOf_nonempty (text : jsstring) :
  ~ isBlank (Some text) -> wordsOf text <> [].
Proof.
  intros Hb Hw. apply Hb. simpl.
  pose proof (splitRuns_concat isWhiteSpace text false []) as Hc.
  fold (split isWhiteSpace text) in Hc. simpl in Hc.
  assert (He : concat (split isWhiteSpace text) = []).
  { unfold wordsOf in Hw. pose proof (filter_nil_inv _ _ Hw) as Hall.
    clear Hc Hw. induction (split isWhiteSpace text) as [|p ps IH];
      [reflexivity|].
    simpl. pose proof (Hall p (or_introl eq_refl)) as Hp.
    destruct p; [|discriminate Hp]. simpl. apply IH.
    intros x Hx. apply Hall. right. exact Hx. }
  rewrite He in Hc. symmetry in Hc.
  apply forallb_forall. intros c Hin.
  pose proof (filter_nil_inv _ _ Hc c Hin) as H.
  apply negb_false_iff in H. exact H.
Qed.

Lemma chunkTextByWords_nonempty (text : jsstring) (t o : Z) :
  ~ isBlank (Some text) -> 1 <= t -> Index.chunkTextByWords text t o <> [].
Proof.
  intros Hb Ht.
  destruct (chunkTextByWords_shape text t o (wordsOf_nonempty _ Hb) Ht)
    as [W [s [_ [_ [_ H]]]]].
  rewrite H. intro E. apply app_eq_nil in E. destruct E as [_ E].
  discriminate E.
Qed.

(** C4, as the code has it.  The empty text yields no chunk.  A text with
    at least one word and fewer than targetWords words yields exactly one
    chunk, which is the words of the text joined by single spaces; that
    chunk is the text itself when the text is already its words separated
    by single spaces, with no whitespace before or after. *)
Theorem short_text_single_chunk (text : jsstring) (t o : Z) :
  wordsOf text <> [] -> len (wordsOf text) < t ->
  Index.chunkTextByWords [] t o = [] /\
  Index.chunkTextByWords text t o = [join (lit " ") (wordsOf text)] /\
  (forall ws, Forall isWord ws -> text = join (lit " ") ws ->
     Index.chunkTextByWords text t o = [text]).
Proof.
  intros Hne Hlt.
  assert (Hw : Forall isWord (wordsOf text)) by apply wordsOf_words.
  assert (Hn : 0 < len (wordsOf text)).
  { pose proof (len_nonneg (wordsOf text)).
    pose proof (len_nil_iff (wordsOf text)).
    assert (len (wordsOf text) <> 0) by tauto. lia. }
  assert (Hone : Index.chunkTextByWords text t o
                 = [join (lit " ") (wordsOf text)]).
  { rewrite chunkTextByWords_words, windows_unfold_step.
    destruct (0 <? len (wordsOf text)) eqn:E; [|apply Z.ltb_nlt in E; lia].
    cbv zeta. rewrite Z.min_l by lia. rewrite Z.eqb_refl.
    simpl flat_map. rewrite app_nil_r.
    rewrite chunkOfWindow_words by (auto; lia).
    unfold windowText. simpl fst. simpl snd.
    rewrite slice_prefix by lia. unfold len. rewrite Nat2Z.id, firstn_all.
    reflexivity. }
  split; [reflexivity|]. split; [exact Hone|].
  intros ws Hws Htext. rewrite Hone. f_equal.
  destruct ws as [|w ws].
  - subst text. exfalso. apply Hne. reflexivity.
  - rewrite Htext at 1. rewrite wordsOf_join by (auto; discriminate).
    symmetry. exact Htext.
Qed.

Lemma short_text_single_chunk_witness :
  let text := (lit " terms" ++ [10%N] ++ lit " of   service ") in
  wordsOf text <> [] /\ len (wordsOf text) < 900 /\
  Index.chunkTextByWords text 900 120 = [lit "terms of service"].
Proof.
  cbv zeta.
  assert (H1 : wordsOf ((lit " terms" ++ [10%N] ++ lit " of   service ")) <> []).
  { intro H. vm_compute in H. discriminate H. }
  assert (H2 : len (wordsOf ((lit " terms" ++ [10%N] ++ lit " of   service "))) < 900).
  { vm_compute. reflexivity. }
  split; [exact H1|]. split; [exact H2|].
  destruct (short_text_single_chunk _ 900 120 H1 H2) as [_ [H _]].
  rewrite H. vm_compute. reflexivity.
Defined.

(** C4 as stated fails: a text of two words separated by two spaces has
    fewer than targetWords words, yet its single chunk is not the text. *)
Lemma single_chunk_not_whole_text :
  let text := lit "a  b" in
  text <> [] /\ len (wordsOf text) < 900 /\
  Index.chunkTextByWords text 900 120 = [lit "a b"] /\
  Index.chunkTextByWords text 900 120 <> [text] /\
  lit " " <> [] /\ len (wordsOf (lit " ")) < 900 /\
  Index.chunkTextByWords (lit " ") 900 120 = [].
Proof.
  cbv zeta. repeat split; try (vm_compute; reflexivity);
    try (intro H; vm_compute in H; discriminate H).
Qed.

Lemma slice_from {A} (l : list A) (s e : Z) :
  0 <= s <= len l -> s <= e ->
  slice l s e = firstn (Z.to_nat (e - s)) (skipn (Z.to_nat s) l).
Proof.
  intros Hs He. destruct (Z.le_gt_cases e (len l)) as [H|H].
  - apply slice_window; lia.
  - unfold slice, relIndex.
    destruct (s <? 0) eqn:E1; [apply Z.ltb_lt in E1; lia|].
    destruct (e <? 0) eqn:E2; [apply Z.ltb_lt in E2; lia|].
    rewrite (Z.min_l s) by lia. rewrite (Z.min_r e) by lia.
    rewrite !firstn_all2; [reflexivity| |];
      rewrite length_skipn; unfold len in *; lia.
Qed.

Lemma mapiFrom_app {A B} (f : A -> nat -> B) (l1 l2 : list A) :
  forall k, mapiFrom f k (l1 ++ l2)
            = mapiFrom f k l1 ++ mapiFrom f (k + length l1) l2.
Proof.
  induction l1 as [|x l1 IH]; intro k; simpl.
  - rewrite Nat.add_0_r. reflexivity.
  - rewrite IH. do 3 f_equal. lia.
Qed.

Lemma mapiFrom_ext {A B} (f g : A -> nat -> B) (l : list A) :
  forall k k', (forall x j, f x (k + j)%nat = g x (k' + j)%nat) ->
    mapiFrom f k l = mapiFrom g k' l.
Proof.
  induction l as [|x l IH]; intros k k' H; simpl; [reflexivity|].
  f_equal.
  - specialize (H x 0%nat). rewrite !Nat.add_0_r in H. exact H.
  - apply IH. intros y j. specialize (H y (S j)).
    rewrite !Nat.add_succ_r in H. exact H.
Qed.

(** The batches, one after the other, number the chunks from their
    position in the chunk list. *)
Lemma writeBatches_numbers (chunks : list jsstring) :
  forall i, 0 <= i ->
    concat (ProcessUpload.writeBatches chunks i)
    = mapiFrom (fun text k => {| ProcessUpload.cw_index := Z.of_nat k;
                                 ProcessUpload.cw_text := text |})
        (Z.to_nat i) (skipn (Z.to_nat i) chunks).
Proof.
  intro i.
  remember (Z.to_nat (len chunks - i)) as n eqn:Hn.
  revert i Hn. induction n as [n IH] using lt_wf_ind. intros i Hn Hi.
  rewrite ProcessUpload.writeBatches_equation_1.
  destruct (Z_lt_dec i (len chunks)) as [H|H].
  - rewrite ProcessUpload.writeBatches_clause_1_equation_1. cbv zeta.
    cbn [concat].
    rewrite (IH (Z.to_nat (len chunks - (i + 400)))) by lia.
    rewrite slice_from by lia.
    replace (Z.to_nat (i + 400 - i)) with 400%nat by lia.
    match goal with
    | |- _ = mapiFrom ?g ?k ?l =>
        replace (mapiFrom g k l)
          with (mapiFrom g k (firstn 400 l ++ skipn 400 l))
          by (rewrite firstn_skipn; reflexivity)
    end.
    rewrite mapiFrom_app. f_equal.
    + unfold mapi. apply mapiFrom_ext. intros x j. simpl. f_equal. lia.
    + rewrite skipn_skipn.
      replace (400 + Z.to_nat i)%nat with (Z.to_nat (i + 400)) by lia.
      destruct (Z.le_gt_cases (len chunks) (i + 400)) as [G|G].
      * rewrite !skipn_all2 by (unfold len in G; lia). reflexivity.
      * f_equal. rewrite length_firstn, length_skipn. unfold len in G. lia.
  - rewrite ProcessUpload.writeBatches_clause_1_equation_2.
    rewrite skipn_all2 by (unfold len in H; lia). reflexivity.
Qed.

(** C9. The two copies of [chunkTextByWords] return the same chunks for
    every text, targetWords and overlapWords; so the fallback chunks built
    during retrieval carry, in order, the texts the upload processor
    obtains for the same extracted text, and their [index] and [text] are
    those of the chunk documents the upload processor writes for it. *)
Theorem chunkers_agree (text : jsstring) (t o : Z) :
  Index.chunkTextByWords text t o = ProcessUpload.chunkTextByWords text t o /\
  map Index.text (mapi Index.fallbackChunk (Index.chunkTextByWords text 900 120))
    = ProcessUpload.chunkTextByWords text 900 120 /\
  (truthy text && truthy (trim text) = true ->
   map (fun c => {| ProcessUpload.cw_index := Index.index c;
                    ProcessUpload.cw_text := Index.text c |})
     (mapi Index.fallbackChunk (Index.chunkTextByWords text 900 120))
   = ProcessUpload.writtenChunks text).
Proof.
  assert (H : forall t o,
    Index.chunkTextByWords text t o = ProcessUpload.chunkTextByWords text t o).
  { intros t' o'. unfold Index.chunkTextByWords, ProcessUpload.chunkTextByWords.
    destruct (isEmpty text); [reflexivity|]. cbv zeta.
    destruct (len (filter truthy (split isWhiteSpace text)) =? 0);
      [reflexivity|]. apply chunkLoop_agree. }
  split; [apply H|]. rewrite <- H. split.
  - unfold mapi. generalize 0%nat.
    induction (Index.chunkTextByWords text 900 120) as [|c l IH]; intro k;
      simpl; [reflexivity|]. rewrite IH. reflexivity.
  - intro Hnb. unfold ProcessUpload.writtenChunks.
    apply andb_prop in Hnb. destruct Hnb as [H1 H2]. rewrite H1.
    assert (H3 : (0 <? len (trim text)) = true).
    { apply Z.ltb_lt. destruct (trim text); [discriminate|].
      unfold len. simpl. lia. }
    rewrite H3. cbv zeta. simpl andb. cbv iota.
    rewrite <- H, writeBatches_numbers by lia.
    change (Z.to_nat 0) with 0%nat. simpl skipn. unfold mapi.
    generalize 0%nat.
    induction (Index.chunkTextByWords text 900 120) as [|c l IH]; intro k;
      simpl; [reflexivity|]. rewrite IH. reflexivity.
Qed.

Lemma chunkers_agree_witness :
  truthy (lit "Late fees apply.") && truthy (trim (lit "Late fees apply."))
  = true /\
  ProcessUpload.writtenChunks (lit "Late fees apply.")
  = [ {| ProcessUpload.cw_index := 0;
         ProcessUpload.cw_text := lit "Late fees apply." |} ] /\
  map Index.text
    (mapi Index.fallbackChunk
       (Index.chunkTextByWords (lit "Late fees apply.") 900 120))
  = [lit "Late fees apply."].
Proof.
  assert (H0 : truthy (lit "Late fees apply.")
               && truthy (trim (lit "Late fees apply.")) = true)
    by reflexivity.
  destruct (chunkers_agree (lit "Late fees apply.") 900 120) as [_ [H1 H2]].
  split; [exact H0|]. split.
  - rewrite <- (H2 H0). vm_compute. reflexivity.
  - rewrite H1. vm_compute. reflexivity.
Defined.

(* ===================================================================== *)
(** * The stable sort *)
(* ===================================================================== *)

Section Sort.
Context {A : Type} (after : A -> A -> bool).

Lemma insertSorted_perm x l : Permutation (insertSorted after x l) (x :: l).
Proof.
  induction l as [|y l IH]; simpl; [reflexivity|].
  destruct (after x y); [|reflexivity].
  rewrite IH. apply perm_swap.
Qed.

Lemma sort_perm l : Permutation (sort after l) l.
Proof.
  induction l as [|x l IH]; simpl; [reflexivity|].
  rewrite insertSorted_perm, IH. reflexivity.
Qed.

Lemma sort_length l : length (sort after l) = length l.
Proof. apply Permutation_length, sort_perm. Qed.

(** Stability: a list in which no element has to move behind a later
    one is left as it is. *)
Lemma sort_in_order l :
  StronglySorted (fun x y => after x y = false) l -> sort after l = l.
Proof.
  induction 1 as [|x l Hl IH Hx]; simpl; [reflexivity|].
  rewrite IH. destruct l as [|y l]; [reflexivity|]. simpl.
  inversion Hx as [|? ? Hy _]; subst. rewrite Hy. reflexivity.
Qed.

(** For a comparison that is, on the elements that satisfy [P], the
    strict part of a total preorder [ge], the result is in [ge] order. *)
Variable P : A -> Prop.
Variable ge : A -> A -> Prop.
Hypothesis ge_trans : forall x y z, ge x y -> ge y z -> ge x z.
Hypothesis after_false : forall x y, P x -> P y -> after x y = false -> ge x y.
Hypothesis after_true : forall x y, P x -> P y -> after x y = true -> ge y x.

Lemma insertSorted_sorted x l :
  P x -> Forall P l ->
  StronglySorted ge l -> StronglySorted ge (insertSorted after x l).
Proof.
  intros Px Pl. induction 1 as [|y l Hl IH Hy]; simpl.
  - constructor; constructor.
  - inversion Pl as [|? ? Py Pl']; subst.
    destruct (after x y) eqn:E.
    + constructor; [apply IH; exact Pl'|].
      apply Forall_forall. intros z Hz.
      apply (Permutation_in _ (insertSorted_perm x l)) in Hz.
      destruct Hz as [<-|Hz]; [apply after_true; assumption|].
      rewrite Forall_forall in Hy. apply Hy. exact Hz.
    + constructor; [constructor; assumption|].
      constructor; [apply after_false; assumption|].
      eapply Forall_impl; [|exact Hy].
      intros z Hz. eapply ge_trans; [apply after_false; eassumption|exact Hz].
Qed.

Lemma sort_sorted l : Forall P l -> StronglySorted ge (sort after l).
Proof.
  induction 1 as [|x l Px Pl IH]; simpl; [constructor|].
  apply insertSorted_sorted; [exact Px| |exact IH].
  apply Forall_forall. intros y Hy.
  apply (Permutation_in _ (sort_perm l)) in Hy.
  rewrite Forall_forall in Pl. apply Pl. exact Hy.
Qed.

End Sort.

(* ===================================================================== *)
(** * The lexical prefilter *)
(* ===================================================================== *)

Lemma range_length (n : Z) : len (range n) = Z.max 0 n.
Proof. unfold range, len. rewrite length_map, length_seq. lia. Qed.

Lemma mapiFrom_length {A B} (f : A -> nat -> B) (l : list A) :
  forall k, length (mapiFrom f k l) = length l.
Proof. induction l as [|x l IH]; intro k; simpl; [|rewrite IH]; reflexivity. Qed.

Lemma mapiFrom_map {A B C} (g : B -> C) (f : A -> nat -> B) (h : nat -> C)
    (l : list A) :
  (forall x i, g (f x i) = h i) ->
  forall k, map g (mapiFrom f k l) = map h (seq k (length l)).
Proof.
  intro H. induction l as [|x l IH]; intro k; simpl; [reflexivity|].
  rewrite H, IH. reflexivity.
Qed.

Lemma firstn_seq_le (k n : nat) :
  (k <= n)%nat -> forall s, firstn k (seq s n) = seq s k.
Proof.
  revert n. induction k as [|k IH]; intros [|n] H s; simpl; try reflexivity;
    try lia.
  rewrite IH by lia. reflexivity.
Qed.

Lemma firstn_range (k n : Z) :
  0 <= k <= n -> firstn (Z.to_nat k) (range n) = range k.
Proof.
  intro H. unfold range. rewrite firstn_map, firstn_seq_le by lia.
  reflexivity.
Qed.

Lemma at_0_In {A} (l : list A) x : at_ l 0 = Some x -> In x l.
Proof.
  unfold at_. destruct l; simpl; [discriminate|].
  intro H. left. congruence.
Qed.

Section PrefilterFacts.
Variable toLowerCase : jsstring -> jsstring.

Let scoredOf (terms : list jsstring) (chunks : list jsstring) :=
  mapi (fun c i => {| Index.sc_i := Z.of_nat i;
                      Index.sc_score := Index.chunkScore toLowerCase terms c |})
    chunks.

(** Each entry of the term list adds one to the score when it occurs in
    the lowercased chunk, however often it occurs there. *)
Lemma chunkScore_count terms c :
  Index.chunkScore toLowerCase terms c
  = len (filter (includes (toLowerCase c)) terms).
Proof.
  unfold Index.chunkScore. cbv zeta.
  assert (G : forall acc,
    fold_left (fun score t =>
                 if includes (toLowerCase c) t then score + 1 else score)
      terms acc
    = acc + len (filter (includes (toLowerCase c)) terms)).
  { induction terms as [|t terms IH]; intro acc; simpl.
    - unfold len. simpl. lia.
    - rewrite IH. destruct (includes (toLowerCase c) t); unfold len; simpl; lia. }
  rewrite G. lia.
Qed.

Lemma chunkScore_nonneg terms c : 0 <= Index.chunkScore toLowerCase terms c.
Proof. rewrite chunkScore_count. apply len_nonneg. Qed.

Lemma chunkScore_distinct terms c :
  NoDup terms ->
  Index.chunkScore toLowerCase terms c = distinctTermScore toLowerCase terms c.
Proof.
  intro H. rewrite chunkScore_count. unfold distinctTermScore.
  rewrite nodup_fixed_point by exact H. reflexivity.
Qed.

Lemma scoredOf_indices terms chunks :
  map Index.sc_i (scoredOf terms chunks) = range (len chunks).
Proof.
  unfold scoredOf, mapi, range, len. rewrite Nat2Z.id.
  apply mapiFrom_map. reflexivity.
Qed.

Lemma scoredOf_scores terms chunks s :
  In s (scoredOf terms chunks) ->
  exists c, In c chunks /\
            Index.sc_score s = Index.chunkScore toLowerCase terms c.
Proof.
  unfold scoredOf, mapi. generalize 0%nat.
  induction chunks as [|c chunks IH]; intros k; simpl; [tauto|].
  intros [<-|H].
  - exists c. auto.
  - destruct (IH _ H) as [c' [Hin Hs]]. exists c'. auto.
Qed.

Lemma sorted_scoreDesc l :
  StronglySorted scoreDesc (sort Index.byScoreDesc l).
Proof.
  apply (sort_sorted Index.byScoreDesc (fun _ => True) scoreDesc).
  - unfold scoreDesc. intros; lia.
  - unfold scoreDesc, Index.byScoreDesc. intros x y _ _ H.
    apply Z.ltb_ge in H. lia.
  - unfold scoreDesc, Index.byScoreDesc. intros x y _ _ H.
    apply Z.ltb_lt in H. lia.
  - apply Forall_forall. auto.
Qed.

Lemma zero_scores_in_order (l : list Index.Scored) :
  Forall (fun s => Index.sc_score s = 0) l ->
  StronglySorted (fun x y => Index.byScoreDesc x y = false) l.
Proof.
  induction 1 as [|x l Hx Hl IH]; constructor; [exact IH|].
  eapply Forall_impl; [|exact Hl]. intros y Hy. unfold Index.byScoreDesc.
  rewrite Hx, Hy. reflexivity.
Qed.

(** The result of [prefilterChunks], in both of its branches, is the
    first [min(cap, N)] indices of the chunks sorted by descending score
    with the stable sort. *)
Lemma prefilterChunks_sorted_prefix question chunks cap :
  0 <= cap ->
  Index.prefilterChunks toLowerCase question chunks cap
  = map Index.sc_i
      (firstn (Z.to_nat (Z.min cap (len chunks)))
         (sort Index.byScoreDesc
            (scoredOf (Index.queryTerms toLowerCase question) chunks))).
Proof.
  intro Hcap. unfold Index.prefilterChunks. cbv zeta.
  set (terms := Index.queryTerms toLowerCase question).
  fold (scoredOf terms chunks).
  set (take := Z.min cap (len chunks)).
  assert (Htake : 0 <= take <= len chunks)
    by (pose proof (len_nonneg chunks); subst take; lia).
  assert (Hzero : Forall (fun s => Index.sc_score s = 0) (scoredOf terms chunks) ->
    range take
    = map Index.sc_i
        (firstn (Z.to_nat take) (sort Index.byScoreDesc (scoredOf terms chunks)))).
  { intro Hz. rewrite sort_in_order by (apply zero_scores_in_order; exact Hz).
    rewrite <- firstn_map, scoredOf_indices, firstn_range by lia. reflexivity. }
  destruct (len terms =? 0) eqn:E.
  - apply Hzero. apply Z.eqb_eq, len_nil_iff in E. rewrite E.
    apply Forall_forall. intros s Hs.
    destruct (scoredOf_scores _ _ _ Hs) as [c [_ ->]]. reflexivity.
  - rewrite slice_prefix by lia.
    destruct (at_ (sort Index.byScoreDesc (scoredOf terms chunks)) 0)
      as [s0|] eqn:E0.
    + destruct (0 <? Index.sc_score s0) eqn:E1; [reflexivity|].
      apply Hzero. apply Z.ltb_ge in E1.
      pose proof (sorted_scoreDesc (scoredOf terms chunks)) as Hs.
      destruct (sort Index.byScoreDesc (scoredOf terms chunks))
        as [|s1 rest] eqn:Es; [discriminate|].
      simpl in E0. injection E0 as ->.
      apply StronglySorted_inv in Hs. destruct Hs as [_ Hs].
      apply Forall_forall. intros s Hin.
      destruct (scoredOf_scores _ _ _ Hin) as [c [_ Hc]].
      pose proof (chunkScore_nonneg terms c) as Hn.
      apply (Permutation_in s
               (Permutation_sym
                  (sort_perm Index.byScoreDesc (scoredOf terms chunks))))
        in Hin.
      rewrite Es in Hin. destruct Hin as [->|Hin]; [lia|].
      rewrite Forall_forall in Hs. specialize (Hs _ Hin).
      unfold scoreDesc in Hs. lia.
    + apply Hzero.
      destruct (sort Index.byScoreDesc (scoredOf terms chunks)) eqn:Es;
        [|discriminate].
      apply (f_equal (@length _)) in Es. rewrite sort_length in Es.
      destruct (scoredOf terms chunks); [constructor|discriminate].
Qed.

Lemma prefilterChunks_length question chunks cap :
  0 <= cap ->
  len (Index.prefilterChunks toLowerCase question chunks cap)
  = Z.min cap (len chunks).
Proof.
  intro Hcap. rewrite prefilterChunks_sorted_prefix by assumption.
  unfold len. rewrite length_map, length_firstn, sort_length.
  unfold scoredOf, mapi. rewrite mapiFrom_length. lia.
Qed.

End PrefilterFacts.

Lemma filter_none {A} (p : A -> bool) (l : list A) :
  (forall x, In x l -> p x = false) -> filter p l = [].
Proof.
  induction l as [|x l IH]; intro H; simpl; [reflexivity|].
  rewrite (H x (or_introl eq_refl)). apply IH.
  intros y Hy. apply H. right. exact Hy.
Qed.

Lemma range_at (n i : Z) : 0 <= i < n -> at_ (range n) i = Some i.
Proof.
  intro H. unfold at_, range.
  destruct (i <? 0) eqn:E; [apply Z.ltb_lt in E; lia|].
  rewrite nth_error_map, nth_error_seq.
  destruct (Nat.ltb_spec (Z.to_nat i) (Z.to_nat n)) as [_|H']; [|lia].
  simpl. f_equal. lia.
Qed.

(** C5. When the question has no usable term, or no query term occurs in
    any chunk, [prefilterChunks] returns the indices 0, 1, ...,
    min(cap, N) - 1 in that order; and its result never has more than cap
    entries, for a cap that is not negative. *)
Theorem prefilter_without_signal (toLowerCase : jsstring -> jsstring)
    (question : jsstring) (chunks : list jsstring) (cap : Z) :
  0 <= cap ->
  let result := Index.prefilterChunks toLowerCase question chunks cap in
  let terms := Index.queryTerms toLowerCase question in
  (terms = [] \/
   (forall c t, In c chunks -> In t terms ->
                includes (toLowerCase c) t = false) ->
   result = range (Z.min cap (len chunks)) /\
   len result = Z.min cap (len chunks) /\
   forall i, 0 <= i < Z.min cap (len chunks) -> at_ result i = Some i) /\
  len result <= cap.
Proof.
  intros Hcap result terms. split.
  - intro Hno.
    assert (Hr : result = range (Z.min cap (len chunks))).
    { subst result. unfold Index.prefilterChunks. cbv zeta. fold terms.
      destruct (len terms =? 0) eqn:E; [reflexivity|].
      destruct Hno as [Hno|Hno];
        [rewrite Hno in E; discriminate|].
      match goal with
      | |- (if match at_ ?l 0 with _ => _ end then _ else _) = _ =>
          destruct (at_ l 0) as [s0|] eqn:E0; [|reflexivity]
      end.
      apply at_0_In in E0.
      apply (Permutation_in s0 (sort_perm _ _)) in E0.
      destruct (scoredOf_scores toLowerCase _ _ _ E0) as [c [Hc Hs]].
      rewrite Hs, chunkScore_count.
      replace (filter (includes (toLowerCase c)) terms) with (@nil jsstring);
        [reflexivity|].
      symmetry. apply filter_none. intros t Ht. apply Hno; assumption. }
    split; [exact Hr|]. rewrite Hr. split.
    + rewrite range_length. pose proof (len_nonneg chunks). lia.
    + apply range_at.
  - subst result. rewrite prefilterChunks_length by assumption. lia.
Qed.

Lemma prefilter_without_signal_witness :
  let question := lit "is it ok" in
  let chunks := [lit "alpha"; lit "beta"; lit "gamma"] in
  0 <= 2 /\ Index.queryTerms asciiLower question = [] /\
  Index.prefilterChunks asciiLower question chunks 2 = [0; 1] /\
  len (Index.prefilterChunks asciiLower question chunks 2) <= 2.
Proof.
  cbv zeta.
  assert (H0 : 0 <= 2) by lia.
  assert (H1 : Index.queryTerms asciiLower (lit "is it ok") = [])
    by (vm_compute; reflexivity).
  destruct (prefilter_without_signal asciiLower (lit "is it ok")
              [lit "alpha"; lit "beta"; lit "gamma"] 2 H0) as [Ha Hb].
  destruct (Ha (or_introl H1)) as [Hr _].
  split; [exact H0|]. split; [exact H1|]. split; [|exact Hb].
  rewrite Hr. vm_compute. reflexivity.
Defined.

(** C6, as the code has it.  For a question with at least one usable
    term, the score of a chunk is the number of entries of the question's
    term list that occur as a substring of the lowercased chunk text: an
    entry counts once however often it occurs in the chunk, and a term
    that the question repeats counts once per repetition.  When the terms
    of the question are pairwise distinct the score is the number of
    distinct terms that occur.  The result is the first min(cap, N)
    indices of the chunks ordered by descending score. *)
Theorem prefilter_scores_and_order (toLowerCase : jsstring -> jsstring)
    (question : jsstring) (chunks : list jsstring) (cap : Z) :
  Index.queryTerms toLowerCase question <> [] -> 0 <= cap ->
  let terms := Index.queryTerms toLowerCase question in
  let scored :=
    mapi (fun c i => {| Index.sc_i := Z.of_nat i;
                        Index.sc_score := Index.chunkScore toLowerCase terms c |})
      chunks in
  (forall c, Index.chunkScore toLowerCase terms c
             = len (filter (includes (toLowerCase c)) terms)) /\
  (NoDup terms ->
   forall c, Index.chunkScore toLowerCase terms c
             = distinctTermScore toLowerCase terms c) /\
  exists ranked,
    Permutation ranked scored /\ StronglySorted scoreDesc ranked /\
    Index.prefilterChunks toLowerCase question chunks cap
    = map Index.sc_i (firstn (Z.to_nat (Z.min cap (len chunks))) ranked).
Proof.
  intros _ Hcap terms scored. split; [|split].
  - intro c. apply chunkScore_count.
  - intros Hnd c. apply chunkScore_distinct. exact Hnd.
  - exists (sort Index.byScoreDesc scored). split; [apply sort_perm|].
    split; [apply sorted_scoreDesc|].
    apply prefilterChunks_sorted_prefix. exact Hcap.
Qed.

Lemma prefilter_scores_and_order_witness :
  let question := lit "What PENALTY?" in
  let chunks :=
    [lit "Intro"; lit "Scope"; lit "Fees"; lit "A late Penalty applies"] in
  Index.queryTerms asciiLower question = [lit "what"; lit "penalty"] /\
  0 <= 2 /\
  Index.chunkScore asciiLower (Index.queryTerms asciiLower question)
    (lit "A late Penalty applies") = 1 /\
  Index.prefilterChunks asciiLower question chunks 2 = [3; 0].
Proof.
  cbv zeta.
  assert (H1 : Index.queryTerms asciiLower (lit "What PENALTY?") <> []).
  { intro H. vm_compute in H. discriminate H. }
  assert (H2 : 0 <= 2) by lia.
  destruct (prefilter_scores_and_order asciiLower (lit "What PENALTY?")
              [lit "Intro"; lit "Scope"; lit "Fees";
               lit "A late Penalty applies"] 2 H1 H2) as [Hs _].
  split; [vm_compute; reflexivity|]. split; [exact H2|].
  split; [rewrite Hs|]; vm_compute; reflexivity.
Defined.

(** C6 as stated fails: a term that the question repeats is counted once
    per repetition, so a chunk that holds one repeated term outranks a
    chunk that holds two distinct terms. *)
Lemma repeated_query_term_counts_again :
  let question := lit "foo foo foo bar baz" in
  let terms := Index.queryTerms asciiLower question in
  terms = [lit "foo"; lit "foo"; lit "foo"; lit "bar"; lit "baz"] /\
  Index.chunkScore asciiLower terms (lit "foo") = 3 /\
  distinctTermScore asciiLower terms (lit "foo") = 1 /\
  Index.chunkScore asciiLower terms (lit "bar baz") = 2 /\
  distinctTermScore asciiLower terms (lit "bar baz") = 2 /\
  Index.prefilterChunks asciiLower question [lit "bar baz"; lit "foo"] 1 = [1].
Proof. cbv zeta. repeat split; vm_compute; reflexivity. Qed.

(* ===================================================================== *)
(** * Binary64 numbers *)
(* ===================================================================== *)

Lemma SFcompare_key (x y : spec_float) :
  x <> S754_nan -> y <> S754_nan ->
  SFcompare x y = Some (lexCompare (sfKey x) (sfKey y)).
Proof.
  intros Hx Hy.
  destruct x as [sx|sx| |sx mx ex], y as [sy|sy| |sy my ey];
    try congruence;
    try (destruct sx; reflexivity); try (destruct sy; reflexivity);
    try (destruct sx, sy; reflexivity).
  destruct sx, sy; try reflexivity. unfold lexCompare. simpl.
  rewrite Z.compare_opp, (Z.compare_antisym ex ey).
  destruct (ex ?= ey); reflexivity.
Qed.

Lemma lexCompare_Lt a b : lexCompare a b = Lt <-> lexLt a b.
Proof.
  unfold lexCompare, lexLt.
  destruct (Z.compare_spec (fst (fst a)) (fst (fst b)));
  destruct (Z.compare_spec (snd (fst a)) (snd (fst b)));
  destruct (Z.compare_spec (snd a) (snd b));
  split; intro; try discriminate; try reflexivity; lia.
Qed.

Lemma lexCompare_Gt a b : lexCompare a b = Gt <-> lexLt b a.
Proof.
  unfold lexCompare, lexLt.
  destruct (Z.compare_spec (fst (fst a)) (fst (fst b)));
  destruct (Z.compare_spec (snd (fst a)) (snd (fst b)));
  destruct (Z.compare_spec (snd a) (snd b));
  split; intro; try discriminate; try reflexivity; lia.
Qed.

Lemma lexCompare_Eq a b : lexCompare a b = Eq <-> ~ lexLt a b /\ ~ lexLt b a.
Proof.
  unfold lexCompare, lexLt.
  destruct (Z.compare_spec (fst (fst a)) (fst (fst b)));
  destruct (Z.compare_spec (snd (fst a)) (snd (fst b)));
  destruct (Z.compare_spec (snd a) (snd b));
  split; intro; try discriminate; try reflexivity; lia.
Qed.

Lemma float_ltb_key (x y : float) :
  notNaN x -> notNaN y ->
  ((x <? y)%float = true <-> lexLt (sfKey (Prim2SF x)) (sfKey (Prim2SF y))).
Proof.
  intros Hx Hy. rewrite ltb_spec. unfold SFltb.
  rewrite SFcompare_key by assumption. rewrite <- lexCompare_Lt.
  destruct (lexCompare _ _); split; congruence.
Qed.

Lemma float_leb_key (x y : float) :
  notNaN x -> notNaN y ->
  ((x <=? y)%float = true <-> ~ lexLt (sfKey (Prim2SF y)) (sfKey (Prim2SF x))).
Proof.
  intros Hx Hy. rewrite leb_spec. unfold SFleb.
  rewrite SFcompare_key by assumption. rewrite <- lexCompare_Gt.
  destruct (lexCompare _ _); split; congruence.
Qed.

Lemma float_leb_notNaN (x y : float) :
  (x <=? y)%float = true -> notNaN x /\ notNaN y.
Proof.
  rewrite leb_spec. unfold notNaN, SFleb.
  destruct (Prim2SF x), (Prim2SF y); simpl; try discriminate;
    intros _; split; discriminate.
Qed.

Lemma float_isNaN_false (x : float) : (x =? x)%float = true <-> notNaN x.
Proof.
  rewrite eqb_spec. unfold notNaN, SFeqb. split.
  - destruct (Prim2SF x); simpl; try discriminate; intros _; discriminate.
  - intro H. rewrite SFcompare_key by assumption.
    replace (lexCompare _ _) with Eq; [reflexivity|].
    symmetry. apply lexCompare_Eq. unfold lexLt. lia.
Qed.

Lemma float_leb_trans (x y z : float) :
  (x <=? y)%float = true -> (y <=? z)%float = true -> (x <=? z)%float = true.
Proof.
  intros H1 H2.
  destruct (float_leb_notNaN _ _ H1) as [Hx Hy].
  destruct (float_leb_notNaN _ _ H2) as [_ Hz].
  rewrite float_leb_key in * by assumption. unfold lexLt in *. lia.
Qed.

Lemma float_leb_total (x y : float) :
  notNaN x -> notNaN y -> (x <? y)%float = false -> (y <=? x)%float = true.
Proof.
  intros Hx Hy H. apply float_leb_key; [assumption..|].
  intro L. apply float_ltb_key in L; [|assumption..]. congruence.
Qed.

Lemma float_ltb_leb (x y : float) :
  notNaN x -> notNaN y -> (x <? y)%float = true -> (x <=? y)%float = true.
Proof.
  intros Hx Hy H. apply float_ltb_key in H; [|assumption..].
  apply float_leb_key; [assumption..|]. unfold lexLt in *. lia.
Qed.

Lemma float_leb_refl (x : float) : notNaN x -> (x <=? x)%float = true.
Proof. intro H. apply float_leb_key; [assumption..|]. unfold lexLt. lia. Qed.



(** ** The sign of a rounded difference *)

Lemma digits2_size (m : positive) : digits2_pos m = Pos.size m.
Proof. induction m; simpl; congruence. Qed.

Lemma digits2_lower (m : positive) : 2 ^ (Zpos (digits2_pos m) - 1) <= Zpos m.
Proof.
  rewrite digits2_size. pose proof (Pos.size_le m) as H.
  apply Pos2Z.pos_le_pos in H. rewrite Pos2Z.inj_pow, (Pos2Z.inj_xO m) in H.
  replace (Zpos (Pos.size m)) with (Z.succ (Zpos (Pos.size m) - 1)) in H by lia.
  rewrite Z.pow_succ_r in H by lia. lia.
Qed.

Lemma digits2_upper (m : positive) : Zpos m < 2 ^ Zpos (digits2_pos m).
Proof.
  rewrite digits2_size. pose proof (Pos.size_gt m) as H.
  apply Pos2Z.pos_lt_pos in H. rewrite Pos2Z.inj_pow in H. exact H.
Qed.

Lemma shr_1_m (mrs : shr_record) :
  0 <= shr_m mrs -> shr_m (shr_1 mrs) = shr_m mrs / 2.
Proof.
  destruct mrs as [m r s]. simpl. intro H.
  rewrite <- Z.div2_div.
  destruct m as [|p|p]; [reflexivity| |lia].
  destruct p; reflexivity.
Qed.

Lemma iter_shr_1_m (p : positive) :
  forall mrs, 0 <= shr_m mrs ->
    shr_m (iter_pos shr_1 p mrs) = shr_m mrs / 2 ^ Zpos p.
Proof.
  assert (P2 : forall q, 0 < 2 ^ Zpos q) by (intro; apply Z.pow_pos_nonneg; lia).
  induction p as [p IH|p IH|]; intros mrs H; simpl iter_pos.
  - assert (H1 : 0 <= shr_m (shr_1 mrs)).
    { rewrite shr_1_m by assumption. apply Z.div_pos; lia. }
    assert (H2 : 0 <= shr_m (iter_pos shr_1 p (shr_1 mrs))).
    { rewrite IH by assumption. apply Z.div_pos; [lia|apply P2]. }
    rewrite IH, IH, shr_1_m by assumption.
    rewrite !Z.div_div by (try apply P2; try lia; pose proof (P2 p); lia).
    f_equal. rewrite (Pos2Z.inj_xI p).
    replace (2 * Zpos p + 1) with (1 + Zpos p + Zpos p) by lia.
    rewrite !Z.pow_add_r by lia. lia.
  - assert (H2 : 0 <= shr_m (iter_pos shr_1 p mrs)).
    { rewrite IH by assumption. apply Z.div_pos; [lia|apply P2]. }
    rewrite IH, IH by assumption.
    rewrite Z.div_div by (try apply P2; pose proof (P2 p); lia).
    f_equal. rewrite (Pos2Z.inj_xO p).
    replace (2 * Zpos p) with (Zpos p + Zpos p) by lia.
    rewrite Z.pow_add_r by lia. reflexivity.
  - rewrite shr_1_m by assumption. reflexivity.
Qed.

(** Shifting a positive mantissa by fewer bits than it has leaves a
    positive mantissa. *)
Lemma shr_positive (m : positive) (r s : bool) (e n : Z) :
  n < Zpos (digits2_pos m) ->
  0 < shr_m (fst (shr {| shr_m := Zpos m; shr_r := r; shr_s := s |} e n)).
Proof.
  intro H. unfold shr. destruct n as [|p|p]; simpl fst; simpl shr_m; try lia.
  rewrite iter_shr_1_m by (simpl; lia). simpl shr_m.
  apply Z.div_str_pos. split; [apply Z.pow_pos_nonneg; lia|].
  eapply Z.le_trans; [|apply digits2_lower].
  apply Z.pow_le_mono_r; lia.
Qed.

Lemma shr_exponent (mrs : shr_record) (e n : Z) : e <= snd (shr mrs e n).
Proof. unfold shr. destruct n; simpl; lia. Qed.

Lemma shr_fexp_positive (m : positive) (e : Z) (l : location) :
  emin <= e ->
  0 < shr_m (fst (shr_fexp prec emax (Zpos m) e l)) /\
  emin <= snd (shr_fexp prec emax (Zpos m) e l).
Proof.
  intro He. unfold shr_fexp. split.
  - assert (Hn : fexp prec emax (Zdigits2 (Zpos m) + e) - e
                 < Zpos (digits2_pos m)).
    { unfold fexp, SpecFloat.emin, prec, emax in *. simpl Zdigits2. lia. }
    destruct l as [|[| |]]; simpl shr_record_of_loc;
      apply shr_positive; exact Hn.
  - eapply Z.le_trans; [exact He|apply shr_exponent].
Qed.

Lemma round_nearest_even_positive (m : Z) (l : location) :
  0 < m -> 0 < round_nearest_even m l.
Proof.
  intro H. unfold round_nearest_even.
  destruct l as [|[| |]]; try lia. destruct (Z.even m); lia.
Qed.

Lemma binary_round_aux_sign (sx : bool) (m : positive) (e : Z) (l : location) :
  emin <= e ->
  isPositive (binary_round_aux prec emax sx (Zpos m) e l) = negb sx.
Proof.
  intro He. unfold binary_round_aux.
  destruct (shr_fexp_positive m e l He) as [H1 H2].
  destruct (shr_fexp prec emax (Zpos m) e l) as [mrs' e'].
  simpl fst in H1. simpl snd in H2.
  pose proof (round_nearest_even_positive _ (loc_of_shr_record mrs') H1) as H3.
  destruct (round_nearest_even (shr_m mrs') (loc_of_shr_record mrs'))
    as [|m2|m2]; try lia.
  destruct (shr_fexp_positive m2 e' loc_Exact H2) as [H4 _].
  destruct (shr_fexp prec emax (Zpos m2) e' loc_Exact) as [mrs'' e''].
  simpl fst in H4.
  destruct (shr_m mrs'') as [|m3|m3]; try lia.
  destruct (e'' <=? emax - prec); destruct sx; reflexivity.
Qed.

Lemma binary_round_sign (sx : bool) (m : positive) (e : Z) :
  emin <= e -> isPositive (binary_round prec emax sx m e) = negb sx.
Proof.
  intro He. unfold binary_round.
  destruct (shl_align m e (fexp prec emax (Zpos (digits2_pos m) + e)))
    as [mz ez] eqn:E.
  apply binary_round_aux_sign.
  unfold shl_align in E.
  destruct (fexp prec emax (Zpos (digits2_pos m) + e) - e) eqn:E2;
    injection E as _ <-; try exact He.
  unfold fexp, SpecFloat.emin, prec, emax in *. lia.
Qed.

Lemma binary_normalize_sign (d e : Z) :
  emin <= e -> isPositive (binary_normalize prec emax d e false) = (0 <? d).
Proof.
  intro He. destruct d as [|m|m]; simpl binary_normalize.
  - reflexivity.
  - apply (binary_round_sign false m e He).
  - apply (binary_round_sign true m e He).
Qed.

Lemma iter_xO_value (m d : positive) :
  Zpos (Pos.iter xO m d) = Zpos m * 2 ^ Zpos d.
Proof.
  apply (Pos.iter_ind _ xO m (fun p a => Zpos a = Zpos m * 2 ^ Zpos p)).
  - rewrite (Pos2Z.inj_xO m). lia.
  - intros p a H. rewrite (Pos2Z.inj_xO a), H, Pos2Z.inj_succ.
    rewrite Z.pow_succ_r by lia. lia.
Qed.

Lemma shl_align_value (m : positive) (e ez : Z) :
  ez <= e -> Zpos (fst (shl_align m e ez)) = Zpos m * 2 ^ (e - ez).
Proof.
  intro H. unfold shl_align. destruct (ez - e) as [|p|p] eqn:E; simpl fst.
  - replace (e - ez) with 0 by lia. lia.
  - lia.
  - rewrite iter_xO_value. f_equal. f_equal. lia.
Qed.

Lemma bounded_emin (m : positive) (e : Z) :
  bounded prec emax m e = true -> emin <= e.
Proof.
  unfold bounded, canonical_mantissa, fexp, SpecFloat.emin, prec, emax.
  intro H. apply andb_prop in H. destruct H as [H _].
  apply Z.eqb_eq in H. lia.
Qed.

(** Of two canonical mantissas, the one with the larger exponent is the
    larger value. *)
Lemma canonical_lt (mx my : positive) (ex ey : Z) :
  bounded prec emax mx ex = true -> bounded prec emax my ey = true ->
  ex < ey -> Zpos mx < Zpos my * 2 ^ (ey - ex).
Proof.
  unfold bounded, canonical_mantissa, fexp, SpecFloat.emin, prec, emax.
  intros Hx Hy Hlt.
  apply andb_prop in Hx. destruct Hx as [Hx _]. apply Z.eqb_eq in Hx.
  apply andb_prop in Hy. destruct Hy as [Hy _]. apply Z.eqb_eq in Hy.
  assert (Dy : Zpos (digits2_pos my) = 53) by lia.
  assert (Dx : Zpos (digits2_pos mx) <= 53) by lia.
  pose proof (digits2_upper mx) as Ux.
  pose proof (digits2_lower my) as Ly. rewrite Dy in Ly.
  assert (Px : 2 ^ Zpos (digits2_pos mx) <= 2 ^ 53)
    by (apply Z.pow_le_mono_r; lia).
  assert (Pe : 2 ^ 1 <= 2 ^ (ey - ex)) by (apply Z.pow_le_mono_r; lia).
  change (2 ^ 1) with 2 in Pe.
  replace (2 ^ 53) with (2 ^ (53 - 1) * 2) in Px by reflexivity.
  nia.
Qed.

Lemma SFltb_zero (d : spec_float) :
  SFltb (S754_zero false) d = isPositive d.
Proof. destruct d as [s|s| |s m e]; try reflexivity; destruct s; reflexivity. Qed.

Lemma SFsub_sign (x y : spec_float) :
  valid_binary x = true -> valid_binary y = true ->
  x <> S754_nan -> y <> S754_nan ->
  isPositive (SFsub prec emax y x) = SFltb x y.
Proof.
  intros Vx Vy Nx Ny.
  destruct x as [sx|sx| |sx mx ex], y as [sy|sy| |sy my ey];
    try congruence;
    try (destruct sx; reflexivity); try (destruct sy; reflexivity);
    try (destruct sx, sy; reflexivity).
  simpl in Vx, Vy.
  pose proof (bounded_emin _ _ Vx) as Ex. pose proof (bounded_emin _ _ Vy) as Ey.
  unfold SFsub. cbv zeta.
  rewrite binary_normalize_sign by lia.
  pose proof (shl_align_value my ey (Z.min ey ex) ltac:(lia)) as Ay.
  pose proof (shl_align_value mx ex (Z.min ey ex) ltac:(lia)) as Ax.
  unfold SFltb, SFcompare.
  assert (P0 : 0 < 2 ^ (ey - Z.min ey ex)) by (apply Z.pow_pos_nonneg; lia).
  assert (P1 : 0 < 2 ^ (ex - Z.min ey ex)) by (apply Z.pow_pos_nonneg; lia).
  destruct sx, sy; unfold cond_Zopp.
  - (* both negative *)
    destruct (Z.compare_spec ex ey) as [E|E|E].
    + subst ey. rewrite Z.min_id in *. rewrite Z.sub_diag in *.
      change (2 ^ 0) with 1 in *. change (Pos.compare_cont Eq mx my) with (Pos.compare mx my).
      destruct (Pos.compare_spec mx my) as [C|C|C];
        cbv beta iota delta [CompOpp];
        [apply Z.ltb_ge|apply Z.ltb_ge|apply Z.ltb_lt]; lia.
    + pose proof (canonical_lt _ _ _ _ Vx Vy E) as C.
      rewrite Z.min_r in * by lia. rewrite Z.sub_diag in *.
      change (2 ^ 0) with 1 in *. apply Z.ltb_ge. lia.
    + pose proof (canonical_lt _ _ _ _ Vy Vx E) as C.
      rewrite Z.min_l in * by lia. rewrite Z.sub_diag in *.
      change (2 ^ 0) with 1 in *. apply Z.ltb_lt. lia.
  - apply Z.ltb_lt. lia.
  - apply Z.ltb_ge. lia.
  - (* both positive *)
    destruct (Z.compare_spec ex ey) as [E|E|E].
    + subst ey. rewrite Z.min_id in *. rewrite Z.sub_diag in *.
      change (2 ^ 0) with 1 in *. change (Pos.compare_cont Eq mx my) with (Pos.compare mx my).
      destruct (Pos.compare_spec mx my) as [C|C|C];
        [apply Z.ltb_ge|apply Z.ltb_lt|apply Z.ltb_ge]; lia.
    + pose proof (canonical_lt _ _ _ _ Vx Vy E) as C.
      rewrite Z.min_r in * by lia. rewrite Z.sub_diag in *.
      change (2 ^ 0) with 1 in *. apply Z.ltb_lt. lia.
    + pose proof (canonical_lt _ _ _ _ Vy Vx E) as C.
      rewrite Z.min_l in * by lia. rewrite Z.sub_diag in *.
      change (2 ^ 0) with 1 in *. apply Z.ltb_ge. lia.
Qed.

(** The sign of a difference decides the order: for two numbers that are
    not NaN, [y - x > 0] exactly when [x < y]. *)
Lemma sub_pos_ltb (x y : float) :
  Prim2SF x <> S754_nan -> Prim2SF y <> S754_nan ->
  (0 <? y - x)%float = (x <? y)%float.
Proof.
  intros Nx Ny. rewrite !ltb_spec, sub_spec.
  change (Prim2SF 0) with (S754_zero false). rewrite SFltb_zero.
  apply SFsub_sign; auto using Prim2SF_valid.
Qed.

Lemma isNaN_notNaN (x : float) : Index.isNaN x = false <-> notNaN x.
Proof.
  unfold Index.isNaN. rewrite negb_false_iff. apply float_isNaN_false.
Qed.

Lemma neg_infinity_least (x : float) :
  notNaN x -> (neg_infinity <=? x)%float = true.
Proof.
  intro H. rewrite leb_spec. change (Prim2SF neg_infinity) with (S754_infinity true).
  unfold notNaN in H.
  destruct (Prim2SF x) as [s|s| |s m e]; try congruence; try reflexivity.
  destruct s; reflexivity.
Qed.

Lemma classify_PZero (x : float) : classify x = PZero -> Prim2SF x = S754_zero false.
Proof.
  rewrite classify_spec. unfold SF64classify, SFclassify.
  destruct (Prim2SF x) as [s|s| |s m e]; try (destruct s; discriminate);
    try discriminate.
  - destruct s; [discriminate|reflexivity].
  - destruct s; destruct (Z.pos (digits2_pos m) =? prec); discriminate.
Qed.

Lemma classify_NZero (x : float) : classify x = NZero -> Prim2SF x = S754_zero true.
Proof.
  rewrite classify_spec. unfold SF64classify, SFclassify.
  destruct (Prim2SF x) as [s|s| |s m e]; try (destruct s; discriminate);
    try discriminate.
  - destruct s; [reflexivity|discriminate].
  - destruct s; destruct (Z.pos (digits2_pos m) =? prec); discriminate.
Qed.

(** One step of [Math.max] keeps the larger of the running maximum and
    the next argument. *)
Lemma max_step (highest x : float) :
  notNaN highest -> notNaN x ->
  let h1 := match classify x, classify highest with
            | PZero, NZero => x
            | _, _ => highest
            end in
  let h2 := if (h1 <? x)%float then x else h1 in
  (h2 = highest \/ h2 = x) /\
  (highest <=? h2)%float = true /\ (x <=? h2)%float = true.
Proof.
  intros Hh Hx h1 h2.
  assert (C : h1 = highest \/
              h1 = x /\ (highest <=? x)%float = true).
  { subst h1. destruct (classify x) eqn:Cx; auto.
    destruct (classify highest) eqn:Ch; auto.
    right. split; [reflexivity|].
    rewrite leb_spec, (classify_PZero _ Cx), (classify_NZero _ Ch).
    reflexivity. }
  subst h2. destruct C as [->|[-> Hle]].
  - destruct (highest <? x)%float eqn:E.
    + split; [auto|]. split; [apply float_ltb_leb; assumption|].
      apply float_leb_refl; assumption.
    + split; [auto|]. split; [apply float_leb_refl; assumption|].
      apply float_leb_total; assumption.
  - assert (E : (x <? x)%float = false).
    { destruct (x <? x)%float eqn:E; [|reflexivity].
      apply float_ltb_key in E; [|assumption..]. unfold lexLt in E. lia. }
    rewrite E. split; [auto|]. split; [exact Hle|].
    apply float_leb_refl; assumption.
Qed.

Lemma maxFrom_spec (xs : list float) :
  Forall notNaN xs ->
  forall highest, notNaN highest ->
    let r := Index.maxFrom highest xs in
    (r = highest \/ In r xs) /\
    (highest <=? r)%float = true /\
    (forall x, In x xs -> (x <=? r)%float = true).
Proof.
  induction 1 as [|x xs Hx Hxs IH]; intros highest Hh; simpl.
  - split; [auto|]. split; [apply float_leb_refl; assumption|]. tauto.
  - apply isNaN_notNaN in Hx as Hn. rewrite Hn.
    destruct (max_step highest x Hh Hx) as [Hin [H1 H2]].
    cbv zeta in Hin, H1, H2.
    match goal with
    | |- context [Index.maxFrom ?h xs] => set (h2 := h) in *
    end.
    assert (Hh2 : notNaN h2) by (destruct Hin as [->| ->]; assumption).
    destruct (IH h2 Hh2) as [Hr [Hle Hall]]. cbv zeta in Hr, Hle, Hall.
    split; [|split].
    + destruct Hr as [Hr|Hr]; [|auto].
      rewrite Hr. destruct Hin as [->| ->]; auto.
    + eapply float_leb_trans; eassumption.
    + intros y [<-|Hy]; [eapply float_leb_trans; eassumption|].
      apply Hall. exact Hy.
Qed.

(* ===================================================================== *)
(** * Dynamic top-K *)
(* ===================================================================== *)

Lemma sorted_simDesc (l : list Index.Sim) :
  Forall (fun a => notNaN (Index.sim_s a)) l ->
  StronglySorted simDesc (sort Index.bySimDesc l).
Proof.
  apply (sort_sorted Index.bySimDesc
           (fun a => notNaN (Index.sim_s a)) simDesc).
  - unfold simDesc. intros x y z H1 H2. eapply float_leb_trans; eassumption.
  - unfold simDesc, Index.bySimDesc. intros x y Hx Hy H.
    rewrite sub_pos_ltb in H by assumption.
    apply float_leb_total; assumption.
  - unfold simDesc, Index.bySimDesc. intros x y Hx Hy H.
    rewrite sub_pos_ltb in H by assumption.
    apply float_ltb_leb; assumption.
Qed.

Lemma indexed_sims_notNaN (sims : list float) :
  Forall notNaN sims ->
  forall k, Forall (fun a => notNaN (Index.sim_s a))
              (mapiFrom (fun s i => {| Index.sim_s := s;
                                       Index.sim_i := Z.of_nat i |}) k sims).
Proof.
  induction 1 as [|s sims Hs _ IH]; intro k; simpl; constructor; auto.
Qed.

Lemma dynamicK_values (maxSim : float) :
  Index.dynamicK maxSim = 2 \/ Index.dynamicK maxSim = 4 \/
  Index.dynamicK maxSim = 6.
Proof.
  unfold Index.dynamicK. destruct (0.8 <=? maxSim)%float; [auto|].
  destruct (maxSim <? 0.6)%float; auto.
Qed.

Lemma selectTopIdx_length (sims : list float) :
  len (Index.selectTopIdx sims)
  = Z.min (Index.dynamicK (Index.Math_max sims)) (len sims).
Proof.
  pose proof (dynamicK_values (Index.Math_max sims)) as Hk.
  unfold Index.selectTopIdx. rewrite slice_prefix by lia. unfold len.
  rewrite length_map, length_firstn. unfold Index.rankSims.
  rewrite sort_length. unfold mapi. rewrite mapiFrom_length. lia.
Qed.

(** C1. For a non-empty list of similarity scores, none of them NaN:
    maxSim is the greatest score; K is 2 when maxSim >= 0.8, 6 when
    maxSim < 0.6 and 4 otherwise; the selection has exactly
    min(K, number of candidates) entries; and it is the first K entries of
    the candidates arranged by descending similarity. *)
Theorem dynamic_top_k (sims : list float) :
  sims <> [] -> Forall (fun s => Index.isNaN s = false) sims ->
  let maxSim := Index.Math_max sims in
  let k := Index.dynamicK maxSim in
  let candidates :=
    mapi (fun s i => {| Index.sim_s := s; Index.sim_i := Z.of_nat i |}) sims in
  ((forall s, In s sims -> (s <=? maxSim)%float = true) /\
   (exists s, In s sims /\ (maxSim <=? s)%float = true)) /\
  (((0.8 <=? maxSim)%float = true -> k = 2) /\
   ((maxSim <? 0.6)%float = true -> k = 6) /\
   ((0.8 <=? maxSim)%float = false -> (maxSim <? 0.6)%float = false -> k = 4)) /\
  len (Index.selectTopIdx sims) = Z.min k (len sims) /\
  exists ranked,
    Permutation ranked candidates /\ StronglySorted simDesc ranked /\
    Index.selectTopIdx sims = map Index.sim_i (firstn (Z.to_nat k) ranked).
Proof.
  intros Hne Hnan maxSim k candidates.
  assert (Hn : Forall notNaN sims).
  { eapply Forall_impl; [|exact Hnan]. intros s. apply isNaN_notNaN. }
  assert (Hninf : notNaN neg_infinity) by (unfold notNaN; discriminate).
  destruct (maxFrom_spec sims Hn neg_infinity Hninf) as [Hin [_ Hall]].
  cbv zeta in Hin, Hall. fold (Index.Math_max sims) in Hin, Hall.
  fold maxSim in Hin, Hall.
  assert (Hk : k = 2 \/ k = 4 \/ k = 6).
  { subst k. unfold Index.dynamicK.
    destruct (0.8 <=? maxSim)%float; [auto|].
    destruct (maxSim <? 0.6)%float; auto. }
  split; [split|split; [|split]].
  - exact Hall.
  - destruct Hin as [Hin|Hin].
    + destruct sims as [|s sims']; [congruence|]. exists s.
      split; [left; reflexivity|]. rewrite Hin.
      apply neg_infinity_least. inversion Hn; assumption.
    + exists maxSim. split; [exact Hin|]. apply float_leb_refl.
      rewrite Forall_forall in Hn. apply Hn. exact Hin.
  - subst k. unfold Index.dynamicK. repeat split.
    + intros ->. reflexivity.
    + intro H. destruct (0.8 <=? maxSim)%float eqn:E; [|rewrite H; reflexivity].
      exfalso.
      destruct (float_leb_notNaN _ _ E) as [H8 Hm].
      assert (H6 : notNaN 0.6%float) by (unfold notNaN; vm_compute; discriminate).
      apply float_ltb_key in H; [|assumption..].
      apply float_leb_key in E; [|assumption..].
      assert (L : lexLt (sfKey (Prim2SF 0.6)) (sfKey (Prim2SF 0.8)))
        by (vm_compute; right; split; [reflexivity|right; split; [reflexivity|reflexivity]]).
      unfold lexLt in *. lia.
    + intros -> ->. reflexivity.
  - unfold Index.selectTopIdx. fold maxSim. fold k.
    rewrite slice_prefix by lia. unfold len.
    rewrite length_map, length_firstn. unfold Index.rankSims.
    rewrite sort_length. unfold mapi. rewrite mapiFrom_length. lia.
  - exists (Index.rankSims sims). split; [apply sort_perm|].
    split; [apply sorted_simDesc, indexed_sims_notNaN; exact Hn|].
    unfold Index.selectTopIdx. fold maxSim. fold k.
    rewrite slice_prefix by lia. reflexivity.
Qed.

Lemma dynamic_top_k_witness :
  let sims := [0.1; 0.9; 0.5; 0.9]%float in
  sims <> [] /\ Forall (fun s => Index.isNaN s = false) sims /\
  Index.dynamicK (Index.Math_max sims) = 2 /\
  len (Index.selectTopIdx sims) = 2 /\
  Index.selectTopIdx sims = [1; 3].
Proof.
  cbv zeta.
  assert (H1 : [0.1; 0.9; 0.5; 0.9]%float <> []) by discriminate.
  assert (H2 : Forall (fun s => Index.isNaN s = false)
                 [0.1; 0.9; 0.5; 0.9]%float)
    by (repeat constructor).
  destruct (dynamic_top_k _ H1 H2) as [_ [[Hk _] [Hlen _]]].
  split; [exact H1|]. split; [exact H2|].
  split; [apply Hk; vm_compute; reflexivity|].
  split; [rewrite Hlen|]; vm_compute; reflexivity.
Defined.

(* ===================================================================== *)
(** * Cosine similarity *)
(* ===================================================================== *)









(* ===================================================================== *)
(** * The orchestrator *)
(* ===================================================================== *)

Section Monad.
Context {AI : Type}.

Lemma bind_inr {X Y} (m : Index.M AI X) (k : X -> Index.M AI Y) w w' y :
  Index.bind m k w = (w', inr y) ->
  exists w1 x, m w = (w1, inr x) /\ k x w1 = (w', inr y).
Proof.
  unfold Index.bind. destruct (m w) as [w1 [e|x]]; [discriminate|].
  intro H. exists w1, x. auto.
Qed.

Lemma bind_inl {X Y} (m : Index.M AI X) (k : X -> Index.M AI Y) w w' e :
  Index.bind m k w = (w', inl e) ->
  m w = (w', inl e) \/
  exists w1 x, m w = (w1, inr x) /\ k x w1 = (w', inl e).
Proof.
  unfold Index.bind. destruct (m w) as [w1 [e1|x]].
  - intro H. left. congruence.
  - intro H. right. exists w1, x. auto.
Qed.

Lemma bind_of_inr {X Y} (m : Index.M AI X) (k : X -> Index.M AI Y) w w1 x :
  m w = (w1, inr x) -> Index.bind m k w = k x w1.
Proof. unfold Index.bind. intros ->. reflexivity. Qed.

Lemma bind_of_inl {X Y} (m : Index.M AI X) (k : X -> Index.M AI Y) w w1 e :
  m w = (w1, inl e) -> Index.bind m k w = (w1, inl e).
Proof. unfold Index.bind. intros ->. reflexivity. Qed.

(** *** Steps that throw nothing but [internal] *)

Lemma ti_ret {X} (x : X) : ThrowsInternal (Index.ret (AI := AI) x).
Proof. intros w w' e H. discriminate H. Qed.

Lemma ti_unexpected {X} : ThrowsInternal (@Index.unexpected AI X).
Proof. intros w w' e H. injection H as _ <-. reflexivity. Qed.

Lemma ti_bind {X Y} (m : Index.M AI X) (k : X -> Index.M AI Y) :
  ThrowsInternal m -> (forall x, ThrowsInternal (k x)) ->
  ThrowsInternal (Index.bind m k).
Proof.
  intros Hm Hk w w' e H. apply bind_inl in H.
  destruct H as [H|[w1 [x [_ H]]]]; [eapply Hm|eapply Hk]; eassumption.
Qed.

Lemma ti_orUnexpected {X} (o : option X) :
  ThrowsInternal (Index.orUnexpected (AI := AI) o).
Proof. destruct o; [apply ti_ret|apply ti_unexpected]. Qed.

Lemma ti_withAI {X} (call : AI -> AI * X) : ThrowsInternal (Index.withAI call).
Proof.
  intros w w' e H. unfold Index.withAI in H.
  destruct (call (Index.ai w)). discriminate H.
Qed.

Lemma ti_pick {X} (xs : list X) (idx : list Z) :
  ThrowsInternal (Index.pick (AI := AI) xs idx).
Proof.
  induction idx as [|i idx IH]; simpl; [apply ti_ret|].
  apply ti_bind; [apply ti_orUnexpected|]. intro x.
  apply ti_bind; [exact IH|]. intro rest. apply ti_ret.
Qed.

Lemma ti_backfill documentId toBackfill :
  ThrowsInternal (Index.backfill (AI := AI) documentId toBackfill).
Proof.
  intros w w' e H. unfold Index.backfill in H.
  destruct (0 <? len toBackfill); [|discriminate H].
  destruct (Index.backfillCommitFails (Index.faults w)); discriminate H.
Qed.

(** *** Steps that do not look at the commit fault *)







(** *** Steps that depend on the service only *)







End Monad.

Ltac throws_internal :=
  repeat first
    [ apply ti_ret | apply ti_unexpected | apply ti_orUnexpected
    | apply ti_withAI | apply ti_pick | apply ti_backfill
    | apply ti_bind; [|intro]
    | match goal with
      | |- ThrowsInternal (match ?x with (_, _) => _ end) => destruct x
      | |- ThrowsInternal (if ?c then _ else _) => destruct c
      end ].



Section OrchestratorFacts.
Variable toLowerCase : jsstring -> jsstring.
Variable AI : Type.
Variable embedContent :
  AI -> Index.TaskType -> jsstring -> AI * option (list float).
Variable batchEmbedContents :
  AI -> list jsstring -> AI * option (list (list float)).
Variable generateContent : AI -> Index.Prompt -> AI * option jsstring.

Local Abbreviation askQuestion :=
  (Index.askQuestion toLowerCase embedContent batchEmbedContents
     generateContent).
Local Abbreviation answerFromDocument :=
  (Index.answerFromDocument toLowerCase embedContent batchEmbedContents
     generateContent).
Local Abbreviation World := (Index.World AI).

Lemma ti_embed taskType t :
  ThrowsInternal (Index.embed embedContent taskType t).
Proof. unfold Index.embed. throws_internal. Qed.


Lemma ti_embedFiltered targetDim filtered :
  ThrowsInternal (Index.embedFiltered embedContent targetDim filtered).
Proof.
  induction filtered as [|c rest IH]; simpl; [apply ti_ret|].
  destruct (Index.embedding c) as [known|];
    [destruct (len known =? targetDim)|];
    repeat first [ apply ti_embed | exact IH | apply ti_ret
                 | apply ti_bind; [|intro]
                 | match goal with
                   | |- ThrowsInternal (match ?x with (_, _) => _ end) =>
                       destruct x
                   end ].
Qed.


Lemma ti_findRelevantChunks question chunks known :
  ThrowsInternal
    (Index.findRelevantChunks embedContent batchEmbedContents question chunks
       known).
Proof.
  unfold Index.findRelevantChunks.
  apply ti_bind; [apply ti_embed|intro]. throws_internal.
Qed.


Lemma ti_conversationMemory userId request :
  ThrowsInternal (Index.conversationMemory generateContent userId request).
Proof.
  unfold Index.conversationMemory.
  destruct (Index.remember request); [|apply ti_ret].
  destruct (Index.sessionId request) as [[|c session]|]; try apply ti_ret.
  intros w w' e.
  destruct (Index.messagesReadFails (Index.faults w)); [apply ti_unexpected|].
  match goal with |- context [if ?c then _ else _] => destruct c end.
  - apply ti_bind; [apply ti_withAI|intro; apply ti_ret].
  - apply ti_ret.
Qed.



Lemma ti_followUpsOf question answer :
  ThrowsInternal (Index.followUpsOf generateContent question answer).
Proof. unfold Index.followUpsOf. throws_internal. Qed.


(** *** Step 2: loading the chunks *)

Lemma blank_condition (t : option jsstring) :
  let documentText := match t with Some t => t | None => [] end in
  negb (truthy documentText) || negb (truthy (trim documentText)) = true
  <-> isBlank t.
Proof.
  cbv zeta. unfold isBlank.
  assert (G : forall s : jsstring,
    negb (truthy s) || negb (truthy (trim s)) = true
    <-> forallb isWhiteSpace s = true).
  { intro s. rewrite <- trim_nil_iff.
    destruct s as [|c s]; [simpl; tauto|].
    replace (negb (truthy (c :: s))) with false by reflexivity.
    rewrite orb_false_l. unfold truthy.
    destruct (trim (c :: s)); simpl; split; auto; discriminate. }
  destruct t as [t|]; [apply G|].
  split; [auto|reflexivity].
Qed.

Lemma loadChunks_not_ready documentId documentData (w : World) :
  Index.chunksReadFails (Index.faults w) = false ->
  Index.chunksOf (Index.firestore w) documentId = [] ->
  isBlank (Index.extractedText documentData) ->
  Index.loadChunks documentId documentData w = (w, inl documentNotReady).
Proof.
  intros Hr Hc Hb. unfold Index.loadChunks. rewrite Hr, Hc. simpl.
  apply blank_condition in Hb. cbv zeta in Hb. rewrite Hb. reflexivity.
Qed.

Lemma loadChunks_fallback documentId documentData (w : World) text :
  Index.chunksReadFails (Index.faults w) = false ->
  Index.chunksOf (Index.firestore w) documentId = [] ->
  Index.extractedText documentData = Some text ->
  ~ isBlank (Some text) ->
  Index.loadChunks documentId documentData w
  = (w, inr (mapi Index.fallbackChunk (Index.chunkTextByWords text 900 120))).
Proof.
  intros Hr Hc Ht Hb. unfold Index.loadChunks. rewrite Hr, Hc, Ht. simpl.
  destruct (negb (truthy text) || negb (truthy (trim text))) eqn:E;
    [|reflexivity].
  exfalso. apply Hb. apply (blank_condition (Some text)). exact E.
Qed.

Lemma loadChunks_stored documentId documentData (w : World) :
  Index.chunksReadFails (Index.faults w) = false ->
  Index.chunksOf (Index.firestore w) documentId <> [] ->
  Index.loadChunks documentId documentData w
  = (w, inr (map Index.storedChunk
               (Index.chunksOf (Index.firestore w) documentId))).
Proof.
  intros Hr Hc. unfold Index.loadChunks. rewrite Hr.
  destruct (Index.chunksOf (Index.firestore w) documentId); [congruence|].
  reflexivity.
Qed.

(** What follows the loading of the chunks throws nothing but
    [internal]. *)
Lemma after_loading_internal userId question documentId request documentData :
  forall (w w1 w' : World) chunks e,
    Index.documentReadFails (Index.faults w) = false ->
    Index.documents (Index.firestore w) documentId = Some documentData ->
    Index.loadChunks documentId documentData w = (w1, inr chunks) ->
    answerFromDocument userId question documentId request w = (w', inl e) ->
    Index.code e = Index.internal.
Proof.
  intros w w1 w' chunks e Hr Hd Hl H.
  unfold Index.answerFromDocument in H.
  rewrite (bind_of_inr _ _ w w (Some documentData)) in H
    by (rewrite Hr, Hd; reflexivity).
  rewrite (bind_of_inr _ _ _ _ _ Hl) in H.
  revert H. generalize w1 w' e.
  apply (ti_bind (Index.conversationMemory generateContent userId request));
    [apply ti_conversationMemory|]. intros [mc st].
  apply ti_bind; [apply ti_pick|]. intro filtered.
  apply ti_bind; [apply ti_findRelevantChunks|]. intros _.
  apply ti_bind; [apply ti_embed|]. intro q.
  apply ti_bind; [apply ti_embedFiltered|]. intros [fc tb].
  apply ti_bind; [apply ti_backfill|]. intros _.
  apply ti_bind; [apply ti_pick|]. intro topChunks.
  apply ti_bind; [apply ti_withAI|]. intro r.
  apply ti_bind; [apply ti_orUnexpected|]. intro answer.
  apply ti_bind; [apply ti_followUpsOf|]. intro fu. apply ti_ret.
Qed.

Lemma askQuestion_valid request (w : World) userId question documentId :
  Index.auth_uid request = Some userId -> userId <> [] ->
  Index.nonBlank (Index.question request) = Some question ->
  Index.nonBlank (Index.documentId request) = Some documentId ->
  Index.apiKey w <> [] ->
  askQuestion request w
  = answerFromDocument userId question documentId request w.
Proof.
  intros Hu Hne Hq Hd Hk. unfold Index.askQuestion. rewrite Hu, Hq, Hd.
  destruct userId as [|c u]; [congruence|].
  destruct (Index.apiKey w); [congruence|]. reflexivity.
Qed.

(** C7. For a valid request on an existing document whose reads go
    through: when the document has no stored chunk record and its
    extracted text is not blank, the chunks are those of the extracted
    text split on the fly with targetWords 900 and overlapWords 120, the
    i-th of them with the identifier fallback_<i> and no embedding; and
    the call fails with the "document not ready" error exactly when there is
    no stored chunk record and the extracted text is absent or made of
    whitespace only. *)
Theorem document_not_ready_iff (request : Index.Request) (w : World)
    (userId question documentId : jsstring)
    (documentData : Index.DocumentData) :
  Index.auth_uid request = Some userId -> userId <> [] ->
  Index.nonBlank (Index.question request) = Some question ->
  Index.nonBlank (Index.documentId request) = Some documentId ->
  Index.apiKey w <> [] ->
  Index.documentReadFails (Index.faults w) = false ->
  Index.chunksReadFails (Index.faults w) = false ->
  Index.documents (Index.firestore w) documentId = Some documentData ->
  let stored := Index.chunksOf (Index.firestore w) documentId in
  let text := Index.extractedText documentData in
  (stored = [] -> ~ isBlank text ->
   exists t, text = Some t /\
     Index.loadChunks documentId documentData w
     = (w, inr (mapi (fun c i =>
                        {| Index.id := lit "fallback_" ++ decimal i;
                           Index.index := Z.of_nat i;
                           Index.text := c;
                           Index.embedding := None |})
                  (Index.chunkTextByWords t 900 120)))) /\
  (snd (askQuestion request w) = inl documentNotReady
   <-> stored = [] /\ isBlank text).
Proof.
  intros Hu Hne Hq Hd Hk Hrd Hrc Hdoc stored text.
  assert (Hfb : stored = [] -> ~ isBlank text ->
    exists t, text = Some t /\
      Index.loadChunks documentId documentData w
      = (w, inr (mapi Index.fallbackChunk (Index.chunkTextByWords t 900 120)))).
  { intros Hs Hb. subst text.
    destruct (Index.extractedText documentData) as [t|] eqn:Et;
      [|exfalso; apply Hb; exact I].
    exists t. split; [reflexivity|].
    apply loadChunks_fallback; assumption. }
  split; [exact Hfb|].
  rewrite (askQuestion_valid _ _ _ _ _ Hu Hne Hq Hd Hk).
  assert (Hread : (fun w0 : World =>
      if Index.documentReadFails (Index.faults w0) then Index.unexpected w0
      else Index.ret (Index.documents (Index.firestore w0) documentId) w0) w
      = (w, inr (Some documentData))) by (rewrite Hrd, Hdoc; reflexivity).
  split.
  - intro H.
    assert (Hdec : (stored = [] /\ isBlank text) \/
                   exists chunks,
                     Index.loadChunks documentId documentData w
                     = (w, inr chunks)).
    { destruct stored as [|d ds] eqn:Es.
      - destruct (negb (truthy match text with Some t => t | None => [] end)
                  || negb (truthy (trim match text with
                                        | Some t => t | None => [] end)))
          eqn:E.
        + left. split; [reflexivity|]. apply blank_condition. exact E.
        + right. destruct (Hfb eq_refl) as [t [_ Hl]].
          * intro Hb. apply blank_condition in Hb. cbv zeta in Hb. congruence.
          * eexists. exact Hl.
      - right. eexists. apply loadChunks_stored; [assumption|].
        fold stored. rewrite Es. discriminate. }
    destruct Hdec as [Hdec|[chunks Hl]]; [exact Hdec|]. exfalso.
    destruct (answerFromDocument userId question documentId request w)
      as [w' r] eqn:Ea.
    simpl in H. subst r.
    apply (after_loading_internal _ _ _ _ _ _ _ _ _ _ Hrd Hdoc Hl) in Ea.
    discriminate Ea.
  - intros [Hs Hb]. unfold Index.answerFromDocument.
    rewrite (bind_of_inr _ _ _ _ _ Hread).
    rewrite (bind_of_inl _ _ _ _ _
               (loadChunks_not_ready _ _ _ Hrc Hs Hb)).
    reflexivity.
Qed.

(** *** Step 4: the backfill *)





Lemma embed_inr taskType t (w w' : World) v :
  Index.embed embedContent taskType t w = (w', inr v) ->
  Index.firestore w' = Index.firestore w.
Proof.
  unfold Index.embed, Index.bind, Index.withAI.
  destruct (embedContent (Index.ai w) taskType t) as [a [v'|]]; simpl;
    intro H; [|discriminate H].
  injection H as <- _. reflexivity.
Qed.

(** What the loop over the prefiltered chunks enqueues: one item for
    each chunk that had to be embedded again and whose identifier is not a
    fallback identifier, with the vector computed for it. *)
Lemma embedFiltered_items targetDim filtered :
  forall (w w' : World) fc tb,
    Index.embedFiltered embedContent targetDim filtered w = (w', inr (fc, tb)) ->
    length fc = length filtered /\
    Index.firestore w' = Index.firestore w /\
    Forall (fun item =>
      exists n c,
        nth_error filtered n = Some c /\
        nth_error fc n = Some (Index.bf_values item) /\
        Index.bf_id item = Index.id c /\
        isFallbackId (Index.id c) = false /\
        Index.needsEmbedding targetDim (Index.embedding c) = true) tb.
Proof.
  induction filtered as [|c rest IH]; intros w w' fc tb H; simpl in H.
  - injection H as <- <- <-. repeat split. constructor.
  - assert (Hnew : forall (w0 : World),
      Index.needsEmbedding targetDim (Index.embedding c) = true ->
      Index.bind (Index.embed embedContent Index.RETRIEVAL_DOCUMENT (Index.text c))
        (fun vals =>
           Index.bind (Index.embedFiltered embedContent targetDim rest)
             (fun x => let '(filteredComputed, toBackfill) := x in
                Index.ret
                  (vals :: filteredComputed,
                   if negb (startsWith (Index.id c) (lit "fallback_"))
                   then {| Index.bf_id := Index.id c; Index.bf_values := vals |}
                        :: toBackfill
                   else toBackfill))) w0 = (w', inr (fc, tb)) ->
      length fc = S (length rest) /\
      Index.firestore w' = Index.firestore w0 /\
      Forall (fun item =>
        exists n c0,
          nth_error (c :: rest) n = Some c0 /\
          nth_error fc n = Some (Index.bf_values item) /\
          Index.bf_id item = Index.id c0 /\
          isFallbackId (Index.id c0) = false /\
          Index.needsEmbedding targetDim (Index.embedding c0) = true) tb).
    { intros w0 Hneed H0.
      apply bind_inr in H0. destruct H0 as [w1 [vals [He H0]]].
      apply bind_inr in H0. destruct H0 as [w2 [[fc' tb'] [Hr H0]]].
      apply embed_inr in He.
      destruct (IH _ _ _ _ Hr) as [Hlen [Hfs Hall]].
      assert (Hshift : Forall (fun item =>
        exists n c0,
          nth_error (c :: rest) n = Some c0 /\
          nth_error (vals :: fc') n = Some (Index.bf_values item) /\
          Index.bf_id item = Index.id c0 /\
          isFallbackId (Index.id c0) = false /\
          Index.needsEmbedding targetDim (Index.embedding c0) = true) tb').
      { eapply Forall_impl; [|exact Hall].
        intros item [n [c0 Hn]]. exists (S n), c0. exact Hn. }
      unfold Index.ret in H0.
      destruct (negb (startsWith (Index.id c) (lit "fallback_"))) eqn:Ef;
        injection H0 as <- <- <-; simpl;
        (split; [lia|]); (split; [congruence|]); [|exact Hshift].
      constructor; [|exact Hshift].
      exists 0%nat, c. simpl. repeat split; auto.
      unfold isFallbackId. apply negb_true_iff. exact Ef. }
    destruct (Index.embedding c) as [known|] eqn:Ek.
    + destruct (len known =? targetDim) eqn:Ed.
      * apply bind_inr in H. destruct H as [w2 [[fc' tb'] [Hr H0]]].
        destruct (IH _ _ _ _ Hr) as [Hlen [Hfs Hall]].
        injection H0 as <- <- <-. simpl. split; [lia|]. split; [exact Hfs|].
        eapply Forall_impl; [|exact Hall].
        intros item [n [c0 Hn]]. exists (S n), c0. exact Hn.
      * apply Hnew; [|exact H]. simpl. rewrite Ed. reflexivity.
    + apply Hnew; [|exact H]. reflexivity.
Qed.





(** *** The size of the evidence set *)

Lemma loadChunks_nonempty documentId documentData (w w1 : World) chunks :
  Index.loadChunks documentId documentData w = (w1, inr chunks) ->
  chunks <> [].
Proof.
  unfold Index.loadChunks.
  destruct (Index.chunksReadFails (Index.faults w)); [discriminate|].
  destruct (Index.chunksOf (Index.firestore w) documentId) as [|d ds].
  - simpl.
    destruct (Index.extractedText documentData) as [t|].
    + destruct (negb (truthy t) || negb (truthy (trim t))) eqn:E;
        [discriminate|].
      intro H. injection H as _ <-.
      assert (Hb : ~ isBlank (Some t)).
      { intro Hb. apply (blank_condition (Some t)) in Hb.
        cbv zeta in Hb. congruence. }
      pose proof (chunkTextByWords_nonempty t 900 120 Hb ltac:(lia)) as Hne.
      destruct (Index.chunkTextByWords t 900 120); [congruence|discriminate].
    + simpl. discriminate.
  - simpl. intro H. injection H as _ <-. discriminate.
Qed.

Lemma pick_length {X} (xs : list X) (idx : list Z) :
  forall (w w' : World) l,
    Index.pick xs idx w = (w', inr l) -> length l = length idx.
Proof.
  induction idx as [|i idx IH]; intros w w' l H; simpl in H.
  - injection H as _ <-. reflexivity.
  - apply bind_inr in H. destruct H as [w1 [x [_ H]]].
    apply bind_inr in H. destruct H as [w2 [rest [Hr H]]].
    injection H as _ <-. simpl. f_equal. eapply IH. exact Hr.
Qed.

(** C10. In a successful call the chunk list that was loaded is not
    empty, the prefilter keeps min(60, N) >= 1 candidates of its N chunks,
    K is 2, 4 or 6, and the citations number min(K, candidates): between 1
    and 6; the top chunk identifiers are the identifiers of the cited
    chunks in the same order. *)
Theorem evidence_set_size (request : Index.Request) (w w' : World)
    (resp : Index.Response) :
  askQuestion request w = (w', inr resp) ->
  (exists documentId documentData (w0 w1 : World) chunks k,
     Index.loadChunks documentId documentData w0 = (w1, inr chunks) /\
     chunks <> [] /\
     1 <= Z.min 60 (len chunks) /\
     (k = 2 \/ k = 4 \/ k = 6) /\
     len (Index.citations resp) = Z.min k (Z.min 60 (len chunks))) /\
  1 <= len (Index.citations resp) <= 6 /\
  len (Index.topChunkIds resp) = len (Index.citations resp) /\
  Index.topChunkIds resp = map Index.chunkId (Index.citations resp).
Proof.
  unfold Index.askQuestion.
  destruct (Index.auth_uid request) as [[|c u]|]; try discriminate.
  destruct (Index.nonBlank (Index.question request)) as [question|];
    [|discriminate].
  destruct (Index.nonBlank (Index.documentId request)) as [documentId|];
    [|discriminate].
  destruct (isEmpty (Index.apiKey w)); [discriminate|].
  unfold Index.answerFromDocument. intro H.
  apply bind_inr in H. destruct H as [w1 [[documentData|] [_ H]]];
    [|discriminate].
  apply bind_inr in H. destruct H as [w2 [chunks [Hload H]]].
  apply bind_inr in H. destruct H as [w3 [[mc st] [_ H]]].
  apply bind_inr in H. destruct H as [w4 [filtered [Hpick H]]].
  apply bind_inr in H. destruct H as [w5 [rel [_ H]]].
  apply bind_inr in H. destruct H as [w6 [q [_ H]]].
  apply bind_inr in H. destruct H as [w7 [[fc tb] [Hemb H]]].
  apply bind_inr in H. destruct H as [w8 [[] [_ H]]].
  apply bind_inr in H. destruct H as [w9 [topChunks [Htop H]]].
  apply bind_inr in H. destruct H as [w10 [r [_ H]]].
  apply bind_inr in H. destruct H as [w11 [answer [_ H]]].
  apply bind_inr in H. destruct H as [w12 [fu [_ H]]].
  injection H as _ <-. simpl.
  pose proof (loadChunks_nonempty _ _ _ _ _ Hload) as Hne.
  apply pick_length in Hpick. apply pick_length in Htop.
  destruct (embedFiltered_items _ _ _ _ _ _ Hemb) as [Hfc _].
  pose proof (prefilterChunks_length toLowerCase question
                (map Index.text chunks) 60 ltac:(lia)) as Hpre.
  match type of Htop with
  | _ = length (Index.selectTopIdx ?sims) =>
      pose proof (selectTopIdx_length sims) as Hsel;
      pose proof (dynamicK_values (Index.Math_max sims)) as Hk;
      set (k := Index.dynamicK (Index.Math_max sims)) in *
  end.
  unfold len in *. rewrite !length_map in *.
  assert (0 < length chunks)%nat by (destruct chunks; [congruence|simpl; lia]).
  split; [|split; [lia|split; [lia|rewrite map_map; reflexivity]]].
  exists documentId, documentData, w1, w2, chunks, k.
  split; [exact Hload|]. split; [exact Hne|]. split; [lia|].
  split; [exact Hk|]. lia.
Qed.

End OrchestratorFacts.

(** *** The statements at work on the example world *)

Lemma document_not_ready_iff_witness :
  snd (sampleAsk (sampleWorld [] (Some (lit "  ")))) = inl documentNotReady /\
  Index.loadChunks (lit "doc1")
    {| Index.extractedText := Some (lit "Late fees apply.") |}
    (sampleWorld [] (Some (lit "Late fees apply.")))
  = (sampleWorld [] (Some (lit "Late fees apply.")),
     inr [ {| Index.id := lit "fallback_0"; Index.index := 0;
              Index.text := lit "Late fees apply.";
              Index.embedding := None |} ]).
Proof.
  split.
  - pose proof (document_not_ready_iff asciiLower nat sampleEmbed sampleBatch
                  sampleGenerate sampleRequest
                  (sampleWorld [] (Some (lit "  ")))
                  (lit "u1") (lit "What is the penalty?") (lit "doc1")
                  {| Index.extractedText := Some (lit "  ") |}
                  eq_refl ltac:(discriminate) eq_refl eq_refl
                  ltac:(discriminate) eq_refl eq_refl eq_refl) as [_ H].
    apply H. split; reflexivity.
  - pose proof (document_not_ready_iff asciiLower nat sampleEmbed sampleBatch
                  sampleGenerate sampleRequest
                  (sampleWorld [] (Some (lit "Late fees apply.")))
                  (lit "u1") (lit "What is the penalty?") (lit "doc1")
                  {| Index.extractedText := Some (lit "Late fees apply.") |}
                  eq_refl ltac:(discriminate) eq_refl eq_refl
                  ltac:(discriminate) eq_refl eq_refl eq_refl) as [H _].
    destruct (H eq_refl) as [t [Ht Hl]].
    + intro Hb. vm_compute in Hb. discriminate Hb.
    + injection Ht as <-. rewrite Hl. vm_compute. reflexivity.
Defined.


Lemma evidence_set_size_witness :
  exists w' resp,
    sampleAsk (sampleWorld sampleStored None) = (w', inr resp) /\
    1 <= len (Index.citations resp) <= 6 /\
    Index.topChunkIds resp = [lit "c2"; lit "c1"].
Proof.
  destruct (sampleAsk (sampleWorld sampleStored None)) as [w' [e|resp]] eqn:E.
  - exfalso. vm_compute in E. discriminate E.
  - exists w', resp. split; [reflexivity|].
    destruct (evidence_set_size asciiLower nat sampleEmbed sampleBatch
                sampleGenerate sampleRequest _ _ _ E) as [_ [H1 _]].
    split; [exact H1|].
    vm_compute in E. injection E as _ <-. reflexivity.
Defined.

(* ===================================================================== *)
(** * Selections *)
(* ===================================================================== *)

Lemma partOf_refl {A} (xs : list A) : partOf xs xs.
Proof. exists []. rewrite app_nil_r. reflexivity. Qed.

Lemma partOf_trans {A} (xs ys zs : list A) :
  partOf xs ys -> partOf ys zs -> partOf xs zs.
Proof.
  intros [r1 H1] [r2 H2]. exists (r1 ++ r2).
  rewrite app_assoc, H1. exact H2.
Qed.

Lemma partOf_firstn {A} (xs : list A) k : partOf (firstn k xs) xs.
Proof. exists (skipn k xs). rewrite firstn_skipn. reflexivity. Qed.

Lemma partOf_map {A B} (f : A -> B) (sel xs : list A) :
  partOf sel xs -> partOf (map f sel) (map f xs).
Proof.
  intros [rest H]. exists (map f rest). rewrite <- map_app.
  apply Permutation_map. exact H.
Qed.

Lemma partOf_perm {A} (sel xs ys : list A) :
  partOf sel xs -> Permutation xs ys -> partOf sel ys.
Proof. intros [rest H] P. exists rest. rewrite H. exact P. Qed.

Lemma partOf_NoDup {A} (sel xs : list A) :
  partOf sel xs -> NoDup xs -> NoDup sel.
Proof.
  intros [rest H] Hn. apply Permutation_sym in H.
  apply (Permutation_NoDup H) in Hn. apply NoDup_app_remove_r in Hn. exact Hn.
Qed.

Lemma partOf_In {A} (sel xs : list A) x :
  partOf sel xs -> In x sel -> In x xs.
Proof.
  intros [rest H] Hin. apply (Permutation_in _ H). apply in_or_app. auto.
Qed.

Lemma partOf_length {A} (sel xs : list A) :
  partOf sel xs -> (length sel <= length xs)%nat.
Proof.
  intros [rest H]. apply Permutation_length in H. rewrite length_app in H. lia.
Qed.

Lemma range_NoDup (n : Z) : NoDup (range n).
Proof.
  unfold range. apply NoDup_map_NoDup_ForallPairs; [|apply seq_NoDup].
  intros a b _ _ H. lia.
Qed.

Lemma range_In (n i : Z) : In i (range n) <-> 0 <= i < n.
Proof.
  unfold range. rewrite in_map_iff. split.
  - intros [k [<- Hk]]. apply in_seq in Hk. lia.
  - intro H. exists (Z.to_nat i). split; [lia|]. apply in_seq. lia.
Qed.

Lemma range_part (k n : Z) : k <= n -> partOf (range k) (range n).
Proof.
  intro H. destruct (Z.le_gt_cases 0 k) as [Hk|Hk].
  - rewrite <- (firstn_range k n) by lia. apply partOf_firstn.
  - unfold range at 1. replace (Z.to_nat k) with 0%nat by lia. simpl.
    exists (range n). reflexivity.
Qed.

Lemma slice_zero {A} (l : list A) (e : Z) :
  slice l 0 e = firstn (Z.to_nat (relIndex (len l) e)) l.
Proof.
  unfold slice. pose proof (len_nonneg l).
  replace (relIndex (len l) 0) with 0
    by (unfold relIndex; simpl; lia).
  rewrite Z.sub_0_r. reflexivity.
Qed.

Lemma nth_error_seq (A : Type) (xs : list A) :
  map (nth_error xs) (seq 0 (length xs)) = map Some xs.
Proof.
  induction xs as [|x xs IH]; [reflexivity|].
  simpl length. rewrite <- cons_seq, <- seq_shift. simpl. f_equal.
  rewrite map_map. exact IH.
Qed.

Lemma at_range {A} (xs : list A) :
  map (at_ xs) (range (len xs)) = map Some xs.
Proof.
  unfold range, len. rewrite Nat2Z.id, map_map.
  rewrite <- nth_error_seq. apply map_ext. intro i. unfold at_.
  destruct (Z.of_nat i <? 0) eqn:E; [apply Z.ltb_lt in E; lia|].
  rewrite Nat2Z.id. reflexivity.
Qed.

Lemma map_Some_inj {A} (l l' : list A) : map Some l = map Some l' -> l = l'.
Proof.
  revert l'. induction l as [|x l IH]; intros [|y l'] H; try discriminate;
    [reflexivity|].
  simpl in H. injection H as -> H. f_equal. auto.
Qed.

(** Entries read at indices that are part of [0 .. len xs - 1] are part
    of [xs]. *)
Lemma partOf_at {A} (xs sel : list A) (idx : list Z) :
  partOf idx (range (len xs)) ->
  map (at_ xs) idx = map Some sel -> partOf sel xs.
Proof.
  intros [rest P] H.
  apply (Permutation_map (at_ xs)) in P. rewrite at_range in P.
  apply Permutation_map_inv in P. destruct P as [l3 [E P]].
  rewrite map_app, H in E.
  exists (skipn (length sel) l3).
  apply Permutation_sym.
  replace (sel ++ skipn (length sel) l3) with l3; [exact P|].
  rewrite <- (firstn_skipn (length sel) l3) at 1. f_equal.
  apply map_Some_inj.
  apply (f_equal (firstn (length sel))) in E.
  rewrite <- (length_map Some sel) in E at 1.
  rewrite firstn_app, firstn_all, Nat.sub_diag, firstn_O, app_nil_r in E.
  rewrite <- firstn_map, E. reflexivity.
Qed.

Lemma at_Some_bounds {A} (xs : list A) i x :
  at_ xs i = Some x -> 0 <= i < len xs.
Proof.
  unfold at_. destruct (i <? 0) eqn:E; [discriminate|].
  apply Z.ltb_ge in E. intro H.
  assert (nth_error xs (Z.to_nat i) <> None) by congruence.
  apply nth_error_Some in H0. unfold len. lia.
Qed.

Section PrefilterIndices.
Variable toLowerCase : jsstring -> jsstring.

Lemma prefilterChunks_part question chunks cap :
  partOf (Index.prefilterChunks toLowerCase question chunks cap)
    (range (len chunks)).
Proof.
  unfold Index.prefilterChunks. cbv zeta.
  set (terms := Index.queryTerms toLowerCase question).
  set (take := Z.min cap (len chunks)).
  assert (Hr : partOf (range take) (range (len chunks)))
    by (apply range_part; subst take; lia).
  destruct (len terms =? 0); [exact Hr|].
  match goal with
  | |- context [sort Index.byScoreDesc ?l] => set (scored := l)
  end.
  destruct (match at_ (sort Index.byScoreDesc scored) 0 with
            | Some s0 => 0 <? Index.sc_score s0
            | None => false
            end); [|exact Hr].
  rewrite slice_zero.
  eapply partOf_perm.
  - apply partOf_map. apply partOf_firstn.
  - rewrite (sort_perm Index.byScoreDesc scored). subst scored.
    unfold mapi, range, len. rewrite Nat2Z.id.
    rewrite (mapiFrom_map Index.sc_i _ Z.of_nat); reflexivity.
Qed.

End PrefilterIndices.

Lemma rankSims_part (sims : list float) k :
  partOf (map Index.sim_i (firstn k (Index.rankSims sims)))
    (range (len sims)).
Proof.
  eapply partOf_perm.
  - apply partOf_map. apply partOf_firstn.
  - unfold Index.rankSims. rewrite sort_perm.
    unfold mapi, range, len. rewrite Nat2Z.id.
    rewrite (mapiFrom_map Index.sim_i _ Z.of_nat); reflexivity.
Qed.

Lemma selectTopIdx_part (sims : list float) :
  partOf (Index.selectTopIdx sims) (range (len sims)).
Proof. unfold Index.selectTopIdx. rewrite slice_zero. apply rankSims_part. Qed.

Lemma at_in_bounds {A} (xs : list A) i :
  0 <= i < len xs -> exists x, at_ xs i = Some x.
Proof.
  intro H. unfold at_. destruct (i <? 0) eqn:E; [apply Z.ltb_lt in E; lia|].
  destruct (nth_error xs (Z.to_nat i)) as [x|] eqn:N; [eauto|].
  apply nth_error_None in N. unfold len in H. lia.
Qed.

Section MoreMonad.
Context {AI : Type}.

Lemma pick_inr {X} (xs : list X) (idx : list Z) :
  forall (w w' : Index.World AI) l,
    Index.pick xs idx w = (w', inr l) ->
    w' = w /\ map (at_ xs) idx = map Some l.
Proof.
  induction idx as [|i idx IH]; intros w w' l H; simpl in H.
  - injection H as <- <-. auto.
  - apply bind_inr in H. destruct H as [w1 [x [Hx H]]].
    apply bind_inr in H. destruct H as [w2 [rest [Hr H]]].
    injection H as <- <-.
    destruct (at_ xs i) as [y|] eqn:E; simpl in Hx; [|discriminate].
    injection Hx as <- <-. destruct (IH _ _ _ Hr) as [-> Hm].
    split; [reflexivity|]. simpl. rewrite E, Hm. reflexivity.
Qed.

Lemma pick_total {X} (xs : list X) (idx : list Z) (w : Index.World AI) :
  Forall (fun i => 0 <= i < len xs) idx ->
  exists l, Index.pick xs idx w = (w, inr l).
Proof.
  induction 1 as [|i idx Hi _ [l IH]]; simpl.
  - exists []. reflexivity.
  - destruct (at_in_bounds xs i Hi) as [x Hx]. exists (x :: l).
    unfold Index.bind. rewrite Hx. simpl. rewrite IH. reflexivity.
Qed.

End MoreMonad.

Lemma partOf_bounds (idx : list Z) n :
  partOf idx (range n) -> NoDup idx /\ Forall (fun i => 0 <= i < n) idx.
Proof.
  intro H. split.
  - eapply partOf_NoDup; [exact H|apply range_NoDup].
  - apply Forall_forall. intros i Hi. apply range_In.
    eapply partOf_In; eassumption.
Qed.

Section Pipeline.
Variable toLowerCase : jsstring -> jsstring.
Variable AI : Type.
Variable embedContent :
  AI -> Index.TaskType -> jsstring -> AI * option (list float).
Variable batchEmbedContents :
  AI -> list jsstring -> AI * option (list (list float)).
Variable generateContent : AI -> Index.Prompt -> AI * option jsstring.

Local Abbreviation askQuestion :=
  (Index.askQuestion toLowerCase embedContent batchEmbedContents
     generateContent).
Local Abbreviation World := (Index.World AI).

Lemma loadChunks_world documentId documentData (w w1 : World) r :
  Index.loadChunks documentId documentData w = (w1, r) -> w1 = w.
Proof.
  unfold Index.loadChunks.
  destruct (Index.chunksReadFails (Index.faults w));
    [intro H; injection H as <- _; reflexivity|].
  destruct (negb (isEmpty (Index.chunksOf (Index.firestore w) documentId)));
    [intro H; injection H as <- _; reflexivity|].
  match goal with |- context [if ?c then _ else _] => destruct c end;
    intro H; injection H as <- _; reflexivity.
Qed.

(** The steps of a call that succeeds. *)
Lemma askQuestion_inr request (w w' : World) resp :
  askQuestion request w = (w', inr resp) ->
  exists userId question documentId documentData chunks filtered sims
         topChunks answer (w1 : World),
    Index.auth_uid request = Some userId /\ userId <> [] /\
    Index.nonBlank (Index.question request) = Some question /\
    Index.nonBlank (Index.documentId request) = Some documentId /\
    Index.apiKey w <> [] /\
    Index.documentReadFails (Index.faults w) = false /\
    Index.documents (Index.firestore w) documentId = Some documentData /\
    Index.loadChunks documentId documentData w = (w, inr chunks) /\
    map (at_ chunks)
      (Index.prefilterChunks toLowerCase question (map Index.text chunks) 60)
    = map Some filtered /\
    len sims = len filtered /\
    map (at_ filtered) (Index.selectTopIdx sims) = map Some topChunks /\
    Index.followUpsOf generateContent question answer w1
    = (w', inr (Index.followUps resp)) /\
    Index.answer resp = answer /\
    Index.citations resp
    = map (fun c => {| Index.chunkId := Index.id c;
                       Index.snippet := slice (Index.text c) 0 200 |})
        topChunks /\
    Index.flaggedClauses resp = Index.detectRiskyClauses toLowerCase topChunks /\
    Index.topChunkIds resp = map Index.id topChunks.
Proof.
  unfold Index.askQuestion.
  destruct (Index.auth_uid request) as [[|c u]|] eqn:Eu; try discriminate.
  destruct (Index.nonBlank (Index.question request)) as [question|] eqn:Eq;
    [|discriminate].
  destruct (Index.nonBlank (Index.documentId request)) as [documentId|] eqn:Ed;
    [|discriminate].
  destruct (isEmpty (Index.apiKey w)) eqn:Ek; [discriminate|].
  unfold Index.answerFromDocument. intro H.
  apply bind_inr in H. destruct H as [w1 [doc [Hdoc H]]].
  destruct (Index.documentReadFails (Index.faults w)) eqn:Er;
    [discriminate Hdoc|].
  injection Hdoc as <- <-.
  destruct (Index.documents (Index.firestore w) documentId)
    as [documentData|] eqn:Edoc; [|discriminate].
  apply bind_inr in H. destruct H as [w2 [chunks [Hload H]]].
  pose proof (loadChunks_world _ _ _ _ _ Hload) as ->.
  apply bind_inr in H. destruct H as [w3 [[mc st] [_ H]]].
  apply bind_inr in H. destruct H as [w4 [filtered [Hpick H]]].
  apply bind_inr in H. destruct H as [w5 [rel [_ H]]].
  apply bind_inr in H. destruct H as [w6 [q [_ H]]].
  apply bind_inr in H. destruct H as [w7 [[fc tb] [Hemb H]]].
  apply bind_inr in H. destruct H as [w8 [[] [_ H]]].
  apply bind_inr in H. destruct H as [w9 [topChunks [Htop H]]].
  apply bind_inr in H. destruct H as [w10 [r [_ H]]].
  apply bind_inr in H. destruct H as [w11 [answer [_ H]]].
  apply bind_inr in H. destruct H as [w12 [fu [Hfu H]]].
  injection H as <- <-. simpl.
  apply pick_inr in Hpick. destruct Hpick as [_ Hpick].
  apply pick_inr in Htop. destruct Htop as [_ Htop].
  apply embedFiltered_items in Hemb. destruct Hemb as [Hfc _].
  eexists (c :: u), question, documentId, documentData, chunks, filtered, _,
    topChunks, answer, w11.
  repeat split; try reflexivity; try eassumption; try discriminate.
  - destruct (Index.apiKey w); [discriminate|discriminate].
  - unfold len. rewrite length_map, Hfc. reflexivity.
Qed.

End Pipeline.


(* ===================================================================== *)
(** * Flags and follow-up lines *)
(* ===================================================================== *)

Lemma Forall2_firstn {A B} (R : A -> B -> Prop) (l : list A) (l' : list B) k :
  Forall2 R l l' -> Forall2 R (firstn k l) (firstn k l').
Proof.
  intro H. revert k. induction H as [|x y l l' Hxy _ IH]; intros [|k]; simpl;
    constructor; auto.
Qed.

Section Flags.
Variable toLowerCase : jsstring -> jsstring.

Lemma detectRiskyClauses_flags (chunks : list Index.Chunk) :
  Forall2 (flagOf toLowerCase)
    (Index.detectRiskyClauses toLowerCase chunks)
    (firstn 8 (filter (mentions toLowerCase allKeywords) chunks)).
Proof.
  unfold Index.detectRiskyClauses. cbv zeta.
  rewrite slice_prefix by lia. apply Forall2_firstn.
  induction chunks as [|c chunks IH]; [constructor|].
  cbn [flat_map filter].
  assert (E : mentions toLowerCase allKeywords c
              = mentions toLowerCase Index.HIGH_keywords c
                || (mentions toLowerCase Index.MED_keywords c
                    || mentions toLowerCase Index.LOW_keywords c)).
  { unfold mentions, allKeywords. rewrite !existsb_app. reflexivity. }
  rewrite E.
  change (existsb (includes (toLowerCase (Index.text c))) Index.HIGH_keywords)
    with (mentions toLowerCase Index.HIGH_keywords c).
  change (existsb (includes (toLowerCase (Index.text c))) Index.MED_keywords)
    with (mentions toLowerCase Index.MED_keywords c).
  change (existsb (includes (toLowerCase (Index.text c))) Index.LOW_keywords)
    with (mentions toLowerCase Index.LOW_keywords c).
  destruct (mentions toLowerCase Index.HIGH_keywords c) eqn:EH;
    [|destruct (mentions toLowerCase Index.MED_keywords c) eqn:EM;
      [|destruct (mentions toLowerCase Index.LOW_keywords c) eqn:EL]];
    cbn [orb app]; try exact IH;
    (constructor; [|exact IH]);
    unfold flagOf; cbn [Index.fl_chunkId Index.fl_text Index.fl_risk];
    rewrite ?EH, ?EM, ?EL;
    (split; [reflexivity|]);
    (split; [apply slice_prefix; lia|]);
    repeat split; intros; try discriminate; try reflexivity;
    try (destruct H; discriminate).
Qed.

End Flags.

Lemma dropWhile_suffix {A} (p : A -> bool) (l : list A) :
  exists pre, l = pre ++ dropWhile p l.
Proof.
  induction l as [|c l [pre IH]]; simpl.
  - exists []. reflexivity.
  - destruct (p c).
    + exists (c :: pre). simpl. f_equal. exact IH.
    + exists []. reflexivity.
Qed.

Lemma dropWhile_idem {A} (p : A -> bool) (l : list A) :
  dropWhile p (dropWhile p l) = dropWhile p l.
Proof.
  induction l as [|c l IH]; simpl; [reflexivity|].
  destruct (p c) eqn:E; [exact IH|]. simpl. rewrite E. reflexivity.
Qed.

(** What [trim] leaves is a prefix of the string stripped in front. *)
Lemma trim_prefix (s : jsstring) :
  exists suf, dropWhile isWhiteSpace s = trim s ++ suf.
Proof.
  unfold trim.
  destruct (dropWhile_suffix isWhiteSpace (rev (dropWhile isWhiteSpace s)))
    as [pre H].
  exists (rev pre). rewrite <- rev_app_distr, <- H, rev_involutive.
  reflexivity.
Qed.

Lemma trim_head (s : jsstring) c r :
  trim s = c :: r -> isWhiteSpace c = false.
Proof.
  intro H. destruct (trim_prefix s) as [suf E]. rewrite H in E.
  simpl in E. eapply dropWhile_head. exact E.
Qed.

Lemma trim_idem (s : jsstring) : trim (trim s) = trim s.
Proof.
  assert (H1 : dropWhile isWhiteSpace (trim s) = trim s).
  { destruct (trim s) as [|c r] eqn:E; [reflexivity|].
    apply trim_head in E. simpl. rewrite E. reflexivity. }
  unfold trim at 1. rewrite H1. unfold trim.
  rewrite rev_involutive, dropWhile_idem. reflexivity.
Qed.

Lemma isBullet_whitespace c : Index.isBullet c = false -> isWhiteSpace c = false.
Proof. unfold Index.isBullet. intro H. apply orb_false_iff in H. tauto. Qed.

(** A line stripped of its list marker and trimmed, when something is
    left of it. *)
Lemma stripped_line_clean (l : jsstring) :
  truthy (trim (dropWhile Index.isBullet l)) = true ->
  cleanLine (trim (dropWhile Index.isBullet l)).
Proof.
  intro Ht. split; [|apply trim_idem].
  destruct (trim (dropWhile Index.isBullet l)) as [|c r] eqn:E;
    [discriminate Ht|].
  destruct (trim_prefix (dropWhile Index.isBullet l)) as [suf P].
  rewrite E in P.
  destruct (dropWhile Index.isBullet l) as [|d rest] eqn:D; [discriminate P|].
  pose proof (dropWhile_head _ _ _ _ D) as Hd.
  simpl in P. rewrite (isBullet_whitespace _ Hd) in P.
  injection P as -> _. exact Hd.
Qed.

Section MorePipeline.
Variable toLowerCase : jsstring -> jsstring.
Variable AI : Type.
Variable embedContent :
  AI -> Index.TaskType -> jsstring -> AI * option (list float).
Variable batchEmbedContents :
  AI -> list jsstring -> AI * option (list (list float)).
Variable generateContent : AI -> Index.Prompt -> AI * option jsstring.

Local Abbreviation askQuestion :=
  (Index.askQuestion toLowerCase embedContent batchEmbedContents
     generateContent).
Local Abbreviation World := (Index.World AI).

Lemma followUpsOf_lines question answer (w : World) :
  exists w' fu,
    Index.followUpsOf generateContent question answer w = (w', inr fu) /\
    len fu <= 2 /\ Forall cleanLine fu /\
    (snd (generateContent (Index.ai w)
            (Index.FollowUpPrompt question answer)) = None -> fu = []).
Proof.
  unfold Index.followUpsOf, Index.bind, Index.withAI.
  destruct (generateContent (Index.ai w)
              (Index.FollowUpPrompt question answer)) as [a [fuText|]];
    simpl; eexists _, _; (split; [reflexivity|]).
  - split; [|split; [|discriminate]].
    + rewrite slice_length by lia. lia.
    + rewrite slice_prefix by lia. apply Forall_firstn.
      apply Forall_forall. intros q Hq. apply filter_In in Hq.
      destruct Hq as [Hq Ht]. apply in_map_iff in Hq.
      destruct Hq as [l [<- _]]. apply stripped_line_clean. exact Ht.
  - split; [unfold len; simpl; lia|]. split; [constructor|reflexivity].
Qed.

End MorePipeline.


(* ===================================================================== *)
(** * Citations, flags and follow-ups of askQuestion *)
(* ===================================================================== *)

Section PipelineFacts.
Variable toLowerCase : jsstring -> jsstring.
Variable AI : Type.
Variable embedContent :
  AI -> Index.TaskType -> jsstring -> AI * option (list float).
Variable batchEmbedContents :
  AI -> list jsstring -> AI * option (list (list float)).
Variable generateContent : AI -> Index.Prompt -> AI * option jsstring.

Local Abbreviation askQuestion :=
  (Index.askQuestion toLowerCase embedContent batchEmbedContents
     generateContent).
Local Abbreviation World := (Index.World AI).

(** The chunks cited by a call that succeeds are part of the chunks that
    were loaded. *)
Lemma topChunks_part chunks filtered sims topChunks question :
  map (at_ chunks)
    (Index.prefilterChunks toLowerCase question (map Index.text chunks) 60)
  = map Some filtered ->
  len sims = len filtered ->
  map (at_ filtered) (Index.selectTopIdx sims) = map Some topChunks ->
  partOf topChunks chunks /\ (length topChunks <= 6)%nat.
Proof.
  intros Hpick Hlen Htop. split.
  - apply (partOf_trans _ filtered).
    + eapply partOf_at; [|exact Htop]. rewrite <- Hlen.
      apply selectTopIdx_part.
    + eapply partOf_at; [|exact Hpick].
      replace (len chunks) with (len (map Index.text chunks))
        by (unfold len; rewrite length_map; reflexivity).
      apply prefilterChunks_part.
  - apply (f_equal (@length _)) in Htop. rewrite !length_map in Htop.
    pose proof (selectTopIdx_length sims) as Hs.
    pose proof (dynamicK_values (Index.Math_max sims)) as Hk.
    unfold len in Hs. lia.
Qed.

Lemma citations_of topChunks :
  map (fun c => {| Index.chunkId := Index.id c;
                   Index.snippet := slice (Index.text c) 0 200 |}) topChunks
  = map citationOf topChunks.
Proof.
  apply map_ext. intro c. unfold citationOf.
  rewrite slice_prefix by lia. reflexivity.
Qed.

(** X1. Every citation of a successful call is made from a chunk that
    was loaded for the document: its chunkId is the chunk's identifier and
    its snippet the first 200 code units of the chunk's text.  No loaded
    chunk is cited twice, so the cited identifiers are pairwise distinct
    whenever the loaded chunks have distinct identifiers. *)
Theorem citations_come_from_chunks (request : Index.Request) (w w' : World)
    (resp : Index.Response) :
  askQuestion request w = (w', inr resp) ->
  exists documentId documentData chunks topChunks,
    Index.documentId request = Some documentId /\
    Index.documents (Index.firestore w) documentId = Some documentData /\
    Index.loadChunks documentId documentData w = (w, inr chunks) /\
    partOf topChunks chunks /\
    Index.citations resp = map citationOf topChunks /\
    Forall (fun c => len (Index.snippet c) <= 200) (Index.citations resp) /\
    (NoDup (map Index.id chunks) ->
     NoDup (map Index.chunkId (Index.citations resp))).
Proof.
  intro H. apply askQuestion_inr in H.
  destruct H as (userId & question & documentId & documentData & chunks &
                 filtered & sims & topChunks & answer & w1 &
                 Hu & Hne & Hq & Hd & Hk & Hr & Hdoc & Hload & Hpick &
                 Hlen & Htop & Hfu & Ha & Hc & Hf & Hids).
  destruct (topChunks_part _ _ _ _ _ Hpick Hlen Htop) as [Hpart _].
  exists documentId, documentData, chunks, topChunks.
  split.
  { unfold Index.nonBlank in Hd.
    destruct (Index.documentId request) as [d|]; [|discriminate].
    destruct (truthy d && truthy (trim d)); [congruence|discriminate]. }
  split; [exact Hdoc|]. split; [exact Hload|]. split; [exact Hpart|].
  rewrite Hc, citations_of. split; [reflexivity|]. split.
  - apply Forall_forall. intros c Hin. apply in_map_iff in Hin.
    destruct Hin as [c0 [<- _]]. unfold citationOf, len.
    cbn [Index.snippet]. rewrite length_firstn. lia.
  - intro Hn. rewrite map_map. simpl.
    eapply partOf_NoDup; [|exact Hn]. apply partOf_map. exact Hpart.
Qed.

(** X2. In a successful call the flagged clauses are, in order, the
    flags of the cited chunks that mention a keyword: none is cut off by
    the limit of eight, and each flagged clause carries the identifier of
    a cited chunk, the first 400 code units of its text and the highest
    risk category among the keywords it mentions. *)
Theorem flagged_clauses_are_cited (request : Index.Request) (w w' : World)
    (resp : Index.Response) :
  askQuestion request w = (w', inr resp) ->
  exists topChunks,
    Index.citations resp = map citationOf topChunks /\
    Forall2 (flagOf toLowerCase) (Index.flaggedClauses resp)
      (filter (mentions toLowerCase allKeywords) topChunks) /\
    len (Index.flaggedClauses resp) <= len (Index.citations resp).
Proof.
  intro H. apply askQuestion_inr in H.
  destruct H as (userId & question & documentId & documentData & chunks &
                 filtered & sims & topChunks & answer & w1 &
                 Hu & Hne & Hq & Hd & Hk & Hr & Hdoc & Hload & Hpick &
                 Hlen & Htop & Hfu & Ha & Hc & Hf & Hids).
  destruct (topChunks_part _ _ _ _ _ Hpick Hlen Htop) as [_ Hsix].
  exists topChunks. rewrite Hc, citations_of. split; [reflexivity|].
  pose proof (detectRiskyClauses_flags toLowerCase topChunks) as HF.
  rewrite <- Hf in HF.
  pose proof (filter_length_le (mentions toLowerCase allKeywords) topChunks)
    as Hle.
  rewrite firstn_all2 in HF by lia.
  split; [exact HF|].
  apply Forall2_length in HF. unfold len. rewrite HF, length_map. lia.
Qed.

(** X3. The follow-up questions of a successful call are at most two
    lines of the generated text, each of them not empty, without a list
    marker (dash, star, digit, dot) or whitespace in front and without
    whitespace at the end.  The step that produces them never throws: when
    the generation is rejected there is no follow-up question. *)
Theorem follow_ups_are_clean (request : Index.Request) (w w' : World)
    (resp : Index.Response) :
  askQuestion request w = (w', inr resp) ->
  len (Index.followUps resp) <= 2 /\
  Forall cleanLine (Index.followUps resp) /\
  (forall question answer (w0 : World),
     exists w1 fu,
       Index.followUpsOf generateContent question answer w0 = (w1, inr fu) /\
       (snd (generateContent (Index.ai w0)
               (Index.FollowUpPrompt question answer)) = None -> fu = [])).
Proof.
  intro H. apply askQuestion_inr in H.
  destruct H as (userId & question & documentId & documentData & chunks &
                 filtered & sims & topChunks & answer & w1 &
                 Hu & Hne & Hq & Hd & Hk & Hr & Hdoc & Hload & Hpick &
                 Hlen & Htop & Hfu & Ha & Hc & Hf & Hids).
  destruct (followUpsOf_lines AI generateContent question answer w1)
    as (w2 & fu & E & H2 & Hclean & _).
  rewrite Hfu in E. injection E as _ <-.
  split; [exact H2|]. split; [exact Hclean|].
  intros q a w0.
  destruct (followUpsOf_lines AI generateContent q a w0)
    as (w3 & fu & E & _ & _ & Hnone).
  exists w3, fu. auto.
Qed.

End PipelineFacts.


(* ===================================================================== *)
(** * Rejections of askQuestion *)
(* ===================================================================== *)

Lemma nonBlank_None (s : option jsstring) :
  Index.nonBlank s = None <-> isBlank s.
Proof.
  rewrite <- blank_condition. cbv zeta. unfold Index.nonBlank.
  destruct s as [s|]; [|simpl; tauto].
  destruct (truthy s), (truthy (trim s)); simpl; split; intro H;
    try reflexivity; discriminate.
Qed.

Lemma nonBlank_Some (s : option jsstring) t :
  Index.nonBlank s = Some t -> s = Some t /\ ~ isBlank s.
Proof.
  intro H. split.
  - unfold Index.nonBlank in H. destruct s as [s|]; [|discriminate].
    destruct (truthy s && truthy (trim s)); [congruence|discriminate].
  - intro B. apply nonBlank_None in B. congruence.
Qed.

Section Rejections.
Variable toLowerCase : jsstring -> jsstring.
Variable AI : Type.
Variable embedContent :
  AI -> Index.TaskType -> jsstring -> AI * option (list float).
Variable batchEmbedContents :
  AI -> list jsstring -> AI * option (list (list float)).
Variable generateContent : AI -> Index.Prompt -> AI * option jsstring.

Local Abbreviation askQuestion :=
  (Index.askQuestion toLowerCase embedContent batchEmbedContents
     generateContent).
Local Abbreviation World := (Index.World AI).

Lemma askQuestion_inl request (w w' : World) e :
  askQuestion request w = (w', inl e) ->
  Cause request w (Index.code e) /\
  (Index.code e <> Index.internal -> w' = w).
Proof.
  unfold Index.askQuestion.
  destruct (Index.auth_uid request) as [[|c u]|] eqn:Eu.
  1, 3: intro H; injection H as <- <-; split; [|reflexivity];
        apply NotSignedIn; intros [u0 [H1 H2]]; congruence.
  assert (Hs : signedIn request) by (exists (c :: u); split; [exact Eu|discriminate]).
  destruct (Index.nonBlank (Index.question request)) as [question|] eqn:Eq.
  2: { intro H; injection H as <- <-; split; [|reflexivity].
       apply BlankArgument; [exact Hs|]. left. apply nonBlank_None. exact Eq. }
  destruct (Index.nonBlank (Index.documentId request)) as [documentId|] eqn:Ed.
  2: { intro H; injection H as <- <-; split; [|reflexivity].
       apply BlankArgument; [exact Hs|]. right. apply nonBlank_None. exact Ed. }
  apply nonBlank_Some in Eq. destruct Eq as [Eq Hq].
  apply nonBlank_Some in Ed. destruct Ed as [Ed Hd].
  destruct (isEmpty (Index.apiKey w)) eqn:Ek.
  { intro H; injection H as <- <-; split; [|reflexivity].
    apply NoApiKey; try assumption.
    destruct (Index.apiKey w); [reflexivity|discriminate]. }
  assert (Hk : Index.apiKey w <> [])
    by (destruct (Index.apiKey w); [discriminate|discriminate]).
  intro H.
  destruct (Index.documentReadFails (Index.faults w)) eqn:Er.
  { unfold Index.answerFromDocument in H.
    rewrite (bind_of_inl _ _ w w
               {| Index.code := Index.internal;
                  Index.message :=
                    "An unexpected error occurred while processing your question." |})
      in H by (rewrite Er; reflexivity).
    injection H as <- <-. split; [|simpl; congruence].
    apply Unexpected; auto. }
  destruct (Index.documents (Index.firestore w) documentId)
    as [documentData|] eqn:Edoc.
  2: { unfold Index.answerFromDocument in H.
       rewrite (bind_of_inr _ _ w w None) in H
         by (rewrite Er, Edoc; reflexivity).
       injection H as <- <-. split; [|reflexivity].
       eapply NoDocument; eauto. }
  destruct (Index.loadChunks documentId documentData w) as [w1 [e1|chunks]]
    eqn:El.
  - pose proof (loadChunks_world _ _ _ _ _ _ El) as ->.
    unfold Index.answerFromDocument in H.
    rewrite (bind_of_inr _ _ w w (Some documentData)) in H
      by (rewrite Er, Edoc; reflexivity).
    rewrite (bind_of_inl _ _ _ _ _ El) in H. injection H as <- <-.
    unfold Index.loadChunks in El.
    destruct (Index.chunksReadFails (Index.faults w)) eqn:Ec.
    { injection El as <-. split; [|simpl; congruence].
      apply Unexpected; auto. right. exists documentId, documentData. auto. }
    destruct (Index.chunksOf (Index.firestore w) documentId) as [|cd cds]
      eqn:Es; [|discriminate El].
    cbn [isEmpty negb] in El.
    match type of El with
    | (if ?c then _ else _) = _ => destruct c eqn:Eb; [|discriminate El]
    end.
    injection El as <-. split; [|reflexivity].
    eapply NoText; eauto.
    apply (blank_condition (Index.extractedText documentData)). exact Eb.
  - pose proof (after_loading_internal toLowerCase AI embedContent
                  batchEmbedContents generateContent
                  _ _ _ _ _ _ _ _ _ _ Er Edoc El H) as Hi.
    rewrite Hi. split; [|congruence].
    apply Unexpected; auto. right. exists documentId, documentData.
    split; [exact Ed|]. split; [exact Edoc|].
    unfold Index.loadChunks in El.
    destruct (Index.chunksReadFails (Index.faults w)); [auto|]. right.
    destruct (Index.chunksOf (Index.firestore w) documentId) as [|cd cds];
      [|left; discriminate].
    right. cbn [isEmpty negb] in El.
    match type of El with
    | (if ?c then _ else _) = _ => destruct c eqn:Eb; [discriminate El|]
    end.
    intro B. apply blank_condition in B. cbv zeta in B. congruence.
Qed.

(** X4. A call that is rejected names its cause.  The code is
    unauthenticated exactly when the request carries no user identifier;
    invalid-argument exactly when the caller is signed in and the question
    or the document identifier is absent or blank; not-found exactly when
    the request is valid, the API key is set, the document read goes
    through and there is no such document; failed-precondition exactly when
    the request is valid and either the API key is not set or the document
    exists without chunk records and without text.  Whenever the code is
    not internal, the call changed nothing: no write, no call to the
    service. *)
Theorem rejections_name_their_cause (request : Index.Request) (w w' : World)
    (e : Index.HttpsError) :
  askQuestion request w = (w', inl e) ->
  let valid :=
    signedIn request /\ ~ isBlank (Index.question request) /\
    ~ isBlank (Index.documentId request) in
  (Index.code e = Index.unauthenticated <-> ~ signedIn request) /\
  (Index.code e = Index.invalid_argument <->
     signedIn request /\
     (isBlank (Index.question request) \/
      isBlank (Index.documentId request))) /\
  (Index.code e = Index.not_found <->
     valid /\ Index.apiKey w <> [] /\
     Index.documentReadFails (Index.faults w) = false /\
     exists d, Index.documentId request = Some d /\
               Index.documents (Index.firestore w) d = None) /\
  (Index.code e = Index.failed_precondition <->
     valid /\
     (Index.apiKey w = [] \/
      Index.documentReadFails (Index.faults w) = false /\
      Index.chunksReadFails (Index.faults w) = false /\
      exists d documentData,
        Index.documentId request = Some d /\
        Index.documents (Index.firestore w) d = Some documentData /\
        Index.chunksOf (Index.firestore w) d = [] /\
        isBlank (Index.extractedText documentData))) /\
  (Index.code e <> Index.internal -> w' = w).
Proof.
  intro H. apply askQuestion_inl in H. destruct H as [HC Hw]. cbv zeta.
  split; [|split; [|split; [|split; [|exact Hw]]]]; split.
  - intro E. rewrite E in HC. inversion HC. assumption.
  - intro N. inversion HC; try tauto.
  - intro E. rewrite E in HC. inversion HC. tauto.
  - intros [S B]. inversion HC; try tauto.
  - intro E. rewrite E in HC. inversion HC. repeat split; try assumption.
    eauto.
  - intros [[S [Q D]] [K [R [d [Ed Edoc]]]]].
    inversion HC as [N|S' B|S' Q' D' K'|d' S' Q' D' K' R' Ed' Edoc'
                     |d' dd S' Q' D' K' R' C' Ed' Edoc' Es B
                     |S' Q' D' K' U]; try tauto; try congruence.
    destruct U as [U|[d' [dd [Ed' [Edoc' _]]]]]; congruence.
  - intro E. rewrite E in HC.
    inversion HC as [N|S' B|S' Q' D' K'|d' S' Q' D' K' R' Ed' Edoc'
                     |d' dd S' Q' D' K' R' C' Ed' Edoc' Es B
                     |S' Q' D' K' U]; (split; [tauto|]); [left; assumption|].
    right. split; [assumption|]. split; [assumption|]. eauto 6.
  - intros [[S [Q D]] Hc].
    inversion HC as [N|S' B|S' Q' D' K'|d' S' Q' D' K' R' Ed' Edoc'
                     |d' dd S' Q' D' K' R' C' Ed' Edoc' Es B
                     |S' Q' D' K' U]; try tauto; try congruence.
    + destruct Hc as [Hc|[R [C [d [dd [Ed [Edoc _]]]]]]]; congruence.
    + destruct Hc as [Hc|[R [C [d [dd [Ed [Edoc [Es B]]]]]]]]; [congruence|].
      destruct U as [U|[d' [dd' [Ed' [Edoc' U]]]]]; [congruence|].
      assert (d' = d) by congruence. subst d'.
      assert (dd' = dd) by congruence. subst dd'.
      destruct U as [U|[U|U]]; [congruence|tauto|tauto].
Qed.

End Rejections.


(* ===================================================================== *)
(** * What askQuestion writes *)
(* ===================================================================== *)

Section Frames.
Context {AI : Type}.

Lemma vo_refl documentId (w : Index.World AI) : VectorsOnly documentId w w.
Proof. repeat split. Qed.

Lemma vo_trans documentId (w1 w2 w3 : Index.World AI) :
  VectorsOnly documentId w1 w2 -> VectorsOnly documentId w2 w3 ->
  VectorsOnly documentId w1 w3.
Proof.
  intros (A1 & A2 & A3 & A4 & A5 & A6) (B1 & B2 & B3 & B4 & B5 & B6).
  split; [congruence|]. split; [congruence|]. split; [congruence|].
  split; [congruence|]. split.
  - intro d. rewrite B5. apply A5.
  - intros d Hd. rewrite B6 by exact Hd. apply A6. exact Hd.
Qed.

Lemma fr_bind {X Y} documentId (m : Index.M AI X) (k : X -> Index.M AI Y) :
  Framed documentId m -> (forall x, Framed documentId (k x)) ->
  Framed documentId (Index.bind m k).
Proof.
  intros Hm Hk w. unfold Index.bind. specialize (Hm w).
  destruct (m w) as [w1 [e|x]]; simpl in *; [exact Hm|].
  eapply vo_trans; [exact Hm|apply Hk].
Qed.

Lemma fr_kept {X} documentId (m : Index.M AI X) :
  StoreKept m -> Framed documentId m.
Proof.
  intros H w. destruct (H w) as (H1 & H2 & H3).
  unfold VectorsOnly. rewrite H1, H2, H3. repeat split.
Qed.

Lemma sk_ret {X} (x : X) : StoreKept (Index.ret (AI := AI) x).
Proof. intro w. repeat split. Qed.

Lemma sk_throw {X} c msg : StoreKept (@Index.throw AI X c msg).
Proof. intro w. repeat split. Qed.

Lemma sk_bind {X Y} (m : Index.M AI X) (k : X -> Index.M AI Y) :
  StoreKept m -> (forall x, StoreKept (k x)) -> StoreKept (Index.bind m k).
Proof.
  intros Hm Hk w. unfold Index.bind. specialize (Hm w).
  destruct (m w) as [w1 [e|x]]; simpl in *; [exact Hm|].
  destruct Hm as (H1 & H2 & H3). destruct (Hk x w1) as (K1 & K2 & K3).
  repeat split; congruence.
Qed.

Lemma sk_orUnexpected {X} (o : option X) :
  StoreKept (Index.orUnexpected (AI := AI) o).
Proof. destruct o; [apply sk_ret|apply sk_throw]. Qed.

Lemma sk_withAI {X} (call : AI -> AI * X) : StoreKept (Index.withAI call).
Proof.
  intro w. unfold Index.withAI. destruct (call (Index.ai w)). repeat split.
Qed.

Lemma sk_pick {X} (xs : list X) (idx : list Z) :
  StoreKept (Index.pick (AI := AI) xs idx).
Proof.
  induction idx as [|i idx IH]; simpl; [apply sk_ret|].
  apply sk_bind; [apply sk_orUnexpected|]. intro x.
  apply sk_bind; [exact IH|]. intro rest. apply sk_ret.
Qed.

Lemma updateEmbedding_content item d :
  chunkContent (Index.updateEmbedding item d) = chunkContent d.
Proof.
  unfold Index.updateEmbedding.
  destruct (Index.eqbString (Index.cd_id d) (Index.bf_id item)); reflexivity.
Qed.

Lemma backfilled_content toBackfill :
  forall docs,
    map chunkContent
      (fold_left (fun docs item => map (Index.updateEmbedding item) docs)
         toBackfill docs)
    = map chunkContent docs.
Proof.
  induction toBackfill as [|item tb IH]; intro docs; simpl; [reflexivity|].
  rewrite IH, map_map. apply map_ext. apply updateEmbedding_content.
Qed.

Lemma eqbString_eq (a b : jsstring) : Index.eqbString a b = true <-> a = b.
Proof.
  unfold Index.eqbString. destruct (list_eq_dec N.eq_dec a b); split;
    auto; discriminate.
Qed.

Lemma fr_backfill documentId toBackfill :
  Framed documentId (Index.backfill (AI := AI) documentId toBackfill).
Proof.
  intro w. unfold Index.backfill.
  destruct (0 <? len toBackfill); [|apply vo_refl].
  destruct (Index.backfillCommitFails (Index.faults w)); [apply vo_refl|].
  unfold VectorsOnly. simpl. repeat split.
  - intro d. destruct (Index.eqbString d documentId); [|reflexivity].
    apply backfilled_content.
  - intros d Hd. destruct (Index.eqbString d documentId) eqn:E; [|reflexivity].
    apply eqbString_eq in E. contradiction.
Qed.

End Frames.

Ltac store_kept :=
  repeat first
    [ apply sk_ret | apply sk_throw | apply sk_orUnexpected
    | apply sk_withAI | apply sk_pick
    | apply sk_bind; [|intro]
    | match goal with
      | |- StoreKept (match ?x with (_, _) => _ end) => destruct x
      | |- StoreKept (if ?c then _ else _) => destruct c
      end ].

Section FrameFacts.
Variable toLowerCase : jsstring -> jsstring.
Variable AI : Type.
Variable embedContent :
  AI -> Index.TaskType -> jsstring -> AI * option (list float).
Variable batchEmbedContents :
  AI -> list jsstring -> AI * option (list (list float)).
Variable generateContent : AI -> Index.Prompt -> AI * option jsstring.

Local Abbreviation askQuestion :=
  (Index.askQuestion toLowerCase embedContent batchEmbedContents
     generateContent).
Local Abbreviation World := (Index.World AI).

Lemma sk_embed taskType t : StoreKept (Index.embed embedContent taskType t).
Proof. unfold Index.embed. store_kept. Qed.

Lemma sk_embedFiltered targetDim filtered :
  StoreKept (Index.embedFiltered embedContent targetDim filtered).
Proof.
  induction filtered as [|c rest IH]; simpl; [apply sk_ret|].
  destruct (Index.embedding c) as [known|];
    [destruct (len known =? targetDim)|];
    repeat first
      [ exact IH | apply sk_embed | apply sk_ret
      | apply sk_bind; [|intro]
      | match goal with
        | |- StoreKept (match ?x with (_, _) => _ end) => destruct x
        end ].
Qed.

Lemma sk_findRelevantChunks question chunks known :
  StoreKept (Index.findRelevantChunks embedContent batchEmbedContents
               question chunks known).
Proof.
  unfold Index.findRelevantChunks.
  apply sk_bind; [apply sk_embed|]. intro q. store_kept.
Qed.

Lemma sk_followUpsOf question answer :
  StoreKept (Index.followUpsOf generateContent question answer).
Proof. unfold Index.followUpsOf. store_kept. Qed.

Lemma sk_conversationMemory userId request :
  StoreKept (Index.conversationMemory generateContent userId request).
Proof.
  unfold Index.conversationMemory.
  destruct (Index.remember request); [|apply sk_ret].
  destruct (Index.sessionId request) as [[|c s]|]; try apply sk_ret.
  intro w. destruct (Index.messagesReadFails (Index.faults w));
    [repeat split|].
  cbv zeta.
  match goal with |- context [if ?c then _ else _] => destruct c end.
  - match goal with
    | |- context [Index.bind ?m ?k w] =>
        assert (Hs : StoreKept (Index.bind m k)) by store_kept
    end.
    apply Hs.
  - repeat split.
Qed.

Lemma sk_loadChunks documentId documentData :
  StoreKept (Index.loadChunks (AI := AI) documentId documentData).
Proof.
  intro w.
  destruct (Index.loadChunks documentId documentData w) as [w1 r] eqn:E.
  apply loadChunks_world in E. subst w1. repeat split.
Qed.

Lemma fr_askQuestion request documentId :
  Index.documentId request = Some documentId ->
  Framed documentId (askQuestion request).
Proof.
  intros Hd w. unfold Index.askQuestion.
  destruct (Index.auth_uid request) as [[|c u]|]; try apply vo_refl.
  destruct (Index.nonBlank (Index.question request)) as [question|];
    [|apply vo_refl].
  destruct (Index.nonBlank (Index.documentId request)) as [d|] eqn:Ed;
    [|apply vo_refl].
  apply nonBlank_Some in Ed. destruct Ed as [Ed _].
  assert (d = documentId) by congruence. subst d.
  destruct (isEmpty (Index.apiKey w)); [apply vo_refl|]. revert w.
  change (Framed documentId
            (Index.answerFromDocument toLowerCase embedContent
               batchEmbedContents generateContent (c :: u) question
               documentId request)).
  unfold Index.answerFromDocument.
  apply fr_bind.
  { apply fr_kept. intro w.
    destruct (Index.documentReadFails (Index.faults w)); repeat split. }
  intros [documentData|]; [|apply fr_kept, sk_throw].
  apply fr_bind; [apply fr_kept, sk_loadChunks|]. intro chunks.
  apply fr_bind; [apply fr_kept, sk_conversationMemory|]. intros [mc st].
  apply fr_bind; [apply fr_kept, sk_pick|]. intro filtered.
  apply fr_bind; [apply fr_kept, sk_findRelevantChunks|]. intros _.
  apply fr_bind; [apply fr_kept, sk_embed|]. intro q.
  apply fr_bind; [apply fr_kept, sk_embedFiltered|]. intros [fc tb].
  apply fr_bind; [apply fr_backfill|]. intros _.
  apply fr_kept. store_kept.
Qed.

(** X5. Whatever a call does, succeed or fail, it leaves the documents,
    the messages, the faults and the key as they were, and, of the chunk
    records, the identifier, the index and the text of every record; the
    chunk records of every document other than the one asked about are
    left entirely as they were.  The only thing a call ever writes is the
    vector of chunk records of the document asked about. *)
Theorem only_vectors_are_written (request : Index.Request) (w : World) :
  let w' := fst (askQuestion request w) in
  Index.faults w' = Index.faults w /\
  Index.apiKey w' = Index.apiKey w /\
  Index.documents (Index.firestore w') = Index.documents (Index.firestore w) /\
  Index.messagesOf (Index.firestore w') = Index.messagesOf (Index.firestore w) /\
  (forall d, map chunkContent (Index.chunksOf (Index.firestore w') d)
             = map chunkContent (Index.chunksOf (Index.firestore w) d)) /\
  (forall d, Index.documentId request <> Some d ->
             Index.chunksOf (Index.firestore w') d
             = Index.chunksOf (Index.firestore w) d).
Proof.
  cbv zeta.
  destruct (Index.documentId request) as [documentId|] eqn:Ed.
  - destruct (fr_askQuestion request documentId Ed w)
      as (H1 & H2 & H3 & H4 & H5 & H6).
    repeat split; try assumption. intros d Hd. apply H6. congruence.
  - assert (E : askQuestion request w = (w, snd (askQuestion request w))).
    { unfold Index.askQuestion.
      destruct (Index.auth_uid request) as [[|c u]|]; try reflexivity.
      destruct (Index.nonBlank (Index.question request)); [|reflexivity].
      rewrite Ed. reflexivity. }
    rewrite E. repeat split.
Qed.

End FrameFacts.


(* ===================================================================== *)
(** * Index lists and findRelevantChunks *)
(* ===================================================================== *)

(** The entries of [xs] at indices that all lie inside it. *)
Lemma at_all {A} (xs : list A) (idx : list Z) :
  Forall (fun i => 0 <= i < len xs) idx ->
  exists sel,
    map (at_ xs) idx = map Some sel /\
    flat_map (fun i => match at_ xs i with Some c => [c] | None => [] end) idx
    = sel.
Proof.
  induction 1 as [|i idx Hi _ [sel [IH1 IH2]]]; simpl.
  - exists []. auto.
  - destruct (at_in_bounds xs i Hi) as [x Hx]. exists (x :: sel).
    rewrite Hx, IH1, IH2. auto.
Qed.

(** X6. prefilterChunks, for every question, chunk list and cap (zero
    and negative caps included), returns indices that are pairwise
    distinct and that all point into the chunk list: reading the chunks at
    these indices never finds a missing entry, and no chunk is selected
    twice. *)
Theorem prefilter_indices_valid (toLowerCase : jsstring -> jsstring)
    (question : jsstring) (chunks : list jsstring) (cap : Z) :
  let idx := Index.prefilterChunks toLowerCase question chunks cap in
  NoDup idx /\
  Forall (fun i => 0 <= i < len chunks) idx /\
  exists selected,
    map (at_ chunks) idx = map Some selected /\ partOf selected chunks.
Proof.
  cbv zeta.
  pose proof (prefilterChunks_part toLowerCase question chunks cap) as P.
  destruct (partOf_bounds _ _ P) as [Hn Hb].
  split; [exact Hn|]. split; [exact Hb|].
  destruct (at_all chunks _ Hb) as [sel [Hs _]].
  exists sel. split; [exact Hs|]. eapply partOf_at; eassumption.
Qed.

Lemma maxFrom_nan (xs : list float) :
  Exists (fun s => Index.isNaN s = true) xs ->
  forall highest, Index.maxFrom highest xs = nan.
Proof.
  induction 1 as [x xs Hx|x xs _ IH]; intro highest; simpl.
  - rewrite Hx. reflexivity.
  - destruct (Index.isNaN x); [reflexivity|]. apply IH.
Qed.

(** X7. The top-K selection, for every list of similarity scores (NaN
    scores included): the selected indices are pairwise distinct, they
    all point into the list, and there are min(K, n) of them.  When some
    score is NaN the maximum is NaN and K is 4; on an empty list the
    maximum is -Infinity, K is 6 and nothing is selected. *)
Theorem top_k_selection_valid (sims : list float) :
  let idx := Index.selectTopIdx sims in
  let k := Index.dynamicK (Index.Math_max sims) in
  NoDup idx /\
  Forall (fun i => 0 <= i < len sims) idx /\
  len idx = Z.min k (len sims) /\
  (Exists (fun s => Index.isNaN s = true) sims -> k = 4) /\
  (sims = [] -> k = 6 /\ idx = []).
Proof.
  cbv zeta.
  destruct (partOf_bounds _ _ (selectTopIdx_part sims)) as [Hn Hb].
  split; [exact Hn|]. split; [exact Hb|].
  split; [apply selectTopIdx_length|]. split.
  - intro H. unfold Index.Math_max. rewrite (maxFrom_nan _ H). reflexivity.
  - intros ->. split; reflexivity.
Qed.

Section RelevantChunks.
Variable AI : Type.
Variable embedContent :
  AI -> Index.TaskType -> jsstring -> AI * option (list float).
Variable batchEmbedContents :
  AI -> list jsstring -> AI * option (list (list float)).

Local Abbreviation World := (Index.World AI).
Local Abbreviation findRelevantChunks :=
  (Index.findRelevantChunks embedContent batchEmbedContents).

Lemma zero_sims_in_order (l : list Index.Sim) :
  Forall (fun s => Index.sim_s s = 0%float) l ->
  StronglySorted (fun x y => Index.bySimDesc x y = false) l.
Proof.
  induction 1 as [|x l Hx Hl IH]; constructor; [exact IH|].
  eapply Forall_impl; [|exact Hl]. intros y Hy. unfold Index.bySimDesc.
  rewrite Hx, Hy. reflexivity.
Qed.

Lemma mapiFrom_Forall {A B} (P : B -> Prop) (f : A -> nat -> B) (l : list A) :
  (forall x i, In x l -> P (f x i)) ->
  forall k, Forall P (mapiFrom f k l).
Proof.
  induction l as [|x l IH]; intros H k; simpl; constructor.
  - apply H. left. reflexivity.
  - apply IH. intros y i Hy. apply H. right. exact Hy.
Qed.

(** With scores that are all zero the ranking keeps the order. *)
Lemma zero_sims_top (sims : list float) (k : Z) :
  0 <= k -> Forall (fun s => s = 0%float) sims ->
  map Index.sim_i (slice (Index.rankSims sims) 0 k)
  = range (Z.min k (len sims)).
Proof.
  intros Hk Hz. unfold Index.rankSims.
  rewrite sort_in_order.
  - rewrite slice_prefix by lia. rewrite <- firstn_map.
    unfold mapi. rewrite (mapiFrom_map Index.sim_i _ Z.of_nat) by reflexivity.
    pose proof (len_nonneg sims).
    replace (map Z.of_nat (seq 0 (length sims))) with (range (len sims))
      by (unfold range, len; rewrite Nat2Z.id; reflexivity).
    destruct (Z.le_ge_cases k (len sims)).
    + rewrite Z.min_l by lia. apply firstn_range. lia.
    + rewrite Z.min_r by lia. apply firstn_all2.
      pose proof (range_length (len sims)) as L. unfold len in *. lia.
  - apply zero_sims_in_order. apply mapiFrom_Forall.
    intros x i Hx. rewrite Forall_forall in Hz. simpl. apply Hz. exact Hx.
Qed.

Lemma at_firstn_range {A} (xs : list A) (k : Z) :
  0 <= k <= len xs ->
  flat_map (fun i => match at_ xs i with Some c => [c] | None => [] end)
    (range k)
  = firstn (Z.to_nat k) xs.
Proof.
  intro Hk.
  assert (Hb : Forall (fun i => 0 <= i < len xs) (range k)).
  { apply Forall_forall. intros i Hi. apply range_In in Hi. lia. }
  destruct (at_all xs _ Hb) as [sel [Hs ->]].
  apply map_Some_inj. rewrite <- Hs.
  rewrite <- firstn_range with (n := len xs) by lia.
  rewrite <- firstn_map, <- firstn_map. f_equal. apply at_range.
Qed.

(** X8. findRelevantChunks, when it returns, returns min(4, n) of its n
    chunks, none of them twice, and it has not touched the store; when it
    throws, the error is the internal one.  A stored vector whose
    dimension differs from the question vector's is used as it is, so its
    chunk scores 0 although a fresh vector was just computed for it: when
    every chunk carries such a vector, the result is the first min(4, n)
    chunks in their order. *)
Theorem relevant_chunks_are_selected (question : jsstring)
    (chunks : list jsstring) (known : list (option (list float)))
    (w w' : World) (result : list jsstring) :
  findRelevantChunks question chunks known w = (w', inr result) ->
  partOf result chunks /\
  len result = Z.min 4 (len chunks) /\
  Index.firestore w' = Index.firestore w /\
  exists a qvec,
    embedContent (Index.ai w) Index.RETRIEVAL_QUERY question = (a, Some qvec) /\
    (len known = len chunks ->
     Forall (fun k => exists v, k = Some v /\ len v <> len qvec) known ->
     result = firstn 4 chunks).
Proof.
  intro H.
  pose proof (sk_findRelevantChunks AI embedContent batchEmbedContents
                question chunks known w) as (Hfs & _).
  rewrite H in Hfs. simpl in Hfs.
  unfold Index.findRelevantChunks in H.
  apply bind_inr in H. destruct H as [w1 [qvec [Hq H]]].
  apply bind_inr in H. destruct H as [w2 [computed [_ H]]].
  injection H as _ <-.
  match goal with
  | |- context [Index.rankSims ?s] => set (sims := s)
  end.
  assert (Hlen : len sims = len chunks).
  { subst sims. unfold len. rewrite !length_map.
    pose proof (range_length (len chunks)) as L. unfold len in L.
    pose proof (len_nonneg chunks). unfold len in *. lia. }
  pose proof (rankSims_part sims (Z.to_nat (relIndex (len (Index.rankSims sims)) 4)))
    as P.
  rewrite <- slice_zero, Hlen in P.
  destruct (partOf_bounds _ _ P) as [_ Hb].
  destruct (at_all chunks _ Hb) as [sel [Hs Hsel]].
  rewrite Hsel.
  split; [eapply partOf_at; eassumption|]. split.
  { apply (f_equal (@length _)) in Hs. rewrite !length_map in Hs.
    unfold len. rewrite <- Hs. rewrite slice_prefix by lia.
    rewrite length_firstn. unfold Index.rankSims. rewrite sort_length.
    unfold mapi. rewrite mapiFrom_length. unfold len in Hlen. lia. }
  split; [exact Hfs|].
  unfold Index.embed in Hq. apply bind_inr in Hq.
  destruct Hq as [w0 [r [Hc Hr]]]. unfold Index.withAI in Hc.
  destruct (embedContent (Index.ai w) Index.RETRIEVAL_QUERY question)
    as [a r0] eqn:Ec.
  injection Hc as _ <-. destruct r0 as [q0|]; [|discriminate Hr].
  injection Hr as _ <-.
  exists a, q0. split; [reflexivity|]. intros Hk Hstale.
  rewrite <- Hsel.
  assert (Hz : Forall (fun s => s = 0%float) sims).
  { subst sims. apply Forall_forall. intros s Hin.
    apply in_map_iff in Hin. destruct Hin as [e [<- Hin]].
    apply in_map_iff in Hin. destruct Hin as [i [<- Hin]].
    apply range_In in Hin. rewrite <- Hk in Hin.
    destruct (at_in_bounds known i Hin) as [k Hki]. rewrite Hki.
    unfold at_ in Hki. destruct (i <? 0); [discriminate|].
    apply nth_error_In in Hki. rewrite Forall_forall in Hstale.
    destruct (Hstale k Hki) as [v [-> Hv]].
    unfold Index.cosineSimilarity.
    destruct (len q0 =? len v) eqn:E; [apply Z.eqb_eq in E; lia|].
    reflexivity. }
  rewrite zero_sims_top by (lia || exact Hz). rewrite Hlen.
  pose proof (len_nonneg chunks).
  rewrite at_firstn_range by lia.
  destruct (Z.le_ge_cases 4 (len chunks)).
  - rewrite Z.min_l by lia. reflexivity.
  - rewrite Z.min_r by lia. unfold len. rewrite Nat2Z.id, firstn_all.
    symmetry. apply firstn_all2. unfold len in *. lia.
Qed.

End RelevantChunks.


(* ===================================================================== *)
(** * deleteFile *)
(* ===================================================================== *)

Lemma strictEquals_eq (a b : jsstring) : strictEquals a b = true <-> a = b.
Proof.
  unfold strictEquals. destruct (list_eq_dec N.eq_dec a b); split;
    auto; discriminate.
Qed.

Lemma strictEquals_refl (a : jsstring) : strictEquals a a = true.
Proof. apply strictEquals_eq. reflexivity. Qed.

Lemma strictEquals_neq (a b : jsstring) : strictEquals a b = false <-> a <> b.
Proof.
  unfold strictEquals. destruct (list_eq_dec N.eq_dec a b); split;
    auto; try discriminate. contradiction.
Qed.

Lemma orElse_None_Some (a : option jsstring) s :
  orElse a None = Some s <-> a = Some s /\ s <> [].
Proof.
  unfold orElse. destruct a as [[|c r]|]; split; intro H;
    try discriminate; try (destruct H; discriminate).
  - destruct H as [H N]. injection H as <-. contradiction.
  - injection H as <-. split; [reflexivity|discriminate].
  - destruct H as [H _]. exact H.
Qed.

Lemma signedIn_orElse (request : Index.Request) :
  signedIn request <-> exists u, orElse (Index.auth_uid request) None = Some u.
Proof.
  unfold signedIn. split; intros [u H]; exists u; apply orElse_None_Some;
    exact H.
Qed.

Lemma namesDocument_orElse (request : Index.Request) :
  namesDocument request
  <-> exists d, orElse (Index.documentId request) None = Some d.
Proof.
  unfold namesDocument. split; intros [u H]; exists u; apply orElse_None_Some;
    exact H.
Qed.

Section DeleteFacts.
Variable File : Type.

Local Abbreviation World := (DeleteFile.World File).
Local Abbreviation deleteFile := (DeleteFile.deleteFile (File := File)).

(** X9. A call of deleteFile that throws an HttpsError has changed
    nothing, and the code names the cause: unauthenticated exactly when
    the request carries no user identifier; invalid-argument exactly when
    the caller is signed in and names no document; not-found exactly when
    the document read goes through and there is no such document;
    permission-denied exactly when the document records an owner and the
    caller is someone else.  Any other error is the rejection of the
    document read or of the final document delete. *)
Theorem delete_rejections_name_their_cause (request : Index.Request)
    (w w' : World) (t : DeleteFile.Thrown) :
  deleteFile request w = (w', inl t) ->
  (forall e, t = DeleteFile.Https e ->
     w' = w /\
     (DeleteFile.code e = DeleteFile.unauthenticated <-> ~ signedIn request) /\
     (DeleteFile.code e = DeleteFile.invalid_argument
      <-> signedIn request /\ ~ namesDocument request) /\
     (DeleteFile.code e = DeleteFile.not_found
      <-> signedIn request /\
          DeleteFile.documentReadFails (DeleteFile.faults w) = false /\
          exists d, Index.documentId request = Some d /\ d <> [] /\
                    Cloud.documents (DeleteFile.firestore w) d = None) /\
     (DeleteFile.code e = DeleteFile.permission_denied
      <-> DeleteFile.documentReadFails (DeleteFile.faults w) = false /\
          exists u d data owner,
            Index.auth_uid request = Some u /\ u <> [] /\
            Index.documentId request = Some d /\ d <> [] /\
            Cloud.documents (DeleteFile.firestore w) d = Some data /\
            Cloud.userId data = Some owner /\ owner <> [] /\ owner <> u)) /\
  (t = DeleteFile.Rejected ->
     DeleteFile.documentReadFails (DeleteFile.faults w) = true \/
     DeleteFile.documentDeleteFails (DeleteFile.faults w) = true).
Proof.
  unfold DeleteFile.deleteFile, DeleteFile.throw.
  pose proof (signedIn_orElse request) as HS.
  pose proof (namesDocument_orElse request) as HN.
  destruct (orElse (Index.auth_uid request) None) as [u|] eqn:Eu.
  2: { intro H. injection H as <- <-. split; [|discriminate].
       intros e E. injection E as <-. simpl.
       assert (N : ~ signedIn request)
         by (rewrite HS; intros [u H]; discriminate).
       split; [reflexivity|]. split; [tauto|].
       split; [split; [discriminate|tauto]|].
       split; [split; [discriminate|tauto]|].
       split; [discriminate|].
       intros [_ [u [d [data [owner [H1 [H2 _]]]]]]]. exfalso. apply N.
       exists u. auto. }
  assert (Hs : signedIn request) by (rewrite HS; eauto).
  apply orElse_None_Some in Eu. destruct Eu as [Eu Hu].
  destruct (orElse (Index.documentId request) None) as [d|] eqn:Ed.
  2: { intro H. injection H as <- <-. split; [|discriminate].
       intros e E. injection E as <-. simpl.
       assert (N : ~ namesDocument request)
         by (rewrite HN; intros [d H]; discriminate).
       split; [reflexivity|].
       split; [split; [discriminate|tauto]|]. split; [tauto|].
       split; (split; [discriminate|]).
       - intros [_ [_ [d [H1 [H2 _]]]]]. exfalso. apply N. exists d. auto.
       - intros [_ [u0 [d [data [owner [_ [_ [H1 [H2 _]]]]]]]]]. exfalso.
         apply N. exists d. auto. }
  assert (Hn : namesDocument request) by (rewrite HN; eauto).
  apply orElse_None_Some in Ed. destruct Ed as [Ed Hd].
  destruct (DeleteFile.documentReadFails (DeleteFile.faults w)) eqn:Er.
  { intro H. injection H as <- <-. split; [discriminate|auto]. }
  destruct (Cloud.documents (DeleteFile.firestore w) d) as [data|] eqn:Edoc.
  2: { intro H. injection H as <- <-. split; [|discriminate].
       intros e E. injection E as <-. simpl.
       split; [reflexivity|].
       split; [split; [discriminate|tauto]|].
       split; [split; [discriminate|tauto]|].
       split; [split; [|reflexivity]|split; [discriminate|]].
       - intros _. split; [exact Hs|]. split; [reflexivity|]. exists d. auto.
       - intros [_ [u0 [d0 [data [owner [_ [_ [H1 [_ [H2 _]]]]]]]]]].
         congruence. }
  destruct (orElse (Cloud.userId data) None) as [owner|] eqn:Eo.
  - apply orElse_None_Some in Eo. destruct Eo as [Eo Ho].
    destruct (strictEquals owner u) eqn:Eq; cbn [negb].
    + apply strictEquals_eq in Eq. subst owner.
      destruct (DeleteFile.documentDeleteFails (DeleteFile.faults w)) eqn:Ef;
        intro H; [injection H as <- <-|discriminate H].
      split; [discriminate|auto].
    + apply strictEquals_neq in Eq.
      intro H. injection H as <- <-. split; [|discriminate].
      intros e E. injection E as <-. simpl.
      split; [reflexivity|].
      split; [split; [discriminate|tauto]|].
      split; [split; [discriminate|tauto]|].
      split; [split; [discriminate|]|split; [|reflexivity]].
      * intros [_ [_ [d0 [H1 [_ H2]]]]]. congruence.
      * intros _. split; [reflexivity|]. exists u, d, data, owner. auto 10.
  - destruct (DeleteFile.documentDeleteFails (DeleteFile.faults w)) eqn:Ef;
      intro H; [injection H as <- <-|discriminate H].
    split; [discriminate|auto].
Qed.


End DeleteFacts.


(* ===================================================================== *)
(** * The write loop of processUploadedDocument *)
(* ===================================================================== *)

Lemma writeBatches_unfold (chunks : list jsstring) (i : Z) :
  ProcessUpload.writeBatches chunks i =
  if i <? len chunks then
    mapi (fun text idx => {| ProcessUpload.cw_index := i + Z.of_nat idx;
                             ProcessUpload.cw_text := text |})
      (slice chunks i (i + 400))
    :: ProcessUpload.writeBatches chunks (i + 400)
  else [].
Proof.
  rewrite ProcessUpload.writeBatches_equation_1.
  destruct (Z_lt_dec i (len chunks)) as [H|H].
  - rewrite ProcessUpload.writeBatches_clause_1_equation_1.
    apply Z.ltb_lt in H. rewrite H. reflexivity.
  - rewrite ProcessUpload.writeBatches_clause_1_equation_2.
    apply Z.ltb_nlt in H. rewrite H. reflexivity.
Qed.

Lemma mapiFrom_map_fst {A B C} (g : B -> C) (f : A -> nat -> B)
    (h : A -> nat -> C) (l : list A) :
  (forall x i, g (f x i) = h x i) ->
  forall k, map g (mapiFrom f k l) = mapiFrom h k l.
Proof.
  intro H. induction l as [|x l IH]; intro k; simpl; [reflexivity|].
  rewrite H, IH. reflexivity.
Qed.

Section UploadLoop.
Variable File : Type.
Variable AI : Type.
Variable batchEmbedContents :
  AI -> list jsstring -> AI * option (list (list float)).
Variable autoId : nat -> jsstring.

Local Abbreviation World := (ProcessUpload.World File AI).
Local Abbreviation writeLoop :=
  (ProcessUpload.writeLoop File AI batchEmbedContents autoId).
Local Abbreviation embedSlice := (ProcessUpload.embedSlice AI batchEmbedContents).
Local Abbreviation batchAt := (batchAt File AI batchEmbedContents autoId).
Local Abbreviation afterBatch :=
  (afterBatch File AI batchEmbedContents autoId).

Lemma writeLoop_unfold docId chunks i (w : World) :
  writeLoop docId chunks i w =
  if i <? len chunks then
    if ProcessUpload.commitFails (ProcessUpload.faults w) i
    then (afterBatch docId chunks i w false, ProcessUpload.Thrown)
    else writeLoop docId chunks (i + 400) (afterBatch docId chunks i w true)
  else (w, ProcessUpload.Returned).
Proof.
  rewrite ProcessUpload.writeLoop_equation_1.
  destruct (Z_lt_dec i (len chunks)) as [H|H].
  - rewrite ProcessUpload.writeLoop_clause_1_equation_1.
    apply Z.ltb_lt in H. rewrite H. reflexivity.
  - rewrite ProcessUpload.writeLoop_clause_1_equation_2.
    apply Z.ltb_nlt in H. rewrite H. reflexivity.
Qed.

Lemma batchAt_writes chunks i (w : World) :
  map asWrite (batchAt chunks i w)
  = mapi (fun text idx => {| ProcessUpload.cw_index := i + Z.of_nat idx;
                             ProcessUpload.cw_text := text |})
      (slice chunks i (i + 400)).
Proof.
  unfold batchAt, mapi. cbv zeta. apply mapiFrom_map_fst. reflexivity.
Qed.

(** What the write loop leaves, from chunk [i] on. *)
Lemma writeLoop_effect docId chunks :
  forall i (w w' : World) o,
    0 <= i -> i mod 400 = 0 ->
    writeLoop docId chunks i w = (w', o) ->
    ProcessUpload.objects w' = ProcessUpload.objects w /\
    ProcessUpload.apiKey w' = ProcessUpload.apiKey w /\
    ProcessUpload.faults w' = ProcessUpload.faults w /\
    Cloud.documents (ProcessUpload.firestore w') = Cloud.documents (ProcessUpload.firestore w) /\
    (forall d, d <> docId ->
       Cloud.chunks (ProcessUpload.firestore w') d = Cloud.chunks (ProcessUpload.firestore w) d) /\
    exists records,
      Cloud.chunks (ProcessUpload.firestore w') docId
      = Cloud.chunks (ProcessUpload.firestore w) docId ++ records /\
      (o = ProcessUpload.Returned ->
       map asWrite records = concat (ProcessUpload.writeBatches chunks i) /\
       forall k, i <= k ->
         ~ rejectedCommit (ProcessUpload.commitFails (ProcessUpload.faults w)) (len chunks) k) /\
      (o = ProcessUpload.Thrown ->
       exists k, i <= k /\
         rejectedCommit (ProcessUpload.commitFails (ProcessUpload.faults w)) (len chunks) k /\
         map asWrite records
         = firstn (Z.to_nat (k - i))
             (concat (ProcessUpload.writeBatches chunks i))).
Proof.
  intro i.
  remember (Z.to_nat (len chunks - i)) as n eqn:Hn.
  revert i Hn. induction n as [n IH] using lt_wf_ind.
  intros i Hn w w' o Hi Hm H.
  rewrite writeLoop_unfold in H. rewrite writeBatches_unfold.
  destruct (i <? len chunks) eqn:E.
  2: { injection H as <- <-. apply Z.ltb_ge in E.
       repeat split. exists []. rewrite app_nil_r.
       split; [reflexivity|]. split; [|discriminate].
       intros _. split; [reflexivity|].
       intros k Hk [Hr _]. lia. }
  apply Z.ltb_lt in E.
  destruct (ProcessUpload.commitFails (ProcessUpload.faults w) i) eqn:Ef.
  - injection H as <- <-. repeat split. exists []. rewrite app_nil_r.
    split; [reflexivity|]. split; [discriminate|]. intros _.
    exists i. split; [lia|]. split; [repeat split; auto; lia|].
    rewrite Z.sub_diag. reflexivity.
  - apply (IH (Z.to_nat (len chunks - (i + 400)))) in H; [|lia|reflexivity|lia|].
    2: { rewrite <- Zplus_mod_idemp_l, Hm. reflexivity. }
    destruct H as (H1 & H2 & H3 & H4 & H5 & records & H6 & H7 & H8).
    cbn [afterBatch ProcessUpload.firestore ProcessUpload.objects ProcessUpload.apiKey
         ProcessUpload.faults Cloud.addChunks Cloud.documents Cloud.chunks] in *.
    split; [exact H1|]. split; [exact H2|]. split; [exact H3|].
    split; [exact H4|]. split.
    { intros d Hd. rewrite (H5 d Hd). apply strictEquals_neq in Hd.
      rewrite Hd. reflexivity. }
    rewrite strictEquals_refl in H6.
    exists (batchAt chunks i w ++ records).
    split; [rewrite H6, app_assoc; reflexivity|].
    rewrite map_app, batchAt_writes. cbn [concat].
    match goal with
    | |- context [?b ++ concat _] => set (batch := b)
    end.
    assert (Hlen : length batch = Z.to_nat (Z.min 400 (len chunks - i))).
    { subst batch. unfold mapi. rewrite mapiFrom_length, slice_from by lia.
      rewrite length_firstn, length_skipn. unfold len in *. lia. }
    clearbody batch.
    split.
    + intro Ho. destruct (H7 Ho) as [Hr Hk]. rewrite Hr.
      split; [reflexivity|].
      intros k Hik [Hk1 [Hk2 Hk3]].
      destruct (Z.eq_dec k i) as [->|Hne]; [congruence|].
      assert (i + 400 <= k).
      { assert (Hd : (k - i) mod 400 = 0)
          by (rewrite Zminus_mod, Hk2, Hm; reflexivity).
        apply Z.mod_divide in Hd; [|lia]. destruct Hd as [q Hq]. lia. }
      apply (Hk k); [lia|]. repeat split; auto; lia.
    + intro Ho. destruct (H8 Ho) as [k [Hik [Hrk Hr]]].
      exists k. split; [lia|]. split; [exact Hrk|]. rewrite Hr.
      destruct Hrk as [Hk1 _].
      rewrite firstn_app, Hlen.
      rewrite (firstn_all2 batch) by (rewrite Hlen; lia).
      f_equal. f_equal. lia.
Qed.

End UploadLoop.


(* ===================================================================== *)
(** * processUploadedDocument *)
(* ===================================================================== *)

Lemma hasText_blank (t : jsstring) :
  truthy t && (0 <? len (trim t)) = false <-> isBlank (Some t).
Proof.
  unfold isBlank. rewrite <- trim_nil_iff.
  destruct t as [|c t]; [simpl; tauto|].
  cbn [truthy isEmpty negb andb].
  destruct (trim (c :: t)) as [|d r] eqn:E.
  - simpl. tauto.
  - unfold len. simpl length. split; [|discriminate].
    intro H. apply Z.ltb_ge in H. lia.
Qed.

Lemma hasText_not_blank (t : jsstring) :
  truthy t && (0 <? len (trim t)) = true <-> ~ isBlank (Some t).
Proof.
  rewrite <- hasText_blank.
  destruct (truthy t && (0 <? len (trim t))); split; congruence.
Qed.

(** A blank text has no word. *)
Lemma wordsOf_blank (text : jsstring) :
  isBlank (Some text) -> wordsOf text = [].
Proof.
  simpl. intro Hb. unfold wordsOf.
  pose proof (splitRuns_concat isWhiteSpace text false []) as Hc.
  fold (split isWhiteSpace text) in Hc. simpl in Hc.
  assert (Hf : filter (fun c => negb (isWhiteSpace c)) text = []).
  { apply filter_none. intros c Hin. rewrite forallb_forall in Hb.
    rewrite (Hb c Hin). reflexivity. }
  rewrite Hf in Hc. clear Hf Hb.
  induction (split isWhiteSpace text) as [|p ps IH]; [reflexivity|].
  simpl in Hc. apply app_eq_nil in Hc. destruct Hc as [-> Hc].
  simpl. apply IH. exact Hc.
Qed.

Lemma upload_chunks_blank (text : jsstring) (t o : Z) :
  isBlank (Some text) -> ProcessUpload.chunkTextByWords text t o = [].
Proof.
  intro Hb. unfold ProcessUpload.chunkTextByWords.
  destruct (isEmpty text); [reflexivity|]. cbv zeta.
  fold (wordsOf text). rewrite (wordsOf_blank text Hb). reflexivity.
Qed.

Section UploadFacts.
Variable basename : jsstring -> jsstring.
Variable extname : jsstring -> jsstring.
Variable tmpFilePathOf : jsstring -> jsstring.
Variable toLowerCase : jsstring -> jsstring.
Variable File : Type.
Variable pdfParse : File -> option jsstring.
Variable extractRawText : File -> option jsstring.
Variable readFileSync : File -> option jsstring.
Variable AI : Type.
Variable batchEmbedContents :
  AI -> list jsstring -> AI * option (list (list float)).
Variable autoId : nat -> jsstring.

Local Abbreviation World := (ProcessUpload.World File AI).
Local Abbreviation processUploadedDocument :=
  (ProcessUpload.processUploadedDocument basename extname tmpFilePathOf toLowerCase
     File pdfParse extractRawText readFileSync AI batchEmbedContents autoId).
Local Abbreviation docIdOf := (ProcessUpload.docIdOf basename extname).
Local Abbreviation extractText :=
  (ProcessUpload.extractText File pdfParse extractRawText readFileSync).
Local Abbreviation extOf :=
  (fun object => toLowerCase (extname (tmpFilePathOf (objectPath object)))).

Lemma setMerge_documents fs docId data d :
  Cloud.documents (Cloud.setMerge fs docId data) d
  = if strictEquals d docId
    then Some match Cloud.documents fs docId with
              | Some old => Cloud.merge old data
              | None => data
              end
    else Cloud.documents fs d.
Proof. reflexivity. Qed.

(** The steps of the handler when both [set] calls and the download go
    through. *)
Lemma processUploadedDocument_steps object (w w' : World) o file :
  docIdOf object <> [] ->
  ProcessUpload.initialSetFails (ProcessUpload.faults w) = false ->
  ProcessUpload.downloadFails (ProcessUpload.faults w) = false ->
  ProcessUpload.objects w (ProcessUpload.ob_bucket object) (objectPath object) = Some file ->
  ProcessUpload.resultSetFails (ProcessUpload.faults w) = false ->
  processUploadedDocument object w = (w', o) ->
  let text := fst (extractText (extOf object) file) in
  let message := snd (extractText (extOf object) file) in
  exists (w2 : World) doc,
    ProcessUpload.objects w2 = ProcessUpload.objects w /\
    ProcessUpload.apiKey w2 = ProcessUpload.apiKey w /\
    ProcessUpload.ai w2 = ProcessUpload.ai w /\
    ProcessUpload.faults w2 = ProcessUpload.faults w /\
    Cloud.chunks (ProcessUpload.firestore w2) = Cloud.chunks (ProcessUpload.firestore w) /\
    (forall d, d <> docIdOf object ->
       Cloud.documents (ProcessUpload.firestore w2) d
       = Cloud.documents (ProcessUpload.firestore w) d) /\
    Cloud.documents (ProcessUpload.firestore w2) (docIdOf object) = Some doc /\
    Cloud.extractedText doc = Some text /\
    Cloud.filePath doc = Some (objectPath object) /\
    Cloud.storagePath doc = Some (objectPath object) /\
    Cloud.bucket doc = Some (ProcessUpload.ob_bucket object) /\
    Cloud.status doc
    = Some (if truthy text && (0 <? len (trim text))
            then lit "ready" else lit "failed") /\
    (message <> [] -> Cloud.statusMessage doc = Some message) /\
    (forall metadata u,
       ProcessUpload.ob_metadata object = Some metadata ->
       ProcessUpload.md_userId metadata = Some u -> u <> [] ->
       Cloud.userId doc = Some u) /\
    (w', o)
    = if truthy text && (0 <? len (trim text))
      then ProcessUpload.writeLoop File AI batchEmbedContents autoId
             (docIdOf object)
             (ProcessUpload.chunkTextByWords text 900 120) 0 w2
      else (w2, ProcessUpload.Returned).
Proof.
  intros Hid Hs1 Hdl Hobj Hs2 H. cbv zeta.
  unfold ProcessUpload.processUploadedDocument in H. cbv zeta in H.
  fold (objectPath object) in H.
  destruct (isEmpty (ProcessUpload.docIdOf basename extname object)) eqn:Ee.
  { destruct (ProcessUpload.docIdOf basename extname object); [congruence|discriminate]. }
  rewrite Hs1, Hdl, Hobj, Hs2 in H.
  match type of H with
  | (if _ then ProcessUpload.writeLoop _ _ _ _ _ _ _ ?w2 else _) = _ =>
      exists w2; set (W2 := w2) in *
  end.
  eexists.
  split; [reflexivity|]. split; [reflexivity|]. split; [reflexivity|].
  split; [reflexivity|]. split; [reflexivity|].
  split.
  { intros d Hd. apply strictEquals_neq in Hd. subst W2.
    cbn [ProcessUpload.firestore ProcessUpload.withFirestore]. rewrite !setMerge_documents.
    rewrite Hd. reflexivity. }
  split.
  { subst W2. cbn [ProcessUpload.firestore ProcessUpload.withFirestore].
    rewrite !setMerge_documents. rewrite !strictEquals_refl. reflexivity. }
  cbn [Cloud.merge Cloud.extractedText Cloud.filePath Cloud.storagePath
       Cloud.bucket Cloud.status Cloud.statusMessage Cloud.userId
       Cloud.given].
  split; [reflexivity|]. split; [reflexivity|]. split; [reflexivity|].
  split; [reflexivity|]. split; [reflexivity|].
  split.
  { intro Hm.
    destruct (snd (ProcessUpload.extractText File pdfParse extractRawText
                     readFileSync
                     (toLowerCase (extname (tmpFilePathOf (objectPath object))))
                     file)) as [|c r] eqn:Em; [congruence|].
    reflexivity. }
  split.
  { intros metadata u Hmd Hu Hne. rewrite Hmd, Hu.
    destruct u as [|c r]; [congruence|].
    destruct (Cloud.documents (ProcessUpload.firestore w)
                (ProcessUpload.docIdOf basename extname object)); reflexivity. }
  symmetry. exact H.
Qed.

(** X11. When the handler returns, the document of the object holds the
    extracted text, the path of the object as filePath and storagePath,
    and its bucket; its status is ready when the text has a character that
    is not whitespace and failed otherwise, and a status message is only
    ever written with the status failed.  The chunk records added to the
    document carry exactly the indices and the texts of the chunks of the
    extracted text (none for a blank text), whatever the embedding service
    does; no other document and no other document's chunk records are
    touched. *)
Theorem upload_marks_the_document (object : ProcessUpload.StorageObject)
    (w w' : World) :
  processUploadedDocument object w = (w', ProcessUpload.Returned) ->
  exists file doc records,
    ProcessUpload.objects w (ProcessUpload.ob_bucket object) (objectPath object) = Some file /\
    Cloud.documents (ProcessUpload.firestore w') (docIdOf object) = Some doc /\
    let text := fst (extractText (extOf object) file) in
    let message := snd (extractText (extOf object) file) in
    Cloud.extractedText doc = Some text /\
    Cloud.filePath doc = Some (objectPath object) /\
    Cloud.storagePath doc = Some (objectPath object) /\
    Cloud.bucket doc = Some (ProcessUpload.ob_bucket object) /\
    (~ isBlank (Some text) -> Cloud.status doc = Some (lit "ready")) /\
    (isBlank (Some text) -> Cloud.status doc = Some (lit "failed")) /\
    (message <> [] ->
     isBlank (Some text) /\ Cloud.statusMessage doc = Some message) /\
    Cloud.chunks (ProcessUpload.firestore w') (docIdOf object)
    = Cloud.chunks (ProcessUpload.firestore w) (docIdOf object) ++ records /\
    map asWrite records = ProcessUpload.writtenChunks text /\
    (forall d, d <> docIdOf object ->
       Cloud.documents (ProcessUpload.firestore w') d
       = Cloud.documents (ProcessUpload.firestore w) d /\
       Cloud.chunks (ProcessUpload.firestore w') d
       = Cloud.chunks (ProcessUpload.firestore w) d).
Proof.
  intro H.
  assert (Hpre : docIdOf object <> [] /\
                 ProcessUpload.initialSetFails (ProcessUpload.faults w) = false /\
                 ProcessUpload.downloadFails (ProcessUpload.faults w) = false /\
                 (exists file, ProcessUpload.objects w (ProcessUpload.ob_bucket object)
                                 (objectPath object) = Some file) /\
                 ProcessUpload.resultSetFails (ProcessUpload.faults w) = false).
  { unfold ProcessUpload.processUploadedDocument in H. cbv zeta in H.
    fold (objectPath object) in H.
    destruct (ProcessUpload.docIdOf basename extname object) as [|c r];
      [discriminate H|]. cbn [isEmpty] in H.
    split; [discriminate|].
    destruct (ProcessUpload.initialSetFails (ProcessUpload.faults w)); [discriminate H|].
    split; [reflexivity|].
    destruct (ProcessUpload.downloadFails (ProcessUpload.faults w)); [discriminate H|].
    split; [reflexivity|].
    destruct (ProcessUpload.objects w (ProcessUpload.ob_bucket object) (objectPath object))
      as [file|]; [|discriminate H].
    split; [eauto|].
    destruct (ProcessUpload.resultSetFails (ProcessUpload.faults w)); [discriminate H|].
    reflexivity. }
  destruct Hpre as (Hid & Hs1 & Hdl & [file Hobj] & Hs2).
  destruct (processUploadedDocument_steps object w w' _ file
              Hid Hs1 Hdl Hobj Hs2 H)
    as (w2 & doc & O2 & K2 & A2 & F2 & C2 & D2 & Hdoc & Ht & Hfp & Hsp & Hb
        & Hst & Hmsg & _ & Hrun).
  cbv zeta in *.
  remember (fst (ProcessUpload.extractText File pdfParse extractRawText
                   readFileSync
                   (toLowerCase (extname (tmpFilePathOf (objectPath object))))
                   file)) as text eqn:Etext.
  remember (snd (ProcessUpload.extractText File pdfParse extractRawText
                   readFileSync
                   (toLowerCase (extname (tmpFilePathOf (objectPath object))))
                   file)) as message eqn:Emessage.
  assert (Hmsg_blank : message <> [] -> isBlank (Some text)).
  { subst message text. unfold ProcessUpload.extractText. cbv zeta.
    repeat match goal with
           | |- context [if ?c then _ else _] => destruct c
           | |- context [match ?r with Some _ => _ | None => _ end] =>
               destruct r
           end; simpl; intro Hm; try congruence; reflexivity. }
  destruct (truthy text && (0 <? len (trim text))) eqn:Eh.
  - symmetry in Hrun.
    apply writeLoop_effect in Hrun; [|lia|reflexivity].
    destruct Hrun as (H1 & H2 & H3 & H4 & H5 & records & H6 & H7 & _).
    destruct (H7 eq_refl) as [Hw _].
    exists file, doc, records. cbv beta zeta.
    rewrite <- ?Etext, <- ?Emessage.
    split; [exact Hobj|]. split; [rewrite H4; exact Hdoc|].
    split; [exact Ht|]. split; [exact Hfp|]. split; [exact Hsp|].
    split; [exact Hb|]. split; [intros _; exact Hst|].
    split; [intro B; apply hasText_blank in B; congruence|].
    split.
    { intro Hm. exfalso. apply Hmsg_blank in Hm. apply hasText_blank in Hm.
      congruence. }
    split; [rewrite H6, C2; reflexivity|].
    split.
    { rewrite Hw. unfold ProcessUpload.writtenChunks. rewrite Eh.
      reflexivity. }
    intros d Hd. rewrite H4, (H5 d Hd), C2. split; [apply D2; exact Hd|].
    reflexivity.
  - injection Hrun as ->.
    exists file, doc, []. rewrite app_nil_r. cbv beta zeta.
    rewrite <- ?Etext, <- ?Emessage.
    split; [exact Hobj|]. split; [exact Hdoc|].
    split; [exact Ht|]. split; [exact Hfp|]. split; [exact Hsp|].
    split; [exact Hb|].
    split; [intro B; apply hasText_not_blank in B; congruence|].
    split; [intros _; exact Hst|].
    split.
    { intro Hm. split; [apply hasText_blank; exact Eh|apply Hmsg; exact Hm]. }
    split; [rewrite C2; reflexivity|].
    split.
    { unfold ProcessUpload.writtenChunks. rewrite Eh. reflexivity. }
    intros d Hd. rewrite C2. split; [apply D2; exact Hd|reflexivity].
Qed.

(** X12. The handler throws exactly when the document identifier is
    empty or one of its awaited Firestore and Storage operations is
    rejected: the first set, the download (also when there is no such
    object), the second set, or the commit of one of the batches of 400
    chunk records.  A reader that throws and an embedding request that is
    rejected never make the handler throw. *)
Theorem upload_throws_on_faults_only (object : ProcessUpload.StorageObject)
    (w : World) :
  snd (processUploadedDocument object w) = ProcessUpload.Thrown
  <-> docIdOf object = [] \/
      ProcessUpload.initialSetFails (ProcessUpload.faults w) = true \/
      ProcessUpload.downloadFails (ProcessUpload.faults w) = true \/
      ProcessUpload.objects w (ProcessUpload.ob_bucket object) (objectPath object) = None \/
      ProcessUpload.resultSetFails (ProcessUpload.faults w) = true \/
      exists file k,
        ProcessUpload.objects w (ProcessUpload.ob_bucket object) (objectPath object)
        = Some file /\
        rejectedCommit (ProcessUpload.commitFails (ProcessUpload.faults w))
          (len (ProcessUpload.chunkTextByWords
                  (fst (extractText (extOf object) file)) 900 120))
          k.
Proof.
  destruct (docIdOf object) as [|c0 r0] eqn:Eid.
  { unfold ProcessUpload.processUploadedDocument. cbv zeta. rewrite Eid. simpl.
    tauto. }
  assert (Hid : docIdOf object <> []) by (rewrite Eid; discriminate).
  destruct (ProcessUpload.initialSetFails (ProcessUpload.faults w)) eqn:Hs1.
  { unfold ProcessUpload.processUploadedDocument. cbv zeta. rewrite Eid, Hs1. simpl.
    tauto. }
  destruct (ProcessUpload.downloadFails (ProcessUpload.faults w)) eqn:Hdl.
  { unfold ProcessUpload.processUploadedDocument. cbv zeta.
    rewrite Eid, Hs1, Hdl. simpl. tauto. }
  destruct (ProcessUpload.objects w (ProcessUpload.ob_bucket object) (objectPath object))
    as [file|] eqn:Hobj.
  2: { unfold ProcessUpload.processUploadedDocument. cbv zeta.
       fold (objectPath object). rewrite Eid, Hs1, Hdl, Hobj. simpl. tauto. }
  destruct (ProcessUpload.resultSetFails (ProcessUpload.faults w)) eqn:Hs2.
  { unfold ProcessUpload.processUploadedDocument. cbv zeta.
    fold (objectPath object). rewrite Eid, Hs1, Hdl, Hobj, Hs2. simpl.
    tauto. }
  destruct (processUploadedDocument object w) as [w' o] eqn:H.
  destruct (processUploadedDocument_steps object w w' o file
              Hid Hs1 Hdl Hobj Hs2 H)
    as (w2 & doc & O2 & K2 & A2 & F2 & C2 & D2 & Hdoc & Ht & Hfp & Hsp & Hb
        & Hst & Hmsg & _ & Hrun).
  cbv zeta in *. cbn [snd].
  remember (fst (ProcessUpload.extractText File pdfParse extractRawText
                   readFileSync
                   (toLowerCase (extname (tmpFilePathOf (objectPath object))))
                   file)) as text eqn:Etext.
  assert (Hcases : o = ProcessUpload.Thrown <->
            exists k, rejectedCommit (ProcessUpload.commitFails (ProcessUpload.faults w))
                        (len (ProcessUpload.chunkTextByWords text 900 120)) k).
  { destruct (truthy text && (0 <? len (trim text))) eqn:Eh.
    - symmetry in Hrun.
      apply writeLoop_effect in Hrun; [|lia|reflexivity].
      destruct Hrun as (_ & _ & _ & _ & _ & records & _ & H7 & H8).
      rewrite F2 in H7, H8.
      destruct o; split; try discriminate.
      + intros [k Hk]. destruct (H7 eq_refl) as [_ Hno].
        exfalso. apply (Hno k); [destruct Hk; lia|exact Hk].
      + intros _. destruct (H8 eq_refl) as [k [_ [Hk _]]]. eauto.
      + reflexivity.
    - injection Hrun as _ ->. split; [discriminate|].
      intros [k [Hk _]]. exfalso.
      apply hasText_blank in Eh.
      assert (E : ProcessUpload.chunkTextByWords text 900 120 = []).
      { apply upload_chunks_blank. exact Eh. }
      rewrite E in Hk. unfold len in Hk. simpl in Hk. lia. }
  rewrite Hcases. split.
  - intros [k Hk]. do 5 right. exists file, k. cbv beta.
    rewrite <- Etext. auto.
  - intros [X|[X|[X|[X|[X|[f [k [Ef Hk]]]]]]]]; try discriminate.
    injection Ef as <-. cbv beta in Hk. rewrite <- Etext in Hk. eauto.
Qed.

End UploadFacts.


(* ===================================================================== *)
(** * Batch sizes *)
(* ===================================================================== *)

Section EmbedSlice.
Variable AI : Type.
Variable batchEmbedContents :
  AI -> list jsstring -> AI * option (list (list float)).

Local Abbreviation embedSlice := (ProcessUpload.embedSlice AI batchEmbedContents).

Lemma embedSlice_unfold slice j a acc :
  embedSlice slice j a acc =
  if j <? len slice then
    match batchEmbedContents a (JS.slice slice j (j + 100)) with
    | (a', Some embeddings) => embedSlice slice (j + 100) a' (acc ++ embeddings)
    | (a', None) => (a', None)
    end
  else (a, Some acc).
Proof.
  rewrite ProcessUpload.embedSlice_equation_1.
  destruct (Z_lt_dec j (len slice)) as [H|H].
  - rewrite ProcessUpload.embedSlice_clause_1_equation_1.
    apply Z.ltb_lt in H. rewrite H. cbv zeta.
    destruct (batchEmbedContents a (JS.slice slice j (j + 100))) as [a' [e|]];
      reflexivity.
  - rewrite ProcessUpload.embedSlice_clause_1_equation_2.
    apply Z.ltb_nlt in H. rewrite H. reflexivity.
Qed.

(** With a service that answers every request with the vector [f t] of
    each of its texts [t], the slice gets the vectors of its texts. *)
Lemma embedSlice_answers (f : jsstring -> list float) slice :
  (forall a sub, exists a',
     batchEmbedContents a sub = (a', Some (map f sub))) ->
  forall j a acc, 0 <= j ->
    snd (embedSlice slice j a acc)
    = Some (acc ++ map f (skipn (Z.to_nat j) slice)).
Proof.
  intros Hf j.
  remember (Z.to_nat (len slice - j)) as n eqn:Hn.
  revert j Hn. induction n as [n IH] using lt_wf_ind.
  intros j Hn a acc Hj. rewrite embedSlice_unfold.
  destruct (j <? len slice) eqn:E.
  - apply Z.ltb_lt in E.
    destruct (Hf a (JS.slice slice j (j + 100))) as [a' ->].
    rewrite (IH (Z.to_nat (len slice - (j + 100)))) by lia.
    rewrite <- app_assoc, <- map_app. do 3 f_equal.
    rewrite slice_from by lia.
    replace (Z.to_nat (j + 100 - j)) with 100%nat by lia.
    replace (Z.to_nat (j + 100)) with (100 + Z.to_nat j)%nat by lia.
    rewrite <- skipn_skipn. apply firstn_skipn.
  - apply Z.ltb_ge in E. rewrite skipn_all2 by (unfold len in E; lia).
    simpl. rewrite app_nil_r. reflexivity.
Qed.

(** With a service that rejects every request, a slice that is not empty
    gets no vector. *)
Lemma embedSlice_rejected slice a :
  (forall a sub, snd (batchEmbedContents a sub) = None) ->
  slice <> [] -> snd (embedSlice slice 0 a []) = None.
Proof.
  intros Hf Hne. rewrite embedSlice_unfold.
  assert (0 < len slice)
    by (destruct slice; [congruence|unfold len; simpl; lia]).
  destruct (0 <? len slice) eqn:E; [|apply Z.ltb_ge in E; lia].
  specialize (Hf a (JS.slice slice 0 (0 + 100))).
  destruct (batchEmbedContents a (JS.slice slice 0 (0 + 100))) as [a' [e|]];
    [discriminate Hf|reflexivity].
Qed.

End EmbedSlice.





(* ===================================================================== *)
(** * The records of the write loop *)
(* ===================================================================== *)

Lemma mapiFrom_nth_Forall {A B} (all : list A) (g : A -> nat -> B)
    (P : B -> Prop) :
  (forall x idx, nth_error all idx = Some x -> P (g x idx)) ->
  forall l k, skipn k all = l -> Forall P (mapiFrom g k l).
Proof.
  intro H. induction l as [|x l IH]; intros k Hk; simpl; constructor.
  - apply H. rewrite <- (firstn_skipn k all), Hk.
    assert (L : (k <= length all)%nat).
    { destruct (Nat.le_gt_cases k (length all)) as [L|L]; [exact L|].
      rewrite skipn_all2 in Hk by lia. discriminate Hk. }
    rewrite nth_error_app2 by (rewrite length_firstn; lia).
    rewrite length_firstn, Nat.min_l by lia. rewrite Nat.sub_diag.
    reflexivity.
  - apply IH. rewrite <- (Nat.add_1_l k), <- skipn_skipn, Hk. reflexivity.
Qed.

Section UploadRecords.
Variable File : Type.
Variable AI : Type.
Variable batchEmbedContents :
  AI -> list jsstring -> AI * option (list (list float)).
Variable autoId : nat -> jsstring.

Local Abbreviation World := (ProcessUpload.World File AI).
Local Abbreviation writeLoop :=
  (ProcessUpload.writeLoop File AI batchEmbedContents autoId).
Local Abbreviation batchAt := (batchAt File AI batchEmbedContents autoId).
Local Abbreviation afterBatch :=
  (afterBatch File AI batchEmbedContents autoId).

(** A property [Q] of every record of every batch is a property of
    every record that the loop adds. *)
Lemma writeLoop_records docId chunks (Q : Cloud.Chunk -> Prop)
    (Inv : World -> Prop) :
  (forall i w, Inv w -> Forall Q (batchAt chunks i w)) ->
  (forall i w b, Inv w -> Inv (afterBatch docId chunks i w b)) ->
  forall i (w w' : World) o,
    Inv w ->
    writeLoop docId chunks i w = (w', o) ->
    exists records,
      Cloud.chunks (ProcessUpload.firestore w') docId
      = Cloud.chunks (ProcessUpload.firestore w) docId ++ records /\
      Forall Q records.
Proof.
  intros HQ HI i.
  remember (Z.to_nat (len chunks - i)) as n eqn:Hn.
  revert i Hn. induction n as [n IH] using lt_wf_ind.
  intros i Hn w w' o Hw H.
  rewrite writeLoop_unfold in H.
  destruct (i <? len chunks) eqn:E.
  2: { injection H as <- <-. exists []. rewrite app_nil_r. auto. }
  apply Z.ltb_lt in E.
  destruct (ProcessUpload.commitFails (ProcessUpload.faults w) i).
  - injection H as <- <-. exists []. rewrite app_nil_r. auto.
  - apply (IH (Z.to_nat (len chunks - (i + 400)))) in H;
      [|lia|reflexivity|apply HI; exact Hw].
    destruct H as [records [Hr Hq]].
    exists (batchAt chunks i w ++ records). split.
    + rewrite Hr. cbn [afterBatch ProcessUpload.firestore Cloud.addChunks
                       Cloud.chunks].
      rewrite strictEquals_refl, app_assoc. reflexivity.
    + apply Forall_app. split; [apply HQ; exact Hw|exact Hq].
Qed.

Lemma batchAt_answers (f : jsstring -> list float) chunks i (w : World) :
  (forall a sub, exists a',
     batchEmbedContents a sub = (a', Some (map f sub))) ->
  ProcessUpload.hasEmbeddingModel w = true ->
  Forall (fun c => Cloud.embedding c = Some (f (Cloud.text c)))
    (batchAt chunks i w).
Proof.
  intros Hf Hm. unfold batchAt. cbv zeta. rewrite Hm.
  rewrite (embedSlice_answers AI batchEmbedContents f _ Hf) by lia.
  simpl skipn. simpl app. unfold mapi.
  apply (mapiFrom_nth_Forall (slice chunks i (i + 400))); [|reflexivity].
  intros x idx Hx. simpl. apply map_nth_error. exact Hx.
Qed.

Lemma batchAt_no_vectors chunks i (w : World) :
  ProcessUpload.hasEmbeddingModel w = false \/
  (forall a sub, snd (batchEmbedContents a sub) = None) ->
  Forall (fun c => Cloud.embedding c = None) (batchAt chunks i w).
Proof.
  intro H. unfold batchAt. cbv zeta.
  destruct (slice chunks i (i + 400)) as [|t ts] eqn:Es; [constructor|].
  assert (E : snd (if ProcessUpload.hasEmbeddingModel w
                   then ProcessUpload.embedSlice AI batchEmbedContents (t :: ts) 0
                          (ProcessUpload.ai w) []
                   else (ProcessUpload.ai w, None)) = None).
  { destruct (ProcessUpload.hasEmbeddingModel w); [|reflexivity].
    destruct H as [H|H]; [discriminate H|].
    apply embedSlice_rejected; [exact H|discriminate]. }
  rewrite E. unfold mapi. apply mapiFrom_Forall. reflexivity.
Qed.

End UploadRecords.


(* ===================================================================== *)
(** * The embeddings of the chunk records *)
(* ===================================================================== *)

Section UploadVectors.
Variable basename : jsstring -> jsstring.
Variable extname : jsstring -> jsstring.
Variable tmpFilePathOf : jsstring -> jsstring.
Variable toLowerCase : jsstring -> jsstring.
Variable File : Type.
Variable pdfParse : File -> option jsstring.
Variable extractRawText : File -> option jsstring.
Variable readFileSync : File -> option jsstring.
Variable AI : Type.
Variable batchEmbedContents :
  AI -> list jsstring -> AI * option (list (list float)).
Variable autoId : nat -> jsstring.

Local Abbreviation World := (ProcessUpload.World File AI).
Local Abbreviation processUploadedDocument :=
  (ProcessUpload.processUploadedDocument basename extname tmpFilePathOf toLowerCase
     File pdfParse extractRawText readFileSync AI batchEmbedContents autoId).
Local Abbreviation docIdOf := (ProcessUpload.docIdOf basename extname).

(** Every run of the handler either leaves the chunk records as they
    are or ends in the write loop. *)
Lemma processUploadedDocument_run object (w w' : World) o :
  processUploadedDocument object w = (w', o) ->
  Cloud.chunks (ProcessUpload.firestore w') = Cloud.chunks (ProcessUpload.firestore w) \/
  exists (w2 : World) chunks,
    ProcessUpload.apiKey w2 = ProcessUpload.apiKey w /\
    Cloud.chunks (ProcessUpload.firestore w2) = Cloud.chunks (ProcessUpload.firestore w) /\
    ProcessUpload.writeLoop File AI batchEmbedContents autoId (docIdOf object)
      chunks 0 w2 = (w', o).
Proof.
  intro H.
  destruct (docIdOf object) as [|c0 r0] eqn:Eid.
  { unfold ProcessUpload.processUploadedDocument in H. cbv zeta in H.
    rewrite Eid in H. injection H as <- _. auto. }
  assert (Hid : docIdOf object <> []) by (rewrite Eid; discriminate).
  destruct (ProcessUpload.initialSetFails (ProcessUpload.faults w)) eqn:Hs1.
  { unfold ProcessUpload.processUploadedDocument in H. cbv zeta in H.
    rewrite Eid, Hs1 in H. injection H as <- _. auto. }
  destruct (ProcessUpload.downloadFails (ProcessUpload.faults w)) eqn:Hdl.
  { unfold ProcessUpload.processUploadedDocument in H. cbv zeta in H.
    rewrite Eid, Hs1, Hdl in H. injection H as <- _. auto. }
  destruct (ProcessUpload.objects w (ProcessUpload.ob_bucket object) (objectPath object))
    as [file|] eqn:Hobj.
  2: { unfold ProcessUpload.processUploadedDocument in H. cbv zeta in H.
       fold (objectPath object) in H. rewrite Eid, Hs1, Hdl, Hobj in H.
       injection H as <- _. auto. }
  destruct (ProcessUpload.resultSetFails (ProcessUpload.faults w)) eqn:Hs2.
  { unfold ProcessUpload.processUploadedDocument in H. cbv zeta in H.
    fold (objectPath object) in H. rewrite Eid, Hs1, Hdl, Hobj, Hs2 in H.
    injection H as <- _. auto. }
  rewrite <- Eid in *.
  destruct (processUploadedDocument_steps basename extname tmpFilePathOf
              toLowerCase File pdfParse extractRawText readFileSync AI
              batchEmbedContents autoId object w w' o file
              Hid Hs1 Hdl Hobj Hs2 H)
    as (w2 & doc & O2 & K2 & A2 & F2 & C2 & D2 & _ & _ & _ & _ & _ & _ & _ & _
        & Hrun).
  cbv zeta in Hrun.
  match type of Hrun with
  | _ = (if ?c then _ else _) => destruct c
  end.
  - right. eexists w2, _. split; [exact K2|]. split; [exact C2|].
    symmetry. exact Hrun.
  - injection Hrun as -> _. left. exact C2.
Qed.

(** X14. The chunk records that a run of the handler adds to the
    document carry, each, the vector of their own text when the embedding
    model is there and the service answers every request with one vector
    per text; they carry no vector when the secret is missing or empty,
    or when the service rejects every request. *)
Theorem embeddings_follow_their_chunks (object : ProcessUpload.StorageObject)
    (w w' : World) (o : ProcessUpload.Outcome) :
  processUploadedDocument object w = (w', o) ->
  exists records,
    Cloud.chunks (ProcessUpload.firestore w') (docIdOf object)
    = Cloud.chunks (ProcessUpload.firestore w) (docIdOf object) ++ records /\
    (forall f : jsstring -> list float,
       ProcessUpload.hasEmbeddingModel w = true ->
       (forall a sub, exists a',
          batchEmbedContents a sub = (a', Some (map f sub))) ->
       Forall (fun c => Cloud.embedding c = Some (f (Cloud.text c))) records) /\
    (ProcessUpload.hasEmbeddingModel w = false \/
     (forall a sub, snd (batchEmbedContents a sub) = None) ->
     Forall (fun c => Cloud.embedding c = None) records).
Proof.
  intro H. apply processUploadedDocument_run in H.
  destruct H as [H|(w2 & chunks & K2 & C2 & H)].
  { exists []. rewrite H, app_nil_r. split; [reflexivity|].
    split; intros; constructor. }
  assert (Hm : forall w0 : World,
            ProcessUpload.apiKey w0 = ProcessUpload.apiKey w ->
            ProcessUpload.hasEmbeddingModel w0 = ProcessUpload.hasEmbeddingModel w).
  { intros w0 E. unfold ProcessUpload.hasEmbeddingModel. rewrite E. reflexivity. }
  pose proof (writeLoop_records File AI batchEmbedContents autoId
                (docIdOf object) chunks (fun _ => True)
                (fun _ => True) ltac:(intros; apply Forall_forall; auto)
                ltac:(auto) 0 w2 w' o I H) as [records [Hr _]].
  exists records. rewrite <- C2. split; [exact Hr|]. split.
  - intros f Hmodel Hf.
    destruct (writeLoop_records File AI batchEmbedContents autoId
                (docIdOf object) chunks
                (fun c => Cloud.embedding c = Some (f (Cloud.text c)))
                (fun w0 => ProcessUpload.apiKey w0 = ProcessUpload.apiKey w)
                ltac:(intros i w0 E; apply batchAt_answers;
                      [exact Hf|rewrite (Hm w0 E); exact Hmodel])
                ltac:(intros; assumption) 0 w2 w' o K2 H)
      as [records' [Hr' Hq]].
    rewrite Hr in Hr'. apply app_inv_head in Hr'. subst records'. exact Hq.
  - intro Hno.
    destruct (writeLoop_records File AI batchEmbedContents autoId
                (docIdOf object) chunks
                (fun c => Cloud.embedding c = None)
                (fun w0 => ProcessUpload.apiKey w0 = ProcessUpload.apiKey w)
                ltac:(intros i w0 E; apply batchAt_no_vectors;
                      destruct Hno as [Hno|Hno];
                      [left; rewrite (Hm w0 E); exact Hno|right; exact Hno])
                ltac:(intros; assumption) 0 w2 w' o K2 H)
      as [records' [Hr' Hq]].
    rewrite Hr in Hr'. apply app_inv_head in Hr'. subst records'. exact Hq.
Qed.

End UploadVectors.


(* ===================================================================== *)
(** * askQuestion on a store *)
(* ===================================================================== *)

Section AskFacts.
Variable toLowerCase : jsstring -> jsstring.
Variable AI : Type.
Variable embedContent :
  AI -> Index.TaskType -> jsstring -> AI * option (list float).
Variable batchEmbedContents :
  AI -> list jsstring -> AI * option (list (list float)).
Variable generateContent : AI -> Index.Prompt -> AI * option jsstring.

Local Abbreviation askQuestion :=
  (Index.askQuestion toLowerCase embedContent batchEmbedContents
     generateContent).

Lemma signedIn_uid request :
  signedIn request ->
  exists u, Index.auth_uid request = Some u /\ u <> [].
Proof. intro H. exact H. Qed.

Lemma nonBlank_of (s : option jsstring) :
  ~ isBlank s -> exists t, s = Some t /\ Index.nonBlank s = Some t.
Proof.
  intro H. destruct (Index.nonBlank s) as [t|] eqn:E.
  - exists t. split; [|reflexivity]. apply nonBlank_Some in E. tauto.
  - apply nonBlank_None in E. contradiction.
Qed.

(** A valid request on a document that is not there. *)
Lemma askQuestion_not_found request (iw : Index.World AI) d :
  signedIn request -> ~ isBlank (Index.question request) ->
  Index.documentId request = Some d -> ~ isBlank (Some d) ->
  Index.apiKey iw <> [] ->
  Index.documentReadFails (Index.faults iw) = false ->
  Index.documents (Index.firestore iw) d = None ->
  askQuestion request iw = (iw, inl documentNotFound).
Proof.
  intros [u [Hu Hne]] Hq Hd Hb Hk Hr Hdoc.
  destruct (nonBlank_of _ Hq) as [q [_ Eq]].
  rewrite <- Hd in Hb. destruct (nonBlank_of _ Hb) as [d' [Ed' Ed]].
  assert (d' = d) by congruence. subst d'.
  rewrite (askQuestion_valid toLowerCase AI embedContent batchEmbedContents
             generateContent request iw u q d Hu Hne Eq Ed Hk).
  unfold Index.answerFromDocument.
  rewrite (bind_of_inr _ _ iw iw None) by (rewrite Hr, Hdoc; reflexivity).
  reflexivity.
Qed.

(** A valid request on a document that has neither chunk records nor
    text, and on one that has some. *)
Lemma askQuestion_not_ready request (iw : Index.World AI) d documentData :
  signedIn request -> ~ isBlank (Index.question request) ->
  Index.documentId request = Some d -> ~ isBlank (Some d) ->
  Index.apiKey iw <> [] ->
  Index.documentReadFails (Index.faults iw) = false ->
  Index.chunksReadFails (Index.faults iw) = false ->
  Index.documents (Index.firestore iw) d = Some documentData ->
  (snd (askQuestion request iw) = inl documentNotReady
   <-> Index.chunksOf (Index.firestore iw) d = [] /\
       isBlank (Index.extractedText documentData)).
Proof.
  intros [u [Hu Hne]] Hq Hd Hb Hk Hr Hc Hdoc.
  destruct (nonBlank_of _ Hq) as [q [_ Eq]].
  pose proof Hb as Hb'.
  rewrite <- Hd in Hb. destruct (nonBlank_of _ Hb) as [d' [Ed' Ed]].
  assert (d' = d) by congruence. subst d'.
  split.
  - intro H.
    destruct (askQuestion request iw) as [iw' [e|r]] eqn:E;
      [|discriminate H].
    simpl in H. injection H as ->.
    apply askQuestion_inl in E. destruct E as [E _]. simpl in E.
    inversion E as [| |S Q D K|
                    |d0 dd S Q D K R C Ed0 Edoc0 Es B|]; [congruence|].
    assert (d0 = d) by congruence. subst d0.
    assert (dd = documentData) by congruence. subst dd. auto.
  - intros [Hs B].
    rewrite (askQuestion_valid toLowerCase AI embedContent batchEmbedContents
               generateContent request iw u q d Hu Hne Eq Ed Hk).
    unfold Index.answerFromDocument.
    rewrite (bind_of_inr _ _ iw iw (Some documentData))
      by (rewrite Hr, Hdoc; reflexivity).
    rewrite (bind_of_inl _ _ _ _ _
               (loadChunks_not_ready AI d documentData iw Hc Hs B)).
    reflexivity.
Qed.

End AskFacts.


(* ===================================================================== *)
(** * Upload, question and delete together *)
(* ===================================================================== *)

Lemma ready_not_failed : lit "ready" <> lit "failed".
Proof. intro H. vm_compute in H. discriminate H. Qed.

Section Compositions.
Variable basename : jsstring -> jsstring.
Variable extname : jsstring -> jsstring.
Variable tmpFilePathOf : jsstring -> jsstring.
Variable toLowerCase : jsstring -> jsstring.
Variable File : Type.
Variable pdfParse : File -> option jsstring.
Variable extractRawText : File -> option jsstring.
Variable readFileSync : File -> option jsstring.
Variable AI : Type.
Variable embedContent :
  AI -> Index.TaskType -> jsstring -> AI * option (list float).
Variable batchEmbedContents :
  AI -> list jsstring -> AI * option (list (list float)).
Variable generateContent : AI -> Index.Prompt -> AI * option jsstring.
Variable autoId : nat -> jsstring.

Local Abbreviation processUploadedDocument :=
  (ProcessUpload.processUploadedDocument basename extname tmpFilePathOf toLowerCase
     File pdfParse extractRawText readFileSync AI batchEmbedContents autoId).
Local Abbreviation docIdOf := (ProcessUpload.docIdOf basename extname).
Local Abbreviation askQuestion :=
  (Index.askQuestion toLowerCase embedContent batchEmbedContents
     generateContent).

(** What a run that returns has left of the document. *)
Lemma processUploadedDocument_returned object (w w' : ProcessUpload.World File AI) :
  processUploadedDocument object w = (w', ProcessUpload.Returned) ->
  exists doc text records,
    Cloud.documents (ProcessUpload.firestore w') (docIdOf object) = Some doc /\
    ProcessUpload.objects w' = ProcessUpload.objects w /\
    Cloud.extractedText doc = Some text /\
    Cloud.storagePath doc = Some (objectPath object) /\
    Cloud.bucket doc = Some (ProcessUpload.ob_bucket object) /\
    Cloud.status doc
    = Some (if truthy text && (0 <? len (trim text))
            then lit "ready" else lit "failed") /\
    Cloud.chunks (ProcessUpload.firestore w') (docIdOf object)
    = Cloud.chunks (ProcessUpload.firestore w) (docIdOf object) ++ records /\
    map asWrite records = ProcessUpload.writtenChunks text.
Proof.
  intro H.
  assert (Hpre : docIdOf object <> [] /\
                 ProcessUpload.initialSetFails (ProcessUpload.faults w) = false /\
                 ProcessUpload.downloadFails (ProcessUpload.faults w) = false /\
                 (exists file, ProcessUpload.objects w (ProcessUpload.ob_bucket object)
                                 (objectPath object) = Some file) /\
                 ProcessUpload.resultSetFails (ProcessUpload.faults w) = false).
  { unfold ProcessUpload.processUploadedDocument in H. cbv zeta in H.
    fold (objectPath object) in H.
    destruct (ProcessUpload.docIdOf basename extname object) as [|c r];
      [discriminate H|]. cbn [isEmpty] in H.
    split; [discriminate|].
    destruct (ProcessUpload.initialSetFails (ProcessUpload.faults w)); [discriminate H|].
    split; [reflexivity|].
    destruct (ProcessUpload.downloadFails (ProcessUpload.faults w)); [discriminate H|].
    split; [reflexivity|].
    destruct (ProcessUpload.objects w (ProcessUpload.ob_bucket object) (objectPath object))
      as [file|]; [|discriminate H].
    split; [eauto|].
    destruct (ProcessUpload.resultSetFails (ProcessUpload.faults w)); [discriminate H|].
    reflexivity. }
  destruct Hpre as (Hid & Hs1 & Hdl & [file Hobj] & Hs2).
  destruct (processUploadedDocument_steps basename extname tmpFilePathOf
              toLowerCase File pdfParse extractRawText readFileSync AI
              batchEmbedContents autoId object w w' _ file
              Hid Hs1 Hdl Hobj Hs2 H)
    as (w2 & doc & O2 & K2 & A2 & F2 & C2 & D2 & Hdoc & Ht & Hfp & Hsp & Hb
        & Hst & _ & _ & Hrun).
  cbv beta zeta in *.
  remember (fst (ProcessUpload.extractText File pdfParse extractRawText
                   readFileSync
                   (toLowerCase (extname (tmpFilePathOf (objectPath object))))
                   file)) as text eqn:Etext.
  exists doc, text.
  destruct (truthy text && (0 <? len (trim text))) eqn:Eh.
  - symmetry in Hrun.
    apply writeLoop_effect in Hrun; [|lia|reflexivity].
    destruct Hrun as (H1 & H2 & H3 & H4 & H5 & records & H6 & H7 & _).
    destruct (H7 eq_refl) as [Hw _].
    exists records. rewrite H4, H1, H6, C2.
    repeat split; try assumption.
    rewrite Hw. unfold ProcessUpload.writtenChunks. rewrite Eh. reflexivity.
  - injection Hrun as ->. exists []. rewrite app_nil_r, C2.
    repeat split; try assumption.
    unfold ProcessUpload.writtenChunks. rewrite Eh. reflexivity.
Qed.

(** X15. After the handler has returned for a document that had no chunk
    record before, a valid question on the document, with the reads going
    through, is answered with the document-not-ready error exactly when
    the handler left the status failed. *)
Theorem failed_uploads_are_not_ready (object : ProcessUpload.StorageObject)
    (w w' : ProcessUpload.World File AI) (iw : Index.World AI)
    (request : Index.Request) :
  processUploadedDocument object w = (w', ProcessUpload.Returned) ->
  Cloud.chunks (ProcessUpload.firestore w) (docIdOf object) = [] ->
  Serves (ProcessUpload.firestore w') (Index.firestore iw) ->
  signedIn request -> ~ isBlank (Index.question request) ->
  Index.documentId request = Some (docIdOf object) ->
  ~ isBlank (Some (docIdOf object)) ->
  Index.apiKey iw <> [] ->
  Index.documentReadFails (Index.faults iw) = false ->
  Index.chunksReadFails (Index.faults iw) = false ->
  exists doc,
    Cloud.documents (ProcessUpload.firestore w') (docIdOf object) = Some doc /\
    (snd (askQuestion request iw) = inl documentNotReady
     <-> Cloud.status doc = Some (lit "failed")).
Proof.
  intros H Hnew [Sd Sc] Hs Hq Hd Hb Hk Hr Hc.
  apply processUploadedDocument_returned in H.
  destruct H as (doc & text & records & Hdoc & _ & Ht & _ & _ & Hst & Hch & Hw).
  exists doc. split; [exact Hdoc|].
  rewrite (askQuestion_not_ready toLowerCase AI embedContent
             batchEmbedContents generateContent request iw (docIdOf object)
             (asDocumentData doc) Hs Hq Hd Hb Hk Hr Hc)
    by (rewrite Sd, Hdoc; reflexivity).
  simpl Index.extractedText. rewrite Ht, Hst.
  destruct (truthy text && (0 <? len (trim text))) eqn:Eh.
  - split.
    + intros [_ B]. apply hasText_blank in B. congruence.
    + intro E. exfalso. apply ready_not_failed.
      apply (f_equal (fun o => match o with Some x => x | None => [] end))
        in E. exact E.
  - split; [reflexivity|]. intros _.
    split; [|apply hasText_blank; exact Eh].
    unfold ProcessUpload.writtenChunks in Hw. rewrite Eh in Hw.
    destruct records; [|discriminate Hw].
    specialize (Sc (docIdOf object)). rewrite Hch, Hnew in Sc. simpl in Sc.
    apply Permutation_nil. apply Permutation_sym. exact Sc.
Qed.

(** X16. After the handler has returned, deleteFile on the document,
    with no operation rejected and called by the recorded owner (or by
    anyone signed in when no owner is recorded), succeeds and deletes the
    document, all its chunk records and the very object that was
    processed. *)
Theorem delete_undoes_the_upload (object : ProcessUpload.StorageObject)
    (w w' : ProcessUpload.World File AI) (dw : DeleteFile.World File)
    (request : Index.Request) (u : jsstring) :
  processUploadedDocument object w = (w', ProcessUpload.Returned) ->
  DeleteFile.firestore dw = ProcessUpload.firestore w' ->
  DeleteFile.objects dw = ProcessUpload.objects w' ->
  noDeleteFault (DeleteFile.faults dw) ->
  Index.auth_uid request = Some u -> u <> [] ->
  Index.documentId request = Some (docIdOf object) ->
  (forall doc owner,
     Cloud.documents (ProcessUpload.firestore w') (docIdOf object) = Some doc ->
     Cloud.userId doc = Some owner -> owner <> [] -> owner = u) ->
  ProcessUpload.ob_bucket object <> [] -> objectPath object <> [] ->
  exists dw',
    DeleteFile.deleteFile request dw
    = (dw', inr {| DeleteFile.success := true |}) /\
    Cloud.documents (DeleteFile.firestore dw') (docIdOf object) = None /\
    Cloud.chunks (DeleteFile.firestore dw') (docIdOf object) = [] /\
    DeleteFile.objects dw' (ProcessUpload.ob_bucket object) (objectPath object)
    = None.
Proof.
  intros H Hfs Hob (F1 & F2 & F3 & F4 & F5) Hu Hne Hd Hown Hbk Hp.
  assert (Hid : docIdOf object <> []).
  { unfold ProcessUpload.processUploadedDocument in H. cbv zeta in H.
    destruct (ProcessUpload.docIdOf basename extname object); [discriminate H|].
    discriminate. }
  apply processUploadedDocument_returned in H.
  destruct H as (doc & text & records & Hdoc & _ & _ & Hsp & Hb & _ & _ & _).
  unfold DeleteFile.deleteFile.
  assert (Eu : orElse (Index.auth_uid request) None = Some u)
    by (apply orElse_None_Some; auto).
  assert (Ed : orElse (Index.documentId request) None = Some (docIdOf object))
    by (apply orElse_None_Some; auto).
  rewrite Eu, Ed, F1, Hfs, Hdoc.
  assert (Eo : match orElse (Cloud.userId doc) None with
               | Some owner => negb (strictEquals owner u)
               | None => false
               end = false).
  { destruct (orElse (Cloud.userId doc) None) as [owner|] eqn:Eo;
      [|reflexivity].
    apply orElse_None_Some in Eo. destruct Eo as [Eo Ho].
    rewrite (Hown doc owner Hdoc Eo Ho). rewrite strictEquals_refl.
    reflexivity. }
  rewrite Eo, F2, F3, F4, F5, Hsp, Hb.
  assert (Ep : orElse (Some (objectPath object))
                 (orElse (Cloud.filePath doc) None)
               = Some (objectPath object)).
  { destruct (objectPath object); [congruence|reflexivity]. }
  assert (Eb : orElse (Some (ProcessUpload.ob_bucket object)) None
               = Some (ProcessUpload.ob_bucket object)).
  { destruct (ProcessUpload.ob_bucket object); [congruence|reflexivity]. }
  rewrite Ep, Eb. eexists. split; [reflexivity|].
  cbn [DeleteFile.firestore DeleteFile.objects Cloud.deleteDocument
       Cloud.documents Cloud.chunks].
  split; [rewrite strictEquals_refl; reflexivity|]. split.
  - destruct (Cloud.chunks (ProcessUpload.firestore w') (docIdOf object)) eqn:Ec;
      cbn [isEmpty]; [exact Ec|].
    simpl. rewrite strictEquals_refl. reflexivity.
  - unfold Cloud.deleteObject. rewrite !strictEquals_refl. reflexivity.
Qed.

(** X17. Once deleteFile has succeeded, the document is gone for both
    callables: another deleteFile on it, and a valid question on it, are
    answered with not-found (their document read going through). *)
Theorem deleted_document_is_gone (request : Index.Request)
    (dw dw' : DeleteFile.World File) (r : DeleteFile.Deleted) (d : jsstring) :
  DeleteFile.deleteFile request dw = (dw', inr r) ->
  Index.documentId request = Some d ->
  (forall again,
     signedIn again -> Index.documentId again = Some d ->
     DeleteFile.documentReadFails (DeleteFile.faults dw') = false ->
     DeleteFile.deleteFile again dw'
     = (dw', inl (DeleteFile.Https
                    {| DeleteFile.code := DeleteFile.not_found;
                       DeleteFile.message := "Document not found" |}))) /\
  (forall (iw : Index.World AI) question,
     Serves (DeleteFile.firestore dw') (Index.firestore iw) ->
     signedIn question -> ~ isBlank (Index.question question) ->
     Index.documentId question = Some d -> ~ isBlank (Some d) ->
     Index.apiKey iw <> [] ->
     Index.documentReadFails (Index.faults iw) = false ->
     askQuestion question iw = (iw, inl documentNotFound)).
Proof.
  intros H Hd.
  assert (Hgone : d <> [] /\
                  Cloud.documents (DeleteFile.firestore dw') d = None).
  { unfold DeleteFile.deleteFile, DeleteFile.throw in H.
    destruct (orElse (Index.auth_uid request) None); [|discriminate H].
    destruct (orElse (Index.documentId request) None) as [d0|] eqn:Ed;
      [|discriminate H].
    apply orElse_None_Some in Ed. destruct Ed as [Ed Hne].
    assert (d0 = d) by congruence. subst d0.
    destruct (DeleteFile.documentReadFails (DeleteFile.faults dw));
      [discriminate H|].
    destruct (Cloud.documents (DeleteFile.firestore dw) d); [|discriminate H].
    match type of H with
    | (if ?c then _ else _) = _ => destruct c; [discriminate H|]
    end.
    destruct (DeleteFile.documentDeleteFails (DeleteFile.faults dw));
      [discriminate H|].
    injection H as <- _. split; [exact Hne|].
    cbn [DeleteFile.firestore Cloud.deleteDocument Cloud.documents].
    rewrite strictEquals_refl. reflexivity. }
  destruct Hgone as [Hne Hgone]. split.
  - intros again Hs Hda Hr. unfold DeleteFile.deleteFile, DeleteFile.throw.
    apply signedIn_orElse in Hs. destruct Hs as [u Eu]. rewrite Eu.
    assert (Ed : orElse (Index.documentId again) None = Some d)
      by (apply orElse_None_Some; auto).
    rewrite Ed, Hr, Hgone. reflexivity.
  - intros iw question [Sd _] Hs Hq Hdq Hb Hk Hr.
    apply (askQuestion_not_found toLowerCase AI embedContent
             batchEmbedContents generateContent question iw d);
      try assumption.
    rewrite Sd, Hgone. reflexivity.
Qed.

End Compositions.


(* ===================================================================== *)
(** * Coverage of the chunker *)
(* ===================================================================== *)

(** Every window is inside the word array, holds a word and at most
    [t] words. *)
Lemma windows_valid n t o :
  1 <= t ->
  forall start, 0 <= start ->
    Forall (fun w => 0 <= fst w < snd w /\ snd w <= n /\ snd w - fst w <= t)
      (windows n t o start).
Proof.
  intros Ht start.
  remember (Z.to_nat (n - start)) as k eqn:Hk.
  revert start Hk. induction k as [k IH] using lt_wf_ind. intros start Hk Hs.
  rewrite windows_unfold_step.
  destruct (start <? n) eqn:E; [|constructor]. apply Z.ltb_lt in E.
  cbv zeta. constructor; [simpl; lia|].
  destruct (Z.min n (start + t) =? n); [constructor|].
  apply (IH (Z.to_nat (n - (start + Z.max 1 (t - Z.max 0 o))))); lia.
Qed.

(** Every position of the word array lies in a window. *)
Lemma windows_cover n t o :
  1 <= t ->
  forall start i, 0 <= start <= i -> i < n ->
    Exists (fun w => fst w <= i < snd w) (windows n t o start).
Proof.
  intros Ht start.
  remember (Z.to_nat (n - start)) as k eqn:Hk.
  revert start Hk. induction k as [k IH] using lt_wf_ind.
  intros start Hk i Hs Hi.
  rewrite windows_unfold_step.
  destruct (start <? n) eqn:E; [|apply Z.ltb_ge in E; lia].
  cbv zeta.
  destruct (Z.lt_ge_cases i (Z.min n (start + t))) as [L|L].
  - apply Exists_cons_hd. simpl. lia.
  - apply Exists_cons_tl.
    destruct (Z.min n (start + t) =? n) eqn:E2;
      [apply Z.eqb_eq in E2; lia|].
    apply (IH (Z.to_nat (n - (start + Z.max 1 (t - Z.max 0 o))))); lia.
Qed.

(** How many windows there are. *)
Lemma windows_count n t o :
  1 <= t ->
  forall start, 0 <= start < n ->
    len (windows n t o start)
    = 1 + (Z.max 0 (n - start - t) + stepOf t o - 1) / stepOf t o.
Proof.
  intros Ht start. unfold stepOf.
  set (step := Z.max 1 (t - Z.max 0 o)).
  assert (Hstep : 1 <= step <= t) by (subst step; lia).
  remember (Z.to_nat (n - start)) as k eqn:Hk.
  revert start Hk. induction k as [k IH] using lt_wf_ind. intros start Hk Hs.
  rewrite windows_unfold_step.
  destruct (start <? n) eqn:E; [|apply Z.ltb_ge in E; lia].
  cbv zeta. fold step.
  destruct (Z.min n (start + t) =? n) eqn:E2.
  - apply Z.eqb_eq in E2. rewrite (Z.max_l 0) by lia.
    rewrite Z.div_small by lia. reflexivity.
  - apply Z.eqb_neq in E2. unfold len. simpl length.
    rewrite Nat2Z.inj_succ. fold (len (windows n t o (start + step))).
    rewrite (IH (Z.to_nat (n - (start + step)))) by lia.
    rewrite (Z.max_r 0 (n - start - t)) by lia.
    destruct (Z.le_gt_cases (n - (start + step) - t) 0) as [L|L].
    + rewrite (Z.max_l 0) by lia. rewrite Z.div_small by lia.
      symmetry. unfold Z.succ. rewrite Z.add_comm. f_equal.
      symmetry. apply (Z.div_unique _ _ 1 (n - start - t - 1)); lia.
    + rewrite (Z.max_r 0) by lia.
      replace (n - start - t + step - 1)
        with (n - (start + step) - t + step - 1 + 1 * step) by lia.
      rewrite Z.div_add by lia. lia.
Qed.

Lemma windowText_words words s e :
  Forall isWord words -> 0 <= s -> s < e -> e <= len words ->
  wordsOf (windowText words (s, e)) = wordsBetween words s e.
Proof.
  intros Hw Hs He Hl. unfold windowText, wordsBetween. simpl fst. simpl snd.
  rewrite slice_window by lia. apply wordsOf_join.
  - intro H. apply (f_equal (@length _)) in H.
    rewrite length_firstn, length_skipn in H. unfold len in Hl. simpl in H.
    lia.
  - apply Forall_firstn, Forall_skipn. exact Hw.
Qed.

(** A text that is its words joined by single spaces, at most [t] of
    them, is its own single chunk. *)
Lemma chunk_of_joined_words (ws : list jsstring) (t o : Z) :
  ws <> [] -> Forall isWord ws -> len ws <= t ->
  Index.chunkTextByWords (join (lit " ") ws) t o = [join (lit " ") ws].
Proof.
  intros Hne Hw Hlen.
  assert (Hn : 0 < len ws)
    by (destruct ws; [congruence|unfold len; simpl; lia]).
  rewrite chunkTextByWords_words, (wordsOf_join ws Hne Hw).
  rewrite windows_unfold_step.
  destruct (0 <? len ws) eqn:E; [|apply Z.ltb_ge in E; lia].
  cbv zeta. rewrite Z.min_l by lia. rewrite Z.eqb_refl.
  simpl flat_map. rewrite app_nil_r.
  rewrite chunkOfWindow_words by (auto; lia).
  unfold windowText. simpl fst. simpl snd.
  rewrite slice_prefix by lia. unfold len. rewrite Nat2Z.id, firstn_all.
  reflexivity.
Qed.

Lemma chunks_are_windows (text : jsstring) (t o : Z) :
  1 <= t ->
  Index.chunkTextByWords text t o
  = map (windowText (wordsOf text)) (windows (len (wordsOf text)) t o 0).
Proof.
  intro Ht. rewrite chunkTextByWords_words.
  apply flat_map_singletons.
  eapply Forall_impl; [|apply (windows_valid _ t o Ht 0); lia].
  intros [s e]. simpl. intros (H1 & H2 & H3).
  apply chunkOfWindow_words; [apply wordsOf_words|lia|lia|lia].
Qed.

(** X18. For a positive targetWords, every chunk is a run of between 1
    and targetWords consecutive words of the text joined by single spaces,
    and chunking a chunk again gives that chunk alone; every word of the
    text, at every position, is in some chunk, so the chunks lose no
    text. *)
Theorem chunks_cover_the_text (text : jsstring) (t o : Z) :
  1 <= t ->
  let words := wordsOf text in
  let chunks := Index.chunkTextByWords text t o in
  Forall (fun c =>
            exists s e,
              0 <= s < e /\ e <= len words /\ e - s <= t /\
              wordsOf c = wordsBetween words s e /\
              c = join (lit " ") (wordsOf c) /\
              Index.chunkTextByWords c t o = [c]) chunks /\
  (forall i, 0 <= i < len words ->
     exists c s e,
       In c chunks /\ s <= i < e /\ wordsOf c = wordsBetween words s e).
Proof.
  intros Ht words chunks.
  assert (Hw : Forall isWord words) by apply wordsOf_words.
  subst chunks. rewrite (chunks_are_windows text t o Ht). fold words.
  pose proof (windows_valid (len words) t o Ht 0 ltac:(lia)) as Hv.
  split.
  - apply Forall_forall. intros c Hc. apply in_map_iff in Hc.
    destruct Hc as [[s e] [<- Hin]].
    rewrite Forall_forall in Hv. specialize (Hv _ Hin). simpl in Hv.
    destruct Hv as (H1 & H2 & H3).
    exists s, e. split; [lia|]. split; [lia|]. split; [lia|].
    pose proof (windowText_words words s e Hw ltac:(lia) ltac:(lia) H2) as E.
    split; [exact E|].
    assert (Hj : windowText words (s, e)
                 = join (lit " ") (wordsBetween words s e)).
    { unfold windowText, wordsBetween. simpl fst. simpl snd.
      rewrite slice_window by lia. reflexivity. }
    split; [rewrite E; exact Hj|].
    rewrite Hj. apply chunk_of_joined_words.
    + unfold wordsBetween. intro H.
      apply (f_equal (@length _)) in H.
      rewrite length_firstn, length_skipn in H. unfold len in H2.
      simpl in H. lia.
    + apply Forall_firstn, Forall_skipn. exact Hw.
    + unfold wordsBetween, len. rewrite length_firstn, length_skipn.
      unfold len in H2. lia.
  - intros i Hi.
    pose proof (windows_cover (len words) t o Ht 0 i ltac:(lia) ltac:(lia))
      as Hc.
    apply Exists_exists in Hc. destruct Hc as [[s e] [Hin Hse]].
    simpl in Hse. rewrite Forall_forall in Hv. specialize (Hv _ Hin).
    simpl in Hv. destruct Hv as (H1 & H2 & H3).
    exists (windowText words (s, e)), s, e.
    split; [apply in_map; exact Hin|]. split; [exact Hse|].
    apply windowText_words; [exact Hw|lia|lia|lia].
Qed.

(** X19. The number of chunks of a text of n >= 1 words, for a positive
    targetWords: one chunk when n <= targetWords, and otherwise one more
    than (n - targetWords) / step rounded up, where step is
    max(1, targetWords - max(0, overlapWords)). *)
Theorem chunk_count (text : jsstring) (t o : Z) :
  1 <= t -> wordsOf text <> [] ->
  let n := len (wordsOf text) in
  let step := stepOf t o in
  len (Index.chunkTextByWords text t o)
  = 1 + (Z.max 0 (n - t) + step - 1) / step /\
  (n <= t -> len (Index.chunkTextByWords text t o) = 1).
Proof.
  intros Ht Hne n step.
  pose proof (wordsOf_len_pos text Hne) as Hn. fold n in Hn.
  assert (E : len (Index.chunkTextByWords text t o)
              = 1 + (Z.max 0 (n - t) + step - 1) / step).
  { rewrite (chunks_are_windows text t o Ht). unfold len.
    rewrite length_map.
    pose proof (windows_count n t o Ht 0 ltac:(lia)) as Hc.
    rewrite Z.sub_0_r in Hc. exact Hc. }
  split; [exact E|].
  intro Hle. rewrite E. rewrite Z.max_l by lia.
  assert (1 <= step) by (subst step; unfold stepOf; lia).
  rewrite Z.div_small by lia. reflexivity.
Qed.


(* ===================================================================== *)
(** * Risky clauses and conversation memory *)
(* ===================================================================== *)

(** X20. detectRiskyClauses flags, in the order of the chunks, the first
    eight chunks whose lowercased text contains a keyword, and nothing
    else: a flag carries the chunk's identifier, the first 400 code units
    of its text and the highest category among the keywords found (HIGH
    before MEDIUM before LOW).  Without a keyword in any chunk nothing is
    flagged. *)
Theorem risky_clauses_are_flagged (toLowerCase : jsstring -> jsstring)
    (chunks : list Index.Chunk) :
  let flagged := Index.detectRiskyClauses toLowerCase chunks in
  let risky := filter (mentions toLowerCase allKeywords) chunks in
  Forall2 (flagOf toLowerCase) flagged (firstn 8 risky) /\
  len flagged = Z.min 8 (len risky) /\
  (forallb (fun c => negb (mentions toLowerCase allKeywords c)) chunks = true
   <-> flagged = []).
Proof.
  intros flagged risky.
  pose proof (detectRiskyClauses_flags toLowerCase chunks) as HF.
  fold flagged in HF. fold risky in HF.
  assert (Hlen : len flagged = Z.min 8 (len risky)).
  { apply Forall2_length in HF. unfold len. rewrite HF, length_firstn. lia. }
  split; [exact HF|]. split; [exact Hlen|].
  assert (Hr : risky = []
               <-> forallb (fun c => negb (mentions toLowerCase allKeywords c))
                     chunks = true).
  { subst risky. clear. induction chunks as [|c l IH];
      cbn [filter forallb].
    - tauto.
    - destruct (mentions toLowerCase allKeywords c); cbn [negb andb].
      + split; intro H; discriminate H.
      + exact IH. }
  rewrite <- Hr. split.
  - intro E. rewrite E in Hlen. destruct flagged; [reflexivity|].
    unfold len in Hlen. simpl in Hlen. lia.
  - intro E. rewrite E in Hlen. destruct risky; [reflexivity|].
    unfold len in Hlen. simpl in Hlen. lia.
Qed.

Lemma slice_last {A} (l : list A) (k : Z) :
  0 < k ->
  slice l (- k) (len l) = skipn (Z.to_nat (len l - k)) l.
Proof.
  intro Hk. unfold slice, relIndex.
  pose proof (len_nonneg l) as Hl.
  destruct (- k <? 0) eqn:E; [|apply Z.ltb_ge in E; lia].
  destruct (len l <? 0) eqn:E2; [apply Z.ltb_lt in E2; lia|].
  rewrite Z.min_id.
  destruct (Z.le_gt_cases k (len l)) as [H|H].
  - rewrite Z.max_l by lia. replace (len l + - k) with (len l - k) by lia.
    apply firstn_all2. rewrite length_skipn. unfold len in *. lia.
  - rewrite Z.max_r by lia.
    replace (Z.to_nat (len l - k)) with 0%nat by lia.
    simpl skipn. rewrite Z.sub_0_r. unfold len. rewrite Nat2Z.id.
    apply firstn_all.
Qed.

Lemma slice_but_last {A} (l : list A) (k : Z) :
  0 < k ->
  slice l 0 (- k) = firstn (Z.to_nat (len l - k)) l.
Proof.
  intro Hk. unfold slice, relIndex.
  pose proof (len_nonneg l) as Hl.
  replace (0 <? 0) with false by reflexivity.
  destruct (- k <? 0) eqn:E; [|apply Z.ltb_ge in E; lia].
  rewrite (Z.min_l 0) by lia. simpl skipn. rewrite Z.sub_0_r.
  f_equal. lia.
Qed.

Section Memory.
Variable AI : Type.
Variable generateContent : AI -> Index.Prompt -> AI * option jsstring.

Local Abbreviation World := (Index.World AI).
Local Abbreviation conversationMemory :=
  (Index.conversationMemory generateContent).

(** X21. With conversation memory asked for and the messages readable,
    the history is split at its last three turns: the memory context is
    the last three turns (all of them when there are fewer) joined by
    newlines; a summary is generated only for more than six turns, from
    exactly the turns before the last three, and a rejected summary is an
    empty one, not an error.  Six turns or fewer leave the world as it
    was. *)
Theorem memory_splits_the_history (userId session : jsstring)
    (request : Index.Request) (w : World) :
  wantsMemory request session ->
  Index.messagesReadFails (Index.faults w) = false ->
  let turns :=
    map Index.turnOf (Index.messagesOf (Index.firestore w) userId session) in
  exists older recent summary (w' : World),
    conversationMemory userId request w
    = (w', inr (join [10%N] recent, summary)) /\
    older ++ recent = turns /\
    len recent = Z.min 3 (len turns) /\
    Index.firestore w' = Index.firestore w /\
    (len turns <= 6 -> w' = w /\ summary = []) /\
    (6 < len turns ->
     let r := generateContent (Index.ai w)
                (Index.SummaryPrompt (join [10%N] older)) in
     Index.ai w' = fst r /\
     summary = match snd r with Some t => t | None => [] end).
Proof.
  intros (Hr & Hs & Hne) Hf turns.
  set (n := Z.to_nat (len turns - 3)).
  exists (firstn n turns), (skipn n turns).
  assert (Hsplit : firstn n turns ++ skipn n turns = turns)
    by apply firstn_skipn.
  assert (Hlen : len (skipn n turns) = Z.min 3 (len turns)).
  { unfold len. rewrite length_skipn. subst n. unfold len. lia. }
  unfold Index.conversationMemory. rewrite Hr, Hs.
  destruct session as [|c s]; [congruence|].
  rewrite Hf. fold turns.
  assert (Hctx : (if 0 <? len turns
                  then join [10%N] (slice turns (-3) (len turns)) else [])
                 = join [10%N] (skipn n turns)).
  { destruct (0 <? len turns) eqn:E.
    - pose proof (slice_last turns 3 ltac:(lia)) as E3.
      change (- (3)) with (-3) in E3. rewrite E3. reflexivity.
    - apply Z.ltb_ge in E. pose proof (len_nonneg turns).
      destruct turns; [reflexivity|]. unfold len in E. simpl in E. lia. }
  rewrite Hctx.
  destruct (6 <? len turns) eqn:E6.
  - apply Z.ltb_lt in E6.
    pose proof (slice_but_last turns 3 ltac:(lia)) as E3.
    change (- (3)) with (-3) in E3. rewrite E3. fold n.
    unfold Index.bind, Index.withAI, Index.ret.
    destruct (generateContent (Index.ai w)
                (Index.SummaryPrompt (join [10%N] (firstn n turns))))
      as [a' r] eqn:Eg.
    eexists _, _. split; [reflexivity|].
    split; [exact Hsplit|]. split; [exact Hlen|].
    split; [reflexivity|]. split; [lia|].
    intros _. cbv zeta. simpl. split; reflexivity.
  - apply Z.ltb_ge in E6.
    eexists _, _. split; [reflexivity|].
    split; [exact Hsplit|]. split; [exact Hlen|].
    split; [reflexivity|]. split; [auto|]. lia.
Qed.

End Memory.


(* ===================================================================== *)
(** * The answer prompt *)
(* ===================================================================== *)

Section Grounding.
Variable toLowerCase : jsstring -> jsstring.
Variable AI : Type.
Variable embedContent :
  AI -> Index.TaskType -> jsstring -> AI * option (list float).
Variable batchEmbedContents :
  AI -> list jsstring -> AI * option (list (list float)).
Variable generateContent : AI -> Index.Prompt -> AI * option jsstring.

Local Abbreviation askQuestion :=
  (Index.askQuestion toLowerCase embedContent batchEmbedContents
     generateContent).
Local Abbreviation World := (Index.World AI).



End Grounding.


(* ===================================================================== *)
(** * Worked examples of the further properties *)
(* ===================================================================== *)

Lemma citations_come_from_chunks_witness :
  exists w' resp,
    sampleAsk (sampleWorld sampleStored None) = (w', inr resp) /\
    Forall (fun c => len (Index.snippet c) <= 200) (Index.citations resp) /\
    NoDup (map Index.chunkId (Index.citations resp)).
Proof.
  destruct (sampleAsk (sampleWorld sampleStored None)) as [w' [e|resp]] eqn:E.
  - exfalso. vm_compute in E. discriminate E.
  - exists w', resp. split; [reflexivity|].
    destruct (citations_come_from_chunks asciiLower nat sampleEmbed
                sampleBatch sampleGenerate sampleRequest _ _ _ E)
      as (d & data & chunks & top & Hd & Hdoc & Hload & _ & _ & H200 & Hn).
    split; [exact H200|]. apply Hn.
    injection Hd as <-. vm_compute in Hdoc. injection Hdoc as <-.
    vm_compute in Hload. injection Hload as <-.
    repeat constructor; simpl; intuition discriminate.
Defined.

Lemma flagged_clauses_are_cited_witness :
  exists w' resp,
    sampleAsk (sampleWorld sampleStored None) = (w', inr resp) /\
    len (Index.flaggedClauses resp) <= len (Index.citations resp).
Proof.
  destruct (sampleAsk (sampleWorld sampleStored None)) as [w' [e|resp]] eqn:E.
  - exfalso. vm_compute in E. discriminate E.
  - exists w', resp. split; [reflexivity|].
    destruct (flagged_clauses_are_cited asciiLower nat sampleEmbed
                sampleBatch sampleGenerate sampleRequest _ _ _ E)
      as (top & _ & _ & H).
    exact H.
Defined.

Lemma follow_ups_are_clean_witness :
  exists w' resp,
    sampleAsk (sampleWorld sampleStored None) = (w', inr resp) /\
    Index.followUps resp = [lit "Which fee?"; lit "Since when?"] /\
    Forall cleanLine (Index.followUps resp).
Proof.
  destruct (sampleAsk (sampleWorld sampleStored None)) as [w' [e|resp]] eqn:E.
  - exfalso. vm_compute in E. discriminate E.
  - exists w', resp. split; [reflexivity|].
    destruct (follow_ups_are_clean asciiLower nat sampleEmbed
                sampleBatch sampleGenerate sampleRequest _ _ _ E)
      as (_ & H & _).
    split; [|exact H].
    vm_compute in E. injection E as _ <-. reflexivity.
Defined.

Lemma rejections_name_their_cause_witness :
  exists w' e,
    sampleAsk (sampleWorld [] None) = (w', inl e) /\
    Index.code e = Index.failed_precondition /\
    w' = sampleWorld [] None.
Proof.
  destruct (sampleAsk (sampleWorld [] None)) as [w' [e|resp]] eqn:E.
  - exists w', e. split; [reflexivity|].
    destruct (rejections_name_their_cause asciiLower nat sampleEmbed
                sampleBatch sampleGenerate sampleRequest _ _ _ E)
      as (_ & _ & _ & _ & H).
    assert (Hc : Index.code e = Index.failed_precondition).
    { vm_compute in E. injection E as _ <-. reflexivity. }
    split; [exact Hc|]. apply H. rewrite Hc. discriminate.
  - exfalso. vm_compute in E. discriminate E.
Defined.

Lemma relevant_chunks_are_selected_witness :
  exists w' result,
    Index.findRelevantChunks sampleEmbed sampleBatch
      (lit "What is the penalty?") [lit "one"; lit "two"] [None; None]
      (sampleWorld [] None)
    = (w', inr result) /\
    partOf result [lit "one"; lit "two"] /\ len result = 2.
Proof.
  destruct (Index.findRelevantChunks sampleEmbed sampleBatch
              (lit "What is the penalty?") [lit "one"; lit "two"]
              [None; None] (sampleWorld [] None))
    as [w' [e|result]] eqn:E.
  - exfalso. vm_compute in E. discriminate E.
  - exists w', result. split; [reflexivity|].
    destruct (relevant_chunks_are_selected nat sampleEmbed sampleBatch
                _ _ _ _ _ _ E) as (H1 & H2 & _).
    split; [exact H1|exact H2].
Defined.

Lemma delete_rejections_name_their_cause_witness :
  exists w' e,
    DeleteFile.deleteFile sampleRequest (sampleDeleteWorld (Some (lit "u2")))
    = (w', inl (DeleteFile.Https e)) /\
    DeleteFile.code e = DeleteFile.permission_denied /\
    w' = sampleDeleteWorld (Some (lit "u2")).
Proof.
  destruct (DeleteFile.deleteFile sampleRequest
              (sampleDeleteWorld (Some (lit "u2"))))
    as [w' [[e|]|r]] eqn:E;
    [|exfalso; vm_compute in E; discriminate E
     |exfalso; vm_compute in E; discriminate E].
  exists w', e. split; [reflexivity|].
  destruct (delete_rejections_name_their_cause jsstring sampleRequest
              _ _ _ E) as [H _].
  destruct (H e eq_refl) as (Hw & _).
  split; [|exact Hw].
  vm_compute in E. injection E as _ <-. reflexivity.
Defined.


Lemma deleted_document_is_gone_witness :
  exists w' r,
    DeleteFile.deleteFile sampleRequest (sampleDeleteWorld (Some (lit "u1")))
    = (w', inr r) /\
    DeleteFile.deleteFile sampleRequest w'
    = (w', inl (DeleteFile.Https
                  {| DeleteFile.code := DeleteFile.not_found;
                     DeleteFile.message := "Document not found" |})) /\
    sampleAsk (sampleViewWorld (DeleteFile.firestore w'))
    = (sampleViewWorld (DeleteFile.firestore w'), inl documentNotFound).
Proof.
  destruct (DeleteFile.deleteFile sampleRequest
              (sampleDeleteWorld (Some (lit "u1"))))
    as [w' [t|r]] eqn:E; [exfalso; vm_compute in E; discriminate E|].
  exists w', r. split; [reflexivity|].
  assert (Hf : DeleteFile.faults w'
               = DeleteFile.faults (sampleDeleteWorld (Some (lit "u1")))).
  { vm_compute in E. injection E as <- _. reflexivity. }
  destruct (deleted_document_is_gone asciiLower jsstring nat sampleEmbed
              sampleBatch sampleGenerate sampleRequest _ _ _ (lit "doc1")
              E eq_refl) as [H1 H2].
  assert (Hs : signedIn sampleRequest)
    by (exists (lit "u1"); split; [reflexivity|discriminate]).
  split.
  - apply H1; [exact Hs|reflexivity|]. rewrite Hf. reflexivity.
  - apply H2.
    + split; intro d; [reflexivity|apply Permutation_refl].
    + exact Hs.
    + intro B. vm_compute in B. discriminate B.
    + reflexivity.
    + intro B. vm_compute in B. discriminate B.
    + discriminate.
    + reflexivity.
Defined.

Lemma upload_marks_the_document_witness :
  exists w' doc,
    sampleUpload (lit "Late fees apply.") = (w', ProcessUpload.Returned) /\
    Cloud.documents (ProcessUpload.firestore w') (lit "doc1") = Some doc /\
    Cloud.status doc = Some (lit "ready") /\
    Cloud.extractedText doc = Some (lit "Late fees apply.") /\
    map asWrite (Cloud.chunks (ProcessUpload.firestore w') (lit "doc1"))
    = [ {| ProcessUpload.cw_index := 0;
           ProcessUpload.cw_text := lit "Late fees apply." |} ].
Proof.
  destruct (sampleUpload (lit "Late fees apply.")) as [w' o] eqn:E.
  assert (Ho : o = ProcessUpload.Returned).
  { change o with (snd (w', o)). rewrite <- E. vm_compute. reflexivity. }
  subst o.
  destruct (upload_marks_the_document sampleBasename sampleExtname
              sampleTmpPath asciiLower jsstring samplePdfParse sampleRawText
              sampleReadFile nat sampleBatch sampleAutoId sampleObject _ _ E)
    as (file & doc & records & Hfile & Hdoc & H).
  cbv zeta in H.
  destruct H as (Htext & _ & _ & _ & Hready & _ & _ & Hchunks & Hrec & _).
  vm_compute in Hfile. injection Hfile as <-.
  exists w', doc. split; [reflexivity|]. split; [exact Hdoc|].
  split; [apply Hready; intro B; vm_compute in B; discriminate B|].
  split; [exact Htext|].
  change (JS.lit "doc1")
    with (ProcessUpload.docIdOf sampleBasename sampleExtname sampleObject).
  rewrite Hchunks. cbn [sampleUploadWorld ProcessUpload.firestore Cloud.chunks app].
  rewrite Hrec. vm_compute. reflexivity.
Defined.

Lemma embeddings_follow_their_chunks_witness :
  exists w' o,
    sampleUpload (lit "Late fees apply.") = (w', o) /\
    Forall (fun c => Cloud.embedding c = Some [1; 1]%float)
      (Cloud.chunks (ProcessUpload.firestore w') (lit "doc1")).
Proof.
  destruct (sampleUpload (lit "Late fees apply.")) as [w' o] eqn:E.
  exists w', o. split; [reflexivity|].
  destruct (embeddings_follow_their_chunks sampleBasename sampleExtname
              sampleTmpPath asciiLower jsstring samplePdfParse sampleRawText
              sampleReadFile nat sampleBatch sampleAutoId sampleObject _ _ _ E)
    as (records & Hchunks & Hvec & _).
  change (JS.lit "doc1")
    with (ProcessUpload.docIdOf sampleBasename sampleExtname sampleObject).
  rewrite Hchunks. cbn [sampleUploadWorld ProcessUpload.firestore Cloud.chunks app].
  apply (Hvec (fun _ => [1; 1]%float)).
  - reflexivity.
  - intros a sub. exists (S a). unfold sampleBatch. reflexivity.
Defined.

Lemma failed_uploads_are_not_ready_witness :
  exists w',
    sampleUpload (lit "  ") = (w', ProcessUpload.Returned) /\
    snd (sampleAsk (sampleViewWorld (ProcessUpload.firestore w')))
    = inl documentNotReady.
Proof.
  destruct (sampleUpload (lit "  ")) as [w' o] eqn:E.
  assert (Hw : w' = fst (sampleUpload (lit "  "))) by (rewrite E; reflexivity).
  assert (Ho : o = ProcessUpload.Returned).
  { change o with (snd (w', o)). rewrite <- E. vm_compute. reflexivity. }
  subst o. exists w'. split; [reflexivity|].
  destruct (failed_uploads_are_not_ready sampleBasename sampleExtname
              sampleTmpPath asciiLower jsstring samplePdfParse sampleRawText
              sampleReadFile nat sampleEmbed sampleBatch sampleGenerate
              sampleAutoId sampleObject _ _
              (sampleViewWorld (ProcessUpload.firestore w')) sampleRequest E)
    as (doc & Hdoc & Hiff).
  - reflexivity.
  - split; intro d; [reflexivity|apply Permutation_refl].
  - exists (lit "u1"). split; [reflexivity|discriminate].
  - intro B. vm_compute in B. discriminate B.
  - reflexivity.
  - intro B. vm_compute in B. discriminate B.
  - discriminate.
  - reflexivity.
  - reflexivity.
  - apply Hiff. rewrite Hw in Hdoc. vm_compute in Hdoc.
    injection Hdoc as <-. reflexivity.
Defined.

Lemma delete_undoes_the_upload_witness :
  exists w' dw',
    sampleUpload (lit "Late fees apply.") = (w', ProcessUpload.Returned) /\
    DeleteFile.deleteFile sampleRequest (sampleAfterUpload w')
    = (dw', inr {| DeleteFile.success := true |}) /\
    Cloud.documents (DeleteFile.firestore dw') (lit "doc1") = None /\
    Cloud.chunks (DeleteFile.firestore dw') (lit "doc1") = [] /\
    DeleteFile.objects dw' (lit "bucket1") (lit "documents/doc1/notes.txt")
    = None.
Proof.
  destruct (sampleUpload (lit "Late fees apply.")) as [w' o] eqn:E.
  assert (Hw : w' = fst (sampleUpload (lit "Late fees apply.")))
    by (rewrite E; reflexivity).
  assert (Ho : o = ProcessUpload.Returned).
  { change o with (snd (w', o)). rewrite <- E. vm_compute. reflexivity. }
  subst o.
  destruct (delete_undoes_the_upload sampleBasename sampleExtname
              sampleTmpPath asciiLower jsstring samplePdfParse sampleRawText
              sampleReadFile nat sampleBatch sampleAutoId sampleObject _ _
              (sampleAfterUpload w') sampleRequest (lit "u1") E)
    as (dw' & H).
  - reflexivity.
  - reflexivity.
  - repeat split.
  - reflexivity.
  - discriminate.
  - reflexivity.
  - intros doc owner Hdoc Hown _. rewrite Hw in Hdoc. vm_compute in Hdoc.
    injection Hdoc as <-. injection Hown as <-. reflexivity.
  - discriminate.
  - discriminate.
  - exists w', dw'. split; [reflexivity|]. exact H.
Defined.

Lemma chunks_cover_the_text_witness :
  Index.chunkTextByWords (lit "a b c") 2 1 = [lit "a b"; lit "b c"] /\
  forall i, 0 <= i < 3 ->
    exists c s e,
      In c (Index.chunkTextByWords (lit "a b c") 2 1) /\ s <= i < e /\
      wordsOf c = wordsBetween (wordsOf (lit "a b c")) s e.
Proof.
  split; [vm_compute; reflexivity|].
  exact (proj2 (chunks_cover_the_text (lit "a b c") 2 1 ltac:(lia))).
Defined.

Lemma chunk_count_witness :
  wordsOf (lit "a b c") = [lit "a"; lit "b"; lit "c"] /\
  len (Index.chunkTextByWords (lit "a b c") 2 1) = 2.
Proof.
  split; [vm_compute; reflexivity|].
  exact (proj1 (chunk_count (lit "a b c") 2 1 ltac:(lia)
                  ltac:(vm_compute; discriminate))).
Defined.

Lemma memory_splits_the_history_witness :
  exists (older recent : list jsstring) summary w',
    Index.conversationMemory sampleGenerate (lit "u1") sampleChatRequest
      (sampleChatWorld 7)
    = (w', inr (join [10%N] recent, summary)) /\
    len older = 4 /\ len recent = 3 /\ Index.ai w' = 1%nat.
Proof.
  destruct (memory_splits_the_history nat sampleGenerate (lit "u1")
              (lit "s1") sampleChatRequest (sampleChatWorld 7))
    as (older & recent & summary & w' & E & Hsplit & Hlen & _ & _ & Hsum).
  - split; [reflexivity|]. split; [reflexivity|discriminate].
  - reflexivity.
  - exists older, recent, summary, w'. split; [exact E|].
    assert (H3 : len recent = 3) by (rewrite Hlen; vm_compute; reflexivity).
    split; [|split; [exact H3|]].
    + apply (f_equal (@length _)) in Hsplit. rewrite length_app in Hsplit.
      match type of Hsplit with
      | _ = ?n => let v := eval vm_compute in n in change n with v in Hsplit
      end.
      unfold len in *. lia.
    + destruct Hsum as [Ha _]; [vm_compute; reflexivity|].
      rewrite Ha. reflexivity.
Defined.

